(** * XBridge swap coordination core: a shallow embedding and its properties

    The development follows [src/xbridge/xbridgeapp.cpp],
    [src/xbridge/util/xutil.cpp] and
    [src/xbridge/xbridgewalletconnectorbch.cpp].  C++ [double]s are
    IEEE-754 binary64 values ([spec_float] at precision 53, [emax] 1024);
    [std::map] and [std::set] are finite maps keyed the way the C++
    comparator keys them; shared [TransactionDescrPtr] objects are the
    values of the order maps. *)

From Stdlib Require Import ZArith List Bool Lia String Ascii SpecFloat Reals Lra.
From stdpp Require Import gmap strings list fin_maps sorting.

Local Open Scope Z_scope.

(** ** Doubles *)

Module Dbl.

Definition prec : Z := 53.
Definition emax : Z := 1024.

Definition add : spec_float -> spec_float -> spec_float := SFadd prec emax.
Definition sub : spec_float -> spec_float -> spec_float := SFsub prec emax.
Definition mul : spec_float -> spec_float -> spec_float := SFmul prec emax.
Definition div : spec_float -> spec_float -> spec_float := SFdiv prec emax.

(** [a < b] and [a <= b]; both are false when an operand is NaN. *)
Definition ltb : spec_float -> spec_float -> bool := SFltb.
Definition leb : spec_float -> spec_float -> bool := SFleb.

(** Integer to double conversion (round to nearest, ties to even). *)
Definition of_Z (z : Z) : spec_float := binary_normalize prec emax z 0 false.

Definition zero : spec_float := S754_zero false.
(** The literal [0.5]. *)
Definition half : spec_float := S754_finite false 4503599627370496 (-53).

(** Truncation toward zero, as the C++ conversion to an integer type does
    for values in range; [None] for NaN and the infinities. *)
Definition trunc (x : spec_float) : option Z :=
  match x with
  | S754_zero _ => Some 0
  | S754_finite s m e =>
      let a := match e with
               | Z0 => Zpos m
               | Zpos p => Zpos m * 2 ^ e
               | Zneg p => Zpos m / 2 ^ Zpos p
               end in
      Some (if s then - a else a)
  | _ => None
  end.

(** [(int64_t) x]: out of range (and NaN) conversions are undefined in
    C++; the model gives them the x86-64 result [INT64_MIN]. *)
Definition to_int64 (x : spec_float) : Z :=
  match trunc x with
  | Some z => if (- 2 ^ 63 <=? z) && (z <? 2 ^ 63) then z else - 2 ^ 63
  | None => - 2 ^ 63
  end.

(** [(uint64_t) r] for a signed 64-bit [r]. *)
Definition int64_to_uint64 (r : Z) : Z := r mod 2 ^ 64.

(** [(uint64_t) x] for a double [x]: the truncation for the values in
    range.  Out of range (and NaN) conversions are undefined in C++; the
    model gives them the result of the x86-64 code GCC emits: a value below
    [2^63] (and NaN) goes through the signed conversion, a value from
    [2^63] on is converted after [2^63] is subtracted and gets the top bit
    flipped. *)
Definition to_uint64 (x : spec_float) : Z :=
  let two63 := of_Z (2 ^ 63) in
  if leb two63 x then Z.lxor (int64_to_uint64 (to_int64 (sub x two63))) (2 ^ 63)
  else int64_to_uint64 (to_int64 x).

End Dbl.

(** ** Wallet entries *)

Module wallet.

(** [xbridge::wallet::UtxoEntry]. *)
Record UtxoEntry := {
  txId : string;
  vout : N;
  address : string;
  amount : spec_float;
  signature : list Z;
  rawAddress : list Z
}.

(** The key under which [std::set<UtxoEntry>] stores an entry: the
    comparison operators of [UtxoEntry] look at [(txId, vout)] only. *)
Definition key (u : UtxoEntry) : string * N := (txId u, vout u).

End wallet.

Import wallet.

(** [std::set<wallet::UtxoEntry>]: at most one entry for each key. *)
Abbreviation UtxoSet := (gmap (string * N) UtxoEntry).

(** [s.count(u)]. *)
Definition set_count (s : UtxoSet) (u : UtxoEntry) : bool :=
  bool_decide (is_Some (s !! key u)).

(** [s.insert(u)]: an entry with the same key that is already there stays. *)
Definition set_insert (u : UtxoEntry) (s : UtxoSet) : UtxoSet :=
  match s !! key u with
  | Some _ => s
  | None => <[key u := u]> s
  end.

(** [s.insert(first, last)]. *)
Definition set_insert_range (us : list UtxoEntry) (s : UtxoSet) : UtxoSet :=
  fold_left (fun acc u => set_insert u acc) us s.

(** [s.erase(u)]. *)
Definition set_erase (u : UtxoEntry) (s : UtxoSet) : UtxoSet := delete (key u) s.

(** ** UTXO lock manager *)

(** [m_utxosDict] and [m_feeUtxos] of [App]. *)
Record Locks := {
  m_utxosDict : gmap string UtxoSet;
  m_feeUtxos : UtxoSet
}.

(** [App::lockFeeUtxos]. *)
Definition lockFeeUtxos (feeUtxos : UtxoSet) (l : Locks) : Locks :=
  {| m_utxosDict := m_utxosDict l;
     m_feeUtxos := set_insert_range (map snd (map_to_list feeUtxos)) (m_feeUtxos l) |}.

(** [App::unlockFeeUtxos]. *)
Definition unlockFeeUtxos (feeUtxos : UtxoSet) (l : Locks) : Locks :=
  {| m_utxosDict := m_utxosDict l;
     m_feeUtxos := fold_left (fun acc u => set_erase u acc)
                     (map snd (map_to_list feeUtxos)) (m_feeUtxos l) |}.

(** [App::getLockedUtxos]: [m_utxosDict[token]] default-constructs the
    entry of a token that has none. *)
Definition getLockedUtxos (token : string) (l : Locks) : UtxoSet * Locks :=
  match m_utxosDict l !! token with
  | Some o => (o, l)
  | None => (∅, {| m_utxosDict := <[token := ∅]> (m_utxosDict l);
                   m_feeUtxos := m_feeUtxos l |})
  end.

(** [App::getAllLockedUtxos]: the fee locks first, then the order locks of
    the token. *)
Definition getAllLockedUtxos (token : string) (l : Locks) : UtxoSet * Locks :=
  let fees := m_feeUtxos l in
  let '(other, l') := getLockedUtxos token l in
  (set_insert_range (map snd (map_to_list other))
     (set_insert_range (map snd (map_to_list fees)) ∅), l').

(** [App::lockCoins] on the order-lock dictionary. *)
Definition lockCoins (token : string) (utxos : list UtxoEntry)
    (d : gmap string UtxoSet) : bool * gmap string UtxoSet :=
  match d !! token with
  | None => (true, <[token := set_insert_range utxos ∅]> d)
  | Some o =>
      if existsb (set_count o) utxos then (false, d)
      else (true, <[token := set_insert_range utxos o]> d)
  end.

(** [App::unlockCoins] on the order-lock dictionary. *)
Definition unlockCoins (token : string) (utxos : list UtxoEntry)
    (d : gmap string UtxoSet) : gmap string UtxoSet :=
  match d !! token with
  | None => d
  | Some o =>
      <[token := fold_left (fun acc u => if set_count acc u then set_erase u acc else acc)
                   utxos o]> d
  end.

(** A key is locked for a token when the token's set holds an entry with it. *)
Definition locked (d : gmap string UtxoSet) (token : string) (k : string * N) : Prop :=
  exists o, d !! token = Some o /\ is_Some (o !! k).

(** ** Properties of the lock manager *)

Section LockFacts.

Implicit Types (s : UtxoSet) (u : UtxoEntry) (us : list UtxoEntry).
Implicit Types (d : gmap string UtxoSet) (k : string * N).

Lemma set_insert_lookup u s k :
  is_Some (set_insert u s !! k) <-> is_Some (s !! k) \/ k = key u.
Proof.
  unfold set_insert. destruct (s !! key u) eqn:E.
  - split; [tauto | intros [H | ->]; [done | by rewrite E]].
  - rewrite lookup_insert. case_decide; subst.
    + split; [by right | done].
    + split; [by left | intros [H' | ->]; done].
Qed.

Lemma set_insert_range_lookup us s k :
  is_Some (set_insert_range us s !! k) <-> is_Some (s !! k) \/ k ∈ map key us.
Proof.
  unfold set_insert_range. revert s. induction us as [|u us IH]; intros s; simpl.
  - rewrite elem_of_nil. tauto.
  - rewrite IH, set_insert_lookup, elem_of_cons. intuition.
Qed.

Lemma set_count_true s u : set_count s u = true <-> is_Some (s !! key u).
Proof. unfold set_count. by rewrite bool_decide_eq_true. Qed.

Lemma existsb_set_count s us :
  existsb (set_count s) us = true <-> exists u, u ∈ us /\ is_Some (s !! key u).
Proof.
  rewrite existsb_exists. split; intros (u & Hu & Hc); exists u.
  - apply list_elem_of_In in Hu. by rewrite <- set_count_true.
  - apply list_elem_of_In in Hu. by rewrite set_count_true.
Qed.

Lemma unlock_fold_lookup us s k :
  is_Some (fold_left (fun acc u => if set_count acc u then set_erase u acc else acc) us s !! k)
  <-> is_Some (s !! k) /\ k ∉ map key us.
Proof.
  revert s. induction us as [|u us IH]; intros s; simpl.
  - rewrite elem_of_nil. tauto.
  - rewrite IH, not_elem_of_cons. destruct (set_count s u) eqn:E.
    + unfold set_erase. rewrite lookup_delete. case_decide; subst.
      * split; [intros [[? ?] _]; done | intros [_ [? _]]; done].
      * intuition.
    + assert (s !! key u = None) as Hn.
      { destruct (s !! key u) eqn:E'; [|done].
        assert (set_count s u = true) by (apply set_count_true; by rewrite E').
        congruence. }
      split; [intros [Hs Hk]; repeat split; try done; intros ->; rewrite Hn in Hs; by destruct Hs
             | intuition].
Qed.

Lemma erase_fold_lookup us s k :
  is_Some (fold_left (fun acc u => set_erase u acc) us s !! k)
  <-> is_Some (s !! k) /\ k ∉ map key us.
Proof.
  revert s. induction us as [|u us IH]; intros s; simpl.
  - rewrite elem_of_nil. tauto.
  - rewrite IH, not_elem_of_cons. unfold set_erase. rewrite lookup_delete.
    case_decide; subst.
    + split; [intros [[? ?] _]; done | intros [_ [? _]]; done].
    + intuition.
Qed.

Lemma elem_of_map_key u us : u ∈ us -> key u ∈ map key us.
Proof. intros H. apply list_elem_of_fmap. by exists u. Qed.

End LockFacts.

(** C2. [lockCoins] refuses a list that overlaps the token's locked set and
    leaves the dictionary as it was; otherwise it locks every UTXO of the
    list (and nothing else) and returns true; after a successful call a
    second request that shares a UTXO with the first is refused. *)
Theorem lockCoins_exclusive (token : string) (utxos : list UtxoEntry)
    (d : gmap string UtxoSet) :
  ((exists u, u ∈ utxos /\ locked d token (key u)) ->
     lockCoins token utxos d = (false, d)) /\
  ((forall u, u ∈ utxos -> ~ locked d token (key u)) ->
     exists d', lockCoins token utxos d = (true, d') /\
       (forall k, locked d' token k <-> locked d token k \/ k ∈ map key utxos) /\
       (forall t, t <> token -> d' !! t = d !! t) /\
       (forall utxos2 u u2, u ∈ utxos -> u2 ∈ utxos2 -> key u2 = key u ->
          lockCoins token utxos2 d' = (false, d'))).
Proof.
  assert (Hfail : forall us d0, (exists u, u ∈ us /\ locked d0 token (key u)) ->
                    lockCoins token us d0 = (false, d0)).
  { intros us d0 (u & Hu & o & Ho & Hk). unfold lockCoins. rewrite Ho.
    assert (existsb (set_count o) us = true) as ->; [|done].
    apply existsb_set_count. eauto. }
  split; [apply Hfail|].
  intros Hfree. unfold lockCoins at 1.
  assert (Hlk : forall o, forall k,
            locked (<[token := set_insert_range utxos o]> d) token k
            <-> is_Some (o !! k) \/ k ∈ map key utxos).
  { intros o k. unfold locked. rewrite lookup_insert_eq. split.
    - intros (o' & [= <-] & Hk). by apply set_insert_range_lookup.
    - intros H. eexists; split; [done|]. by apply set_insert_range_lookup. }
  assert (Hsecond : forall o utxos2 u u2, u ∈ utxos -> u2 ∈ utxos2 -> key u2 = key u ->
            lockCoins token utxos2 (<[token := set_insert_range utxos o]> d)
            = (false, <[token := set_insert_range utxos o]> d)).
  { intros o utxos2 u u2 Hu Hu2 Hkey. apply Hfail. exists u2. split; [done|].
    apply Hlk. right. rewrite Hkey. by apply elem_of_map_key. }
  destruct (d !! token) as [o|] eqn:Ho.
  - assert (existsb (set_count o) utxos = false) as ->.
    { apply not_true_is_false. rewrite existsb_set_count. intros (u & Hu & Hk).
      apply (Hfree u Hu). by exists o. }
    eexists; split; [done|]. repeat split.
    + intros Hl. apply Hlk in Hl as [Hl | Hl]; [left; by exists o | by right].
    + intros [(o' & Ho' & Hk) | Hk]; apply Hlk; [left | by right]. congruence.
    + intros t Ht. by rewrite lookup_insert_ne.
    + apply Hsecond.
  - eexists; split; [done|]. repeat split.
    + intros Hl. apply Hlk in Hl as [Hl | Hl]; [|by right].
      rewrite lookup_empty in Hl. by destruct Hl.
    + intros [(o' & Ho' & Hk) | Hk]; [congruence|]. apply Hlk. by right.
    + intros t Ht. by rewrite lookup_insert_ne.
    + apply Hsecond.
Qed.

(** ** Orders *)

(** Modelled from the spec: the [State] enumeration of [TransactionDescr]
    (its header is not among the sources); the names are those of the
    spec's state list with the prefix the sources use. *)
Inductive State :=
  | trNew | trPending | trAccepting | trHold | trInitializedWait | trInitialized
  | trCreatedWait | trCreated | trSignedWait | trSigned | trCommittedWait
  | trCommitted | trFinished | trCancelled | trRolledBack | trOffline
  | trExpired | trInvalid | trDroppedByUser.

#[global] Instance State_eq_dec : EqDecision State.
Proof. solve_decision. Defined.

(** [CPubKey] and raw addresses are byte strings. *)
Abbreviation CPubKey := (list Z).

(** [xbridge::TransactionDescr], the fields the sources below read or
    write.  Times are microseconds since the epoch. *)
Record TransactionDescr := {
  id : N;
  state : State;
  role : ascii;
  hubAddress : list Z;
  sPubKey : list Z;
  created : Z;
  txtime : Z;
  fromAddr : string;
  from : list Z;
  fromCurrency : string;
  fromAmount : Z;
  toAddr : string;
  to : list Z;
  toCurrency : string;
  toAmount : Z;
  usedCoins : list UtxoEntry;
  feeUtxos : UtxoSet;
  rawFeeTx : string;
  mPubKey : list Z;
  mPrivKey : list Z;
  excludedSnodes : gset CPubKey
}.

Definition set_state (s : State) (t : TransactionDescr) : TransactionDescr :=
  {| id := id t; state := s; role := role t; hubAddress := hubAddress t;
     sPubKey := sPubKey t; created := created t; txtime := txtime t;
     fromAddr := fromAddr t; from := from t; fromCurrency := fromCurrency t;
     fromAmount := fromAmount t; toAddr := toAddr t; to := to t;
     toCurrency := toCurrency t; toAmount := toAmount t;
     usedCoins := usedCoins t; feeUtxos := feeUtxos t; rawFeeTx := rawFeeTx t;
     mPubKey := mPubKey t; mPrivKey := mPrivKey t;
     excludedSnodes := excludedSnodes t |}.

Definition set_txtime (now : Z) (t : TransactionDescr) : TransactionDescr :=
  {| id := id t; state := state t; role := role t; hubAddress := hubAddress t;
     sPubKey := sPubKey t; created := created t; txtime := now;
     fromAddr := fromAddr t; from := from t; fromCurrency := fromCurrency t;
     fromAmount := fromAmount t; toAddr := toAddr t; to := to t;
     toCurrency := toCurrency t; toAmount := toAmount t;
     usedCoins := usedCoins t; feeUtxos := feeUtxos t; rawFeeTx := rawFeeTx t;
     mPubKey := mPubKey t; mPrivKey := mPrivKey t;
     excludedSnodes := excludedSnodes t |}.

Definition set_usedCoins (us : list UtxoEntry) (t : TransactionDescr) : TransactionDescr :=
  {| id := id t; state := state t; role := role t; hubAddress := hubAddress t;
     sPubKey := sPubKey t; created := created t; txtime := txtime t;
     fromAddr := fromAddr t; from := from t; fromCurrency := fromCurrency t;
     fromAmount := fromAmount t; toAddr := toAddr t; to := to t;
     toCurrency := toCurrency t; toAmount := toAmount t;
     usedCoins := us; feeUtxos := feeUtxos t; rawFeeTx := rawFeeTx t;
     mPubKey := mPubKey t; mPrivKey := mPrivKey t;
     excludedSnodes := excludedSnodes t |}.

Definition set_fee (fu : UtxoSet) (raw : string) (t : TransactionDescr) : TransactionDescr :=
  {| id := id t; state := state t; role := role t; hubAddress := hubAddress t;
     sPubKey := sPubKey t; created := created t; txtime := txtime t;
     fromAddr := fromAddr t; from := from t; fromCurrency := fromCurrency t;
     fromAmount := fromAmount t; toAddr := toAddr t; to := to t;
     toCurrency := toCurrency t; toAmount := toAmount t;
     usedCoins := usedCoins t; feeUtxos := fu; rawFeeTx := raw;
     mPubKey := mPubKey t; mPrivKey := mPrivKey t;
     excludedSnodes := excludedSnodes t |}.

(** Modelled from the spec: [TransactionDescr::assignServicenode] and
    [excludeNode] (header methods): the order records the public key and
    the 20-byte key id of the node that relays it, and the set of nodes
    that failed to relay it. *)
Definition assignServicenode (snode : CPubKey) (keyid : list Z)
    (t : TransactionDescr) : TransactionDescr :=
  {| id := id t; state := state t; role := role t; hubAddress := keyid;
     sPubKey := snode; created := created t; txtime := txtime t;
     fromAddr := fromAddr t; from := from t; fromCurrency := fromCurrency t;
     fromAmount := fromAmount t; toAddr := toAddr t; to := to t;
     toCurrency := toCurrency t; toAmount := toAmount t;
     usedCoins := usedCoins t; feeUtxos := feeUtxos t; rawFeeTx := rawFeeTx t;
     mPubKey := mPubKey t; mPrivKey := mPrivKey t;
     excludedSnodes := excludedSnodes t |}.

Definition excludeNode (snode : CPubKey) (t : TransactionDescr) : TransactionDescr :=
  {| id := id t; state := state t; role := role t; hubAddress := hubAddress t;
     sPubKey := sPubKey t; created := created t; txtime := txtime t;
     fromAddr := fromAddr t; from := from t; fromCurrency := fromCurrency t;
     fromAmount := fromAmount t; toAddr := toAddr t; to := to t;
     toCurrency := toCurrency t; toAmount := toAmount t;
     usedCoins := usedCoins t; feeUtxos := feeUtxos t; rawFeeTx := rawFeeTx t;
     mPubKey := mPubKey t; mPrivKey := mPrivKey t;
     excludedSnodes := {[snode]} ∪ excludedSnodes t |}.

(** Modelled from the spec: [TransactionDescr::updateTimestamp()] (header
    method) moves [txtime] to the current time. *)
Definition updateTimestamp (now : Z) (t : TransactionDescr) : TransactionDescr :=
  set_txtime now t.

(** ** Order store *)

(** A pending packet: the command and the body bytes. *)
Record XBridgePacket := { command : N; body : list Z }.

(** The parts of [App] and [App::Impl] the order store touches. *)
Record App := {
  m_transactions : gmap N TransactionDescr;
  m_historicTransactions : gmap N TransactionDescr;
  m_pendingPackets : gmap N XBridgePacket;
  m_locks : Locks
}.

Definition with_transactions (m : gmap N TransactionDescr) (a : App) : App :=
  {| m_transactions := m; m_historicTransactions := m_historicTransactions a;
     m_pendingPackets := m_pendingPackets a; m_locks := m_locks a |}.

Definition with_history (m : gmap N TransactionDescr) (a : App) : App :=
  {| m_transactions := m_transactions a; m_historicTransactions := m;
     m_pendingPackets := m_pendingPackets a; m_locks := m_locks a |}.

Definition with_packets (m : gmap N XBridgePacket) (a : App) : App :=
  {| m_transactions := m_transactions a;
     m_historicTransactions := m_historicTransactions a;
     m_pendingPackets := m; m_locks := m_locks a |}.

Definition with_locks (l : Locks) (a : App) : App :=
  {| m_transactions := m_transactions a;
     m_historicTransactions := m_historicTransactions a;
     m_pendingPackets := m_pendingPackets a; m_locks := l |}.

Definition with_utxosDict (d : gmap string UtxoSet) (a : App) : App :=
  with_locks {| m_utxosDict := d; m_feeUtxos := m_feeUtxos (m_locks a) |} a.

(** [App::processLater]. *)
Definition processLater (txid : N) (packet : XBridgePacket) (a : App) : App :=
  with_packets (<[txid := packet]> (m_pendingPackets a)) a.

(** [App::removePackets]. *)
Definition removePackets (txid : N) (a : App) : App :=
  with_packets (delete txid (m_pendingPackets a)) a.

Section OrderStore.

(** [TransactionDescr::updateTimestamp(const TransactionDescr &)], a header
    method: what it does to the stored order is left open. *)
Variable updateTimestampFrom : TransactionDescr -> TransactionDescr -> TransactionDescr.

(** [App::appendTransaction]. *)
Definition appendTransaction (ptr : TransactionDescr) (a : App) : App :=
  if bool_decide (is_Some (m_historicTransactions a !! id ptr)) then a
  else
    match m_transactions a !! id ptr with
    | None => with_transactions (<[id ptr := ptr]> (m_transactions a)) a
    | Some cur =>
        with_transactions (<[id ptr := updateTimestampFrom cur ptr]> (m_transactions a)) a
    end.

(** [App::moveTransactionToHistory].  When the order is live and the
    history already holds the id, the function returns after the erase:
    neither the coins nor the packets are touched. *)
Definition moveTransactionToHistory (i : N) (a : App) : App :=
  match m_transactions a !! i with
  | Some xtx =>
      let a1 := with_transactions (delete i (m_transactions a)) a in
      if bool_decide (is_Some (m_historicTransactions a1 !! i)) then a1
      else
        let a2 := with_history (<[i := xtx]> (m_historicTransactions a1)) a1 in
        let a3 := with_utxosDict
                    (unlockCoins (fromCurrency xtx) (usedCoins xtx)
                       (m_utxosDict (m_locks a2))) a2 in
        removePackets i a3
  | None => removePackets i a
  end.

(** [App::flushCancelledOrders]: both maps lose their cancelled orders
    older than [keepTime]. *)
Definition flushCancelledOrders (keepTime : Z) (a : App) : App :=
  let keep (kv : N * TransactionDescr) :=
    ~ (state kv.2 = trCancelled /\ txtime kv.2 < keepTime) in
  with_history (filter keep (m_historicTransactions a))
    (with_transactions (filter keep (m_transactions a)) a).

(** One step of the order store.  [sendXBridgeTransaction] stores a new
    order under the double SHA-256 of its fields, the current microsecond
    timestamp among them: the id is taken to be fresh.  The remaining
    writers ([flushCancelledOrders], [checkAndEraseExpiredTransactions],
    [clearNonLocalOrders], and updates through the shared order pointers)
    erase entries or change them in place. *)
Inductive step : App -> App -> Prop :=
  | step_append ptr a : step a (appendTransaction ptr a)
  | step_move i a : step a (moveTransactionToHistory i a)
  | step_send ptr a :
      m_transactions a !! id ptr = None ->
      m_historicTransactions a !! id ptr = None ->
      step a (with_transactions (<[id ptr := ptr]> (m_transactions a)) a)
  | step_later i p a : step a (processLater i p a)
  | step_locks l a : step a (with_locks l a)
  | step_shrink live hist a :
      dom live ⊆ dom (m_transactions a) ->
      dom hist ⊆ dom (m_historicTransactions a) ->
      step a (with_history hist (with_transactions live a)).

Definition initial : App :=
  {| m_transactions := ∅; m_historicTransactions := ∅; m_pendingPackets := ∅;
     m_locks := {| m_utxosDict := ∅; m_feeUtxos := ∅ |} |}.

Inductive reachable : App -> Prop :=
  | reach_init : reachable initial
  | reach_step a a' : reachable a -> step a a' -> reachable a'.

(** No id is a key of both maps. *)
Definition live_xor_historic (a : App) : Prop :=
  forall i, ~ (is_Some (m_transactions a !! i) /\ is_Some (m_historicTransactions a !! i)).

End OrderStore.

(** ** Properties of the order store *)

Section OrderStoreFacts.

Variable updateTimestampFrom : TransactionDescr -> TransactionDescr -> TransactionDescr.

Abbreviation appendTransaction := (appendTransaction updateTimestampFrom).
Abbreviation step := (step updateTimestampFrom).
Abbreviation reachable := (reachable updateTimestampFrom).

Lemma appendTransaction_historic ptr a :
  is_Some (m_historicTransactions a !! id ptr) -> appendTransaction ptr a = a.
Proof.
  intros H. unfold appendTransaction. by rewrite bool_decide_eq_true_2.
Qed.

Lemma moveTransactionToHistory_live i a :
  m_transactions (moveTransactionToHistory i a) !! i = None.
Proof.
  unfold moveTransactionToHistory. destruct (m_transactions a !! i) eqn:E; simpl.
  - case_bool_decide; simpl; apply lookup_delete_eq.
  - done.
Qed.

Lemma moveTransactionToHistory_refuses i a :
  is_Some (m_historicTransactions a !! i) ->
  m_historicTransactions (moveTransactionToHistory i a) = m_historicTransactions a.
Proof.
  intros H. unfold moveTransactionToHistory.
  destruct (m_transactions a !! i) eqn:E; simpl; [|done].
  by rewrite bool_decide_eq_true_2.
Qed.

Lemma step_keeps_invariant a a' :
  step a a' -> live_xor_historic a -> live_xor_historic a'.
Proof.
  intros Hs Hinv. destruct Hs as [ptr a | i a | ptr a Hl Hh | i p a | l a | live hist a Hl Hh].
  - unfold appendTransaction. case_bool_decide as Hhist; [done|].
    intros j [Hj1 Hj2].
    assert (is_Some (m_historicTransactions a !! j)) as Hj2'
      by (by destruct (m_transactions a !! id ptr)).
    destruct (decide (j = id ptr)) as [->|Hne]; [done|].
    apply (Hinv j). split; [|done].
    destruct (m_transactions a !! id ptr); simpl in Hj1;
      by rewrite lookup_insert_ne in Hj1.
  - intros j [Hj1 Hj2]. destruct (decide (j = i)) as [->|Hne].
    + rewrite moveTransactionToHistory_live in Hj1. by destruct Hj1.
    + apply (Hinv j). unfold moveTransactionToHistory in Hj1, Hj2.
      destruct (m_transactions a !! i) eqn:E; simpl in *; [|done].
      case_bool_decide; simpl in *.
      * by rewrite lookup_delete_ne in Hj1.
      * rewrite lookup_delete_ne in Hj1 by done.
        by rewrite lookup_insert_ne in Hj2.
  - intros j [Hj1 Hj2]. simpl in *. destruct (decide (j = id ptr)) as [->|Hne].
    + rewrite Hh in Hj2. by destruct Hj2.
    + rewrite lookup_insert_ne in Hj1 by done. by apply (Hinv j).
  - done.
  - done.
  - intros j [Hj1 Hj2]. simpl in *. apply (Hinv j). split.
    + apply elem_of_dom. apply Hl. by apply elem_of_dom.
    + apply elem_of_dom. apply Hh. by apply elem_of_dom.
Qed.

Lemma reachable_invariant a : reachable a -> live_xor_historic a.
Proof.
  induction 1 as [|a a' _ IH Hs].
  - intros i [H _]. simpl in H. rewrite lookup_empty in H. by destruct H.
  - by eapply step_keeps_invariant.
Qed.

(** [flushCancelledOrders] is one of the erasing steps. *)
Lemma flushCancelledOrders_step keepTime a : step a (flushCancelledOrders keepTime a).
Proof.
  unfold flushCancelledOrders. apply step_shrink; apply dom_filter_subseteq.
Qed.

(** C8. In every reachable state of the order store no id is a key of
    both the live map and the history map; [appendTransaction] leaves the
    store as it is when the history holds the id, and
    [moveTransactionToHistory] erases the id from the live map and leaves
    the history as it is when the history already holds the id. *)
Theorem live_and_history_disjoint (a : App) :
  reachable a ->
  live_xor_historic a /\
  (forall ptr, is_Some (m_historicTransactions a !! id ptr) -> appendTransaction ptr a = a) /\
  (forall i, m_transactions (moveTransactionToHistory i a) !! i = None /\
             (is_Some (m_historicTransactions a !! i) ->
              m_historicTransactions (moveTransactionToHistory i a)
              = m_historicTransactions a)).
Proof.
  intros Hr. split; [by apply reachable_invariant|]. split.
  - intros ptr. apply appendTransaction_historic.
  - intros i. split; [apply moveTransactionToHistory_live
                     | apply moveTransactionToHistory_refuses].
Qed.

Lemma unlockCoins_locked token utxos d t k :
  locked (unlockCoins token utxos d) t k
  <-> locked d t k /\ ~ (t = token /\ k ∈ map key utxos).
Proof.
  unfold unlockCoins, locked. destruct (d !! token) as [o|] eqn:Ho.
  - destruct (decide (t = token)) as [->|Hne].
    + rewrite lookup_insert_eq. split.
      * intros (o' & [= <-] & Hk). apply unlock_fold_lookup in Hk as [Hk Hn].
        split; [by exists o | intros [_ ?]; done].
      * intros [(o' & Ho' & Hk) Hn]. eexists; split; [done|].
        apply unlock_fold_lookup. split; [congruence | intros ?; by apply Hn].
    + rewrite lookup_insert_ne by done. intuition.
  - split; [|tauto]. intros (o & Ho' & Hk). split; [by exists o|].
    intros [-> _]. congruence.
Qed.

(** C10. For an order of the live map of a reachable state,
    [moveTransactionToHistory] leaves none of the order's [usedCoins]
    locked for its [fromCurrency] and no pending packet under its id; the
    order is now historic; every other id keeps its entries in the three
    maps, every other lock stays, and the fee locks are as before. *)
Theorem moveTransactionToHistory_releases (a : App) (i : N) (xtx : TransactionDescr) :
  reachable a ->
  m_transactions a !! i = Some xtx ->
  let a' := moveTransactionToHistory i a in
  (forall u, u ∈ usedCoins xtx ->
     ~ locked (m_utxosDict (m_locks a')) (fromCurrency xtx) (key u)) /\
  m_pendingPackets a' !! i = None /\
  m_transactions a' !! i = None /\
  m_historicTransactions a' !! i = Some xtx /\
  (forall j, j <> i ->
     m_transactions a' !! j = m_transactions a !! j /\
     m_historicTransactions a' !! j = m_historicTransactions a !! j /\
     m_pendingPackets a' !! j = m_pendingPackets a !! j) /\
  (forall t k, ~ (t = fromCurrency xtx /\ k ∈ map key (usedCoins xtx)) ->
     (locked (m_utxosDict (m_locks a')) t k <-> locked (m_utxosDict (m_locks a)) t k)) /\
  m_feeUtxos (m_locks a') = m_feeUtxos (m_locks a).
Proof.
  intros Hr Hlive a'.
  assert (m_historicTransactions a !! i = None) as Hhist.
  { destruct (m_historicTransactions a !! i) eqn:E; [|done].
    exfalso. apply (reachable_invariant a Hr i). rewrite Hlive, E. by split. }
  subst a'. unfold moveTransactionToHistory. rewrite Hlive. simpl.
  rewrite bool_decide_eq_false_2 by (rewrite Hhist; by intros [? ?]).
  simpl. repeat split.
  - intros u Hu Hl. apply unlockCoins_locked in Hl as [_ Hn]. apply Hn.
    split; [done | by apply elem_of_map_key].
  - apply lookup_delete_eq.
  - apply lookup_delete_eq.
  - apply lookup_insert_eq.
  - by apply lookup_delete_ne.
  - by apply lookup_insert_ne.
  - by apply lookup_delete_ne.
  - intros Hl. by apply unlockCoins_locked in Hl as [Hl _].
  - intros Hl. by apply unlockCoins_locked.
Qed.

End OrderStoreFacts.

(** ** Expiry sweep *)

(** The time-to-live constants of [xbridge::Transaction], in seconds; their
    header is not among the sources, so they are a parameter. *)
Record Ttl := { pendingTTL : Z; TTL : Z; deadlineTTL : Z }.

(** [time_duration::total_seconds()] of a duration in microseconds. *)
Definition total_seconds (d : Z) : Z := Z.quot d 1000000.

(** What one pass of the loop body does to an order whose lock was taken. *)
Record Swept := {
  sw_tx : TransactionDescr;
  sw_erase : bool;
  sw_stateChanged : bool
}.

Definition is_state (s : State) (t : TransactionDescr) : bool :=
  bool_decide (state t = s).

(** The body of the loop of [checkAndEraseExpiredTransactions], under the
    order's lock. *)
Definition sweep_order (c : Ttl) (currentTime : Z) (tx : TransactionDescr) : Swept :=
  let td := total_seconds (currentTime - txtime tx) in
  let tc := total_seconds (currentTime - created tx) in
  if is_state trNew tx && (pendingTTL c <? td) then
    {| sw_tx := set_state trOffline tx; sw_erase := false; sw_stateChanged := true |}
  else if is_state trPending tx && (pendingTTL c <? td) then
    {| sw_tx := set_state trExpired tx; sw_erase := false; sw_stateChanged := true |}
  else if (is_state trExpired tx || is_state trOffline tx) && (td <? pendingTTL c) then
    {| sw_tx := set_state trPending tx; sw_erase := false; sw_stateChanged := true |}
  else if (is_state trExpired tx || is_state trOffline tx) && (TTL c <? td) then
    {| sw_tx := tx; sw_erase := true; sw_stateChanged := false |}
  else if is_state trPending tx && (deadlineTTL c <? tc) then
    {| sw_tx := tx; sw_erase := true; sw_stateChanged := false |}
  else
    {| sw_tx := tx; sw_erase := false; sw_stateChanged := false |}.

(** The loop over the snapshot [txs]: [held i] tells that the try-lock on
    order [i] fails; an update through the shared pointer shows in the live
    map; [forErase] collects the ids to erase. *)
Definition sweep_loop (c : Ttl) (currentTime : Z) (held : N -> bool)
    (txs : list (N * TransactionDescr))
    (acc : gmap N TransactionDescr * gset N) : gmap N TransactionDescr * gset N :=
  fold_left
    (fun '(live, forErase) '(i, tx) =>
       if held i then (live, forErase)
       else
         let r := sweep_order c currentTime tx in
         (<[i := sw_tx r]> live,
          if sw_erase r then {[i]} ∪ forErase else forErase))
    txs acc.

(** [App::Impl::checkAndEraseExpiredTransactions] on the live map. *)
Definition checkAndEraseExpiredTransactions (c : Ttl) (currentTime : Z)
    (held : N -> bool) (live : gmap N TransactionDescr) : gmap N TransactionDescr :=
  let txs := map_to_list live in
  match txs with
  | [] => live
  | _ =>
      let '(live', forErase) := sweep_loop c currentTime held txs (live, ∅) in
      fold_left (fun m i => delete i m) (elements forErase) live'
  end.

(** The sweep seen from one id. *)
Definition sweep_result (c : Ttl) (currentTime : Z) (held : N -> bool) (i : N)
    (tx : TransactionDescr) : option TransactionDescr :=
  if held i then Some tx
  else
    let r := sweep_order c currentTime tx in
    if sw_erase r then None else Some (sw_tx r).

Section SweepFacts.

Variables (c : Ttl) (currentTime : Z) (held : N -> bool).

Lemma sweep_loop_spec txs live forErase live' forErase' :
  NoDup (map fst txs) ->
  sweep_loop c currentTime held txs (live, forErase) = (live', forErase') ->
  forall i,
    (live' !! i =
       match list_find (fun kv => kv.1 = i) txs with
       | Some (_, (_, tx)) =>
           if held i then live !! i else Some (sw_tx (sweep_order c currentTime tx))
       | None => live !! i
       end) /\
    (i ∈ forErase' <->
       i ∈ forErase \/
       exists tx, (i, tx) ∈ txs /\ held i = false /\
                  sw_erase (sweep_order c currentTime tx) = true).
Proof.
  unfold sweep_loop. revert live forErase.
  induction txs as [|[j tx] txs IH]; intros live forErase Hnd Heq i; simpl in *.
  - injection Heq as <- <-. split; [done|]. split; [by left|].
    intros [H | (tx & H & _)]; [done | by apply elem_of_nil in H].
  - apply NoDup_cons in Hnd as [Hj Hnd].
    destruct (held j) eqn:Hheld.
    + destruct (IH _ _ Hnd Heq i) as [IH1 IH2]. split.
      * rewrite IH1. case_decide as Hji; simpl in *.
        -- subst j. rewrite Hheld.
           destruct (list_find _ txs) as [[n [j' tx']]|] eqn:Hf; simpl; [|done].
           apply list_find_Some in Hf as (Hl & Hk & _). simpl in Hk. subst j'.
           exfalso. apply Hj. apply list_elem_of_fmap. exists (i, tx').
           split; [done|]. by eapply list_elem_of_lookup_2.
        -- by destruct (list_find _ txs) as [[n [j' tx']]|].
      * rewrite IH2. split.
        -- intros [H | (tx' & H & Hh & He)]; [by left|]. right. exists tx'.
           split; [by apply elem_of_cons; right | done].
        -- intros [H | (tx' & H & Hh & He)]; [by left|]. right. exists tx'.
           apply elem_of_cons in H as [[= -> ->] | H]; [congruence | done].
    + destruct (IH _ _ Hnd Heq i) as [IH1 IH2]. split.
      * rewrite IH1. case_decide as Hji; simpl in *.
        -- subst j. rewrite Hheld.
           destruct (list_find _ txs) as [[n [j' tx']]|] eqn:Hf; simpl.
           ++ apply list_find_Some in Hf as (Hl & Hk & _). simpl in Hk. subst j'.
              exfalso. apply Hj. apply list_elem_of_fmap. exists (i, tx').
              split; [done|]. by eapply list_elem_of_lookup_2.
           ++ apply lookup_insert_eq.
        -- rewrite lookup_insert_ne by done.
           by destruct (list_find _ txs) as [[n [j' tx']]|].
      * rewrite IH2. split.
        -- intros [H | (tx' & H & Hh & He)].
           ++ destruct (sw_erase (sweep_order c currentTime tx)) eqn:He; [|by left].
              apply elem_of_union in H as [H | H]; [|by left].
              apply elem_of_singleton in H. subst i. right. exists tx.
              split; [by apply elem_of_cons; left | done].
           ++ right. exists tx'. split; [by apply elem_of_cons; right | done].
        -- intros [H | (tx' & H & Hh & He)].
           ++ left. destruct (sw_erase _); [apply elem_of_union; by right | done].
           ++ apply elem_of_cons in H as [[= -> ->] | H].
              ** left. rewrite He. apply elem_of_union. left. by apply elem_of_singleton.
              ** right. by exists tx'.
Qed.

Lemma fold_delete_lookup (l : list N) (m : gmap N TransactionDescr) i :
  fold_left (fun m i => delete i m) l m !! i = if decide (i ∈ l) then None else m !! i.
Proof.
  revert m. induction l as [|j l IH]; intros m; simpl.
  - done.
  - rewrite IH. destruct (decide (i ∈ l)) as [Hl|Hl].
    + by rewrite decide_True by (apply elem_of_cons; by right).
    + destruct (decide (i = j)) as [->|Hne].
      * rewrite decide_True by (apply elem_of_cons; by left). apply lookup_delete_eq.
      * rewrite decide_False by (rewrite elem_of_cons; tauto).
        by apply lookup_delete_ne.
Qed.

(** The sweep acts on every id of the live map on its own. *)
Lemma checkAndEraseExpiredTransactions_lookup (live : gmap N TransactionDescr) i :
  checkAndEraseExpiredTransactions c currentTime held live !! i
  = live !! i ≫= sweep_result c currentTime held i.
Proof.
  unfold checkAndEraseExpiredTransactions.
  destruct (map_to_list live) as [|kv txs] eqn:Hl.
  - apply map_to_list_empty_iff in Hl. subst. by rewrite lookup_empty.
  - rewrite <- Hl.
    destruct (sweep_loop c currentTime held (map_to_list live) (live, ∅))
      as [live' forErase] eqn:Hloop.
    destruct (sweep_loop_spec _ _ _ _ _ (NoDup_fst_map_to_list live) Hloop i)
      as [H1 H2].
    rewrite fold_delete_lookup.
    destruct (live !! i) as [tx|] eqn:Hi; simpl.
    + assert (list_find (fun kv => kv.1 = i) (map_to_list live) ≫= (fun r => Some r.2.2)
              = Some tx) as Hfind.
      { destruct (list_find _ (map_to_list live)) as [[n [j tx']]|] eqn:Hf; simpl.
        - apply list_find_Some in Hf as (Hl' & Hk & _). simpl in Hk. subst j.
          apply list_elem_of_lookup_2, elem_of_map_to_list in Hl'. congruence.
        - exfalso. apply list_find_None in Hf.
          apply elem_of_map_to_list in Hi.
          rewrite Forall_forall in Hf. by apply (Hf _ Hi). }
      destruct (list_find _ (map_to_list live)) as [[n [j tx']]|]; simpl in Hfind; [|done].
      injection Hfind as ->. unfold sweep_result.
      destruct (held i) eqn:Hheld.
      * rewrite decide_False; [by rewrite H1|].
        rewrite elem_of_elements, H2. intros [H | (tx' & _ & ? & _)]; [done | congruence].
      * destruct (sw_erase (sweep_order c currentTime tx)) eqn:He.
        -- rewrite decide_True; [done|]. rewrite elem_of_elements, H2. right.
           exists tx. split; [by apply elem_of_map_to_list | done].
        -- rewrite decide_False; [done|]. rewrite elem_of_elements, H2.
           intros [H | (tx' & Hin & _ & He')]; [done|].
           apply elem_of_map_to_list in Hin. congruence.
    + assert (list_find (fun kv => kv.1 = i) (map_to_list live) = None) as Hfind.
      { apply list_find_None. rewrite Forall_forall. intros [j tx] Hin Hk.
        simpl in Hk. subst j. apply elem_of_map_to_list in Hin. congruence. }
      rewrite Hfind in H1. rewrite H1. by case_decide.
Qed.

End SweepFacts.

(** The expiry rules as five independent rules, the way a reader takes a
    list of transitions: each rule fires whenever its own condition holds. *)
Definition expiry_rules_independent (c : Ttl) : Prop :=
  forall (currentTime : Z) (held : N -> bool) (live : gmap N TransactionDescr)
         (i : N) (tx : TransactionDescr),
    live !! i = Some tx -> held i = false ->
    let td := total_seconds (currentTime - txtime tx) in
    let tc := total_seconds (currentTime - created tx) in
    let live' := checkAndEraseExpiredTransactions c currentTime held live in
    (state tx = trNew -> pendingTTL c < td ->
       live' !! i = Some (set_state trOffline tx)) /\
    (state tx = trPending -> pendingTTL c < td ->
       live' !! i = Some (set_state trExpired tx)) /\
    (state tx = trExpired \/ state tx = trOffline -> td < pendingTTL c ->
       live' !! i = Some (set_state trPending tx)) /\
    (state tx = trExpired \/ state tx = trOffline -> TTL c < td ->
       live' !! i = None) /\
    (state tx = trPending -> deadlineTTL c < tc ->
       live' !! i = None).

(** A pending order created and last relayed at time 0. *)
Definition stale_pending_order : TransactionDescr :=
  {| id := 1; state := trPending; role := "A"%char; hubAddress := [];
     sPubKey := []; created := 0; txtime := 0; fromAddr := ""; from := [];
     fromCurrency := "BTC"; fromAmount := 0; toAddr := ""; to := [];
     toCurrency := "LTC"; toAmount := 0; usedCoins := []; feeUtxos := ∅;
     rawFeeTx := ""; mPubKey := []; mPrivKey := []; excludedSnodes := ∅ |}.

Lemma is_state_true s t : is_state s t = true <-> state t = s.
Proof. unfold is_state. by rewrite bool_decide_eq_true. Qed.

Lemma is_state_false s t : is_state s t = false <-> state t <> s.
Proof. unfold is_state. by rewrite bool_decide_eq_false. Qed.

Lemma total_seconds_whole (n : Z) : total_seconds (n * 1000000 - 0) = n.
Proof. unfold total_seconds. rewrite Z.sub_0_r. by apply Z.quot_mul. Qed.

(** C5, the claim as stated fails whatever the three constants are: at a
    sweep [max pendingTTL deadlineTTL + 1] seconds after time 0, the order
    [stale_pending_order] (Pending, both ages above both limits) is marked
    Expired by the second branch and stays in the live map. *)
Lemma expiry_rules_independent_fails : ~ exists c : Ttl, expiry_rules_independent c.
Proof.
  intros [c Hc].
  set (n := Z.max (pendingTTL c) (deadlineTTL c) + 1).
  destruct (Hc (n * 1000000) (fun _ => false) {[1%N := stale_pending_order]} 1%N
              stale_pending_order) as (_ & H2 & _ & _ & H5).
  { apply lookup_singleton_eq. }
  { done. }
  simpl in H2, H5. rewrite total_seconds_whole in H2, H5.
  rewrite H5 in H2 by (done || lia).
  assert (None = Some (set_state trExpired stale_pending_order)) by (apply H2; done || lia).
  done.
Qed.

(** C5, amended. For an order whose lock the sweep takes, the rules apply
    in the order of the source: New older than pendingTTL becomes Offline;
    Pending older than pendingTTL becomes Expired; Expired or Offline
    younger than pendingTTL becomes Pending; Expired or Offline not younger
    than pendingTTL and older than TTL is erased; Pending not older than
    pendingTTL with a creation age above deadlineTTL is erased; every other
    order, every order whose lock is held, and every absent id is left as
    it is. *)
Theorem expiry_sweep_transitions (c : Ttl) (currentTime : Z) (held : N -> bool)
    (live : gmap N TransactionDescr) (i : N) :
  let live' := checkAndEraseExpiredTransactions c currentTime held live in
  (live !! i = None -> live' !! i = None) /\
  (forall tx, live !! i = Some tx -> held i = true -> live' !! i = Some tx) /\
  (forall tx, live !! i = Some tx -> held i = false ->
     let td := total_seconds (currentTime - txtime tx) in
     let tc := total_seconds (currentTime - created tx) in
     (state tx = trNew -> pendingTTL c < td ->
        live' !! i = Some (set_state trOffline tx)) /\
     (state tx = trPending -> pendingTTL c < td ->
        live' !! i = Some (set_state trExpired tx)) /\
     (state tx = trExpired \/ state tx = trOffline -> td < pendingTTL c ->
        live' !! i = Some (set_state trPending tx)) /\
     (state tx = trExpired \/ state tx = trOffline -> ~ td < pendingTTL c -> TTL c < td ->
        live' !! i = None) /\
     (state tx = trPending -> ~ pendingTTL c < td -> deadlineTTL c < tc ->
        live' !! i = None) /\
     (~ (state tx = trNew /\ pendingTTL c < td) ->
      ~ (state tx = trPending /\ (pendingTTL c < td \/ deadlineTTL c < tc)) ->
      ~ ((state tx = trExpired \/ state tx = trOffline) /\ (td < pendingTTL c \/ TTL c < td)) ->
        live' !! i = Some tx)).
Proof.
  intros live'. subst live'. rewrite checkAndEraseExpiredTransactions_lookup.
  split; [by intros ->|]. split.
  - intros tx -> Hh. simpl. unfold sweep_result. by rewrite Hh.
  - intros tx -> Hh td tc. simpl. unfold sweep_result. rewrite Hh.
    unfold sweep_order, is_state. fold td tc.
    destruct (Z.ltb_spec (pendingTTL c) td); destruct (Z.ltb_spec td (pendingTTL c));
      destruct (Z.ltb_spec (TTL c) td); destruct (Z.ltb_spec (deadlineTTL c) tc);
      try lia;
      destruct (state tx) eqn:Es; cbn;
      repeat split; intros; try done; try lia;
      try (exfalso; intuition (congruence || lia)).
Qed.

(** ** UTXO selection *)

(** A [size_t] passed where a [uint32_t] is expected. *)
Definition u32_of_size (n : nat) : N := (N.of_nat n mod 2 ^ 32)%N.

Section UtxoSelection.

(** The connector's fee functions. *)
Variables minTxFee1 minTxFee2 : N -> N -> spec_float.

(** [std::sort] with a comparator: the algorithm, and with it the order
    of elements the comparator does not separate, is the library's. *)
Variable sort : (UtxoEntry -> UtxoEntry -> bool) -> list UtxoEntry -> list UtxoEntry.

Definition amount_asc (a b : UtxoEntry) : bool := Dbl.ltb (amount a) (amount b).
Definition amount_desc (a b : UtxoEntry) : bool := Dbl.ltb (amount b) (amount a).

(** The lambda [feeAmount]. *)
Definition feeAmount (amt : spec_float) (inputs outputs : N) : spec_float :=
  Dbl.add (Dbl.add amt (minTxFee1 inputs outputs)) (minTxFee2 1 1).

(** The condition of the "ideal" input. *)
Definition ideal (addr : string) (minAmount : spec_float) (utxo : UtxoEntry) : bool :=
  Dbl.leb minAmount (amount utxo)
  && Dbl.ltb (amount utxo)
       (Dbl.add minAmount
          (Dbl.mul (Dbl.add (minTxFee1 1 3) (minTxFee2 1 1)) (Dbl.of_Z 1000)))
  && (String.eqb (address utxo) addr || String.eqb addr "").

(** The first loop of [selUtxos]: it stops at the first ideal input and
    otherwise files the input under [gt] or [lt]. *)
Fixpoint first_pass (addr : string) (minAmount : spec_float) (a : list UtxoEntry)
    (gt lt : list UtxoEntry) : option UtxoEntry * list UtxoEntry * list UtxoEntry :=
  match a with
  | [] => (None, gt, lt)
  | utxo :: a' =>
      if ideal addr minAmount utxo then (Some utxo, gt, lt)
      else if Dbl.leb minAmount (amount utxo) then
        first_pass addr minAmount a' (gt ++ [utxo]) lt
      else if Dbl.ltb (amount utxo) minAmount then
        first_pass addr minAmount a' gt (lt ++ [utxo])
      else first_pass addr minAmount a' gt lt
  end.

(** [runningAmount] for the selection [sel]: minus the fees for
    [sel.size()] inputs, plus the amounts in order. *)
Definition runningAmount (sel : list UtxoEntry) : spec_float :=
  let fee1 := minTxFee1 (u32_of_size (length sel)) 3 in
  let fee2 := minTxFee2 1 1 in
  fold_left (fun r u => Dbl.add r (amount u)) sel
    (Dbl.mul (Dbl.add fee1 fee2) (Dbl.of_Z (-1))).

(** The last loop of [selUtxos] over the sorted [lt]. *)
Fixpoint accumulate (minAmount : spec_float) (sel lt : list UtxoEntry)
    : option (list UtxoEntry) :=
  match lt with
  | [] => None
  | utxo :: lt' =>
      let sel' := sel ++ [utxo] in
      if Dbl.leb minAmount (runningAmount sel') then Some sel'
      else accumulate minAmount sel' lt'
  end.

(** The lambda [selUtxos]: the inputs [a], the output vector [o]
    (returned) and the amount. *)
Definition selUtxos (addr : string) (a o : list UtxoEntry) (amt : spec_float)
    : list UtxoEntry :=
  let minAmount := feeAmount amt 1 3 in
  match first_pass addr minAmount a [] [] with
  | (Some utxo, _, _) => o ++ [utxo]
  | (None, gt, lt) =>
      if Nat.eqb (length gt) 1 then o ++ firstn 1 gt
      else if Nat.ltb 1 (length gt) then o ++ firstn 1 (sort amount_asc gt)
      else if Nat.ltb (length lt) 2 then o
      else
        match accumulate minAmount [] (sort amount_desc lt) with
        | Some sel => o ++ sel
        | None => o
        end
  end.

(** The results of [App::selectUtxos]: the return value and the four
    reference parameters it writes. *)
Record Selection := {
  sel_ok : bool;
  outputsForUse : list UtxoEntry;
  utxoAmount : Z;
  fee1 : Z;
  fee2 : Z
}.

(** [App::selectUtxos]; the last four arguments are the values the
    reference parameters hold at the call. *)
Definition selectUtxos (addr : string) (outputs : list UtxoEntry)
    (requiredAmount coinDenomination : Z)
    (outputsForUse0 : list UtxoEntry) (utxoAmount0 fee10 fee20 : Z) : Selection :=
  let utxos := sort amount_desc outputs in
  let o := selUtxos addr utxos outputsForUse0
             (Dbl.div (Dbl.of_Z requiredAmount) (Dbl.of_Z coinDenomination)) in
  match o with
  | [] => {| sel_ok := false; outputsForUse := o; utxoAmount := utxoAmount0;
             fee1 := fee10; fee2 := fee20 |}
  | _ =>
      {| sel_ok := true;
         outputsForUse := o;
         utxoAmount :=
           fold_left
             (fun acc utxo =>
                Dbl.to_uint64
                  (Dbl.add (Dbl.of_Z acc)
                     (Dbl.mul (amount utxo) (Dbl.of_Z coinDenomination))))
             o utxoAmount0;
         fee1 := Dbl.to_uint64
                   (Dbl.mul (minTxFee1 (u32_of_size (length o)) 3)
                      (Dbl.of_Z coinDenomination));
         fee2 := Dbl.to_uint64 (Dbl.mul (minTxFee2 1 1) (Dbl.of_Z coinDenomination)) |}
  end.

(** *** The algorithm in the words of the specification *)

(** [need = A + fee1(1,3) + fee2(1,1)]. *)
Definition need (A : spec_float) : spec_float :=
  Dbl.add (Dbl.add A (minTxFee1 1 3)) (minTxFee2 1 1).

(** [u.amount ∈ [need, need + 1000·(fee1(1,3)+fee2(1,1)))], and the address
    matches when a from-address was given. *)
Definition preferred (addr : string) (A : spec_float) (u : UtxoEntry) : bool :=
  Dbl.leb (need A) (amount u)
  && Dbl.ltb (amount u)
       (Dbl.add (need A)
          (Dbl.mul (Dbl.add (minTxFee1 1 3) (minTxFee2 1 1)) (Dbl.of_Z 1000)))
  && (String.eqb addr "" || String.eqb (address u) addr).

(** The running total of a selection, net of the fees for its count. *)
Definition net_total (sel : list UtxoEntry) : spec_float :=
  fold_left (fun r u => Dbl.add r (amount u)) sel
    (Dbl.mul (Dbl.add (minTxFee1 (N.of_nat (length sel)) 3) (minTxFee2 1 1))
       (Dbl.of_Z (-1))).

(** The entries of [l] are in descending order of amount: no entry is
    followed, at any distance, by one of a greater amount. *)
Definition descending (l : list UtxoEntry) : Prop :=
  StronglySorted (fun u v => Dbl.ltb (amount u) (amount v) = false) l.

(** [u] is an entry of [l] of the smallest amount. *)
Definition smallest (u : UtxoEntry) (l : list UtxoEntry) : Prop :=
  u ∈ l /\ forall v, v ∈ l -> Dbl.ltb (amount v) (amount u) = false.

(** Steps 2 and 3 of the algorithm: [chosen] is a selection the algorithm
    allows for the candidates; the empty selection stands for FAIL. *)
Definition selects (addr : string) (candidates : list UtxoEntry) (A : spec_float)
    (chosen : list UtxoEntry) : Prop :=
  let gt := List.filter (fun u => Dbl.leb (need A) (amount u)) candidates in
  let lt := List.filter (fun u => Dbl.ltb (amount u) (need A)) candidates in
  if existsb (preferred addr A) candidates then
    exists u, chosen = [u] /\ u ∈ candidates /\ preferred addr A u = true /\
      forall v, v ∈ candidates -> preferred addr A v = true ->
                Dbl.ltb (amount u) (amount v) = false
  else
    match gt with
    | [g] => chosen = [g]
    | _ :: _ :: _ => exists u, chosen = [u] /\ smallest u gt
    | [] =>
        if Nat.ltb (length lt) 2 then chosen = []
        else
          exists sorted, sorted ≡ₚ lt /\ descending sorted /\
            chosen =
            match List.find (fun k => Dbl.leb (need A) (net_total (firstn k sorted)))
                    (seq 1 (length sorted)) with
            | Some k => firstn k sorted
            | None => []
            end
    end.

End UtxoSelection.

(** ** The order of doubles *)

(** A number that grows with the double: the sign class, then the
    exponent, then the mantissa, both negated for the negative values. *)
Definition rank (x : spec_float) : Z * Z * Z :=
  match x with
  | S754_infinity true => (-2, 0, 0)
  | S754_infinity false => (2, 0, 0)
  | S754_finite true m e => (-1, - e, - Zpos m)
  | S754_finite false m e => (1, e, Zpos m)
  | _ => (0, 0, 0)
  end.

Definition lex_lt (a b : Z * Z * Z) : Prop :=
  a.1.1 < b.1.1 \/
  (a.1.1 = b.1.1 /\ (a.1.2 < b.1.2 \/ (a.1.2 = b.1.2 /\ a.2 < b.2))).

Lemma SFltb_rank (x y : spec_float) :
  x <> S754_nan -> y <> S754_nan ->
  SFltb x y = true <-> lex_lt (rank x) (rank y).
Proof.
  intros Hx Hy. unfold SFltb, lex_lt.
  destruct x as [sx|sx| |sx mx ex], y as [sy|sy| |sy my ey]; try done;
    try destruct sx; try destruct sy; simpl; try (split; [done | lia]);
    try (split; [lia | done]).
  - destruct (Z.compare_spec ex ey) as [->|Hlt|Hgt]; simpl.
    + change (Pos.compare_cont Eq mx my) with (mx ?= my)%positive.
      destruct (Pos.compare_spec mx my); simpl; split; (done || lia).
    + split; (done || lia).
    + split; (done || lia).
  - destruct (Z.compare_spec ex ey) as [->|Hlt|Hgt]; simpl.
    + change (Pos.compare_cont Eq mx my) with (mx ?= my)%positive.
      destruct (Pos.compare_spec mx my); simpl; split; (done || lia).
    + split; (done || lia).
    + split; (done || lia).
Qed.

Lemma SFltb_false_rank (x y : spec_float) :
  x <> S754_nan -> y <> S754_nan ->
  SFltb x y = false <-> ~ lex_lt (rank x) (rank y).
Proof.
  intros Hx Hy. rewrite <- (SFltb_rank x y Hx Hy). by destruct (SFltb x y).
Qed.

(** ** The contract of [std::sort] *)

(** [cmp] is a strict weak ordering on the entries of [l]. *)
Definition strict_weak_order (cmp : UtxoEntry -> UtxoEntry -> bool)
    (l : list UtxoEntry) : Prop :=
  (forall a, a ∈ l -> cmp a a = false) /\
  (forall a b c, a ∈ l -> b ∈ l -> c ∈ l ->
     cmp a b = true -> cmp b c = true -> cmp a c = true) /\
  (forall a b c, a ∈ l -> b ∈ l -> c ∈ l ->
     cmp a b = false -> cmp b a = false -> cmp b c = false -> cmp c b = false ->
     cmp a c = false /\ cmp c a = false).

(** What [std::sort] guarantees for such a comparator: the range is
    permuted, and no element is less than the one before it. *)
Definition sorts (sort : (UtxoEntry -> UtxoEntry -> bool) -> list UtxoEntry -> list UtxoEntry)
    : Prop :=
  forall cmp l, strict_weak_order cmp l ->
    sort cmp l ≡ₚ l /\ Sorted (fun a b => cmp b a = false) (sort cmp l).

Definition no_nan (l : list UtxoEntry) : Prop :=
  Forall (fun u => amount u <> S754_nan) l.

Lemma amount_asc_strict_weak (l : list UtxoEntry) :
  no_nan l -> strict_weak_order amount_asc l.
Proof.
  intros Hl. unfold no_nan in Hl. rewrite Forall_forall in Hl.
  assert (forall a, a ∈ l -> amount a <> S754_nan) as Hn by exact Hl.
  unfold strict_weak_order, amount_asc, Dbl.ltb. split; [|split].
  - intros a Ha. apply SFltb_false_rank; [by apply Hn..|]. unfold lex_lt. lia.
  - intros a b c Ha Hb Hc. rewrite !SFltb_rank by (by apply Hn).
    unfold lex_lt. lia.
  - intros a b c Ha Hb Hc. rewrite !SFltb_false_rank by (by apply Hn).
    unfold lex_lt. lia.
Qed.

Lemma amount_desc_strict_weak (l : list UtxoEntry) :
  no_nan l -> strict_weak_order amount_desc l.
Proof.
  intros Hl. unfold no_nan in Hl. rewrite Forall_forall in Hl.
  assert (forall a, a ∈ l -> amount a <> S754_nan) as Hn by exact Hl.
  unfold strict_weak_order, amount_desc, Dbl.ltb. split; [|split].
  - intros a Ha. apply SFltb_false_rank; [by apply Hn..|]. unfold lex_lt. lia.
  - intros a b c Ha Hb Hc. rewrite !SFltb_rank by (by apply Hn).
    unfold lex_lt. lia.
  - intros a b c Ha Hb Hc. rewrite !SFltb_false_rank by (by apply Hn).
    unfold lex_lt. lia.
Qed.

(** On entries without NaN, "not less" is transitive. *)
Lemma not_less_trans (a b c : UtxoEntry) :
  amount a <> S754_nan -> amount b <> S754_nan -> amount c <> S754_nan ->
  Dbl.ltb (amount b) (amount a) = false -> Dbl.ltb (amount c) (amount b) = false ->
  Dbl.ltb (amount c) (amount a) = false.
Proof.
  intros Ha Hb Hc. unfold Dbl.ltb. rewrite !SFltb_false_rank by done.
  unfold lex_lt. lia.
Qed.

Lemma Sorted_StronglySorted_on (R : UtxoEntry -> UtxoEntry -> Prop) (l : list UtxoEntry) :
  (forall a b c, a ∈ l -> b ∈ l -> c ∈ l -> R a b -> R b c -> R a c) ->
  Sorted R l -> StronglySorted R l.
Proof.
  intros Htrans Hs. induction Hs as [|a l Hs IH Hd]; [constructor|].
  assert (StronglySorted R l) as Hss.
  { apply IH. intros x y z Hx Hy Hz. apply Htrans; by apply elem_of_cons; right. }
  constructor; [done|].
  destruct Hd as [|b l Hab]; [constructor|].
  constructor; [done|].
  apply StronglySorted_inv in Hss as [_ Hall].
  rewrite Forall_forall in Hall. apply Forall_forall. intros c Hc.
  apply (Htrans a b c); [set_solver..|done|]. by apply Hall.
Qed.

Lemma SFcompare_antisym (a b : spec_float) :
  SFcompare b a = option_map CompOpp (SFcompare a b).
Proof.
  destruct a as [sa|sa| |sa ma ea], b as [sb|sb| |sb mb eb];
    try destruct sa; try destruct sb; simpl; try reflexivity.
  - rewrite (Z.compare_antisym eb ea).
    destruct (eb ?= ea); simpl; try reflexivity.
    by rewrite (Pos.compare_cont_antisym ma mb Eq).
  - rewrite (Z.compare_antisym eb ea).
    destruct (eb ?= ea); simpl; try reflexivity.
    by rewrite (Pos.compare_cont_antisym ma mb Eq).
Qed.

(** [a >= m] and [a < m] exclude each other. *)
Lemma leb_excludes_ltb (m a : spec_float) :
  Dbl.ltb a m = true -> Dbl.leb m a = false.
Proof.
  unfold Dbl.ltb, Dbl.leb, SFltb, SFleb. rewrite (SFcompare_antisym a m).
  by destruct (SFcompare a m) as [[]|].
Qed.

Lemma filter_perm (f : UtxoEntry -> bool) (l l' : list UtxoEntry) :
  l ≡ₚ l' -> List.filter f l ≡ₚ List.filter f l'.
Proof.
  induction 1 as [|x l l' _ IH|x y l|l l' l'' _ IH1 _ IH2]; simpl.
  - done.
  - destruct (f x); [by f_equiv | done].
  - destruct (f x), (f y); try done. apply Permutation_swap.
  - by etrans.
Qed.

Lemma filter_elem (f : UtxoEntry -> bool) (l : list UtxoEntry) (u : UtxoEntry) :
  u ∈ List.filter f l <-> u ∈ l /\ f u = true.
Proof. rewrite !list_elem_of_In. apply filter_In. Qed.

Lemma find_split (f : UtxoEntry -> bool) (l : list UtxoEntry) (u : UtxoEntry) :
  List.find f l = Some u ->
  exists l1 l2, l = l1 ++ u :: l2 /\ f u = true /\ Forall (fun v => f v = false) l1.
Proof.
  induction l as [|x l IH]; [done|]. simpl. destruct (f x) eqn:Hx.
  - intros [= ->]. exists [], l. by repeat split.
  - intros Hf. destruct (IH Hf) as (l1 & l2 & -> & Hu & Hl1).
    exists (x :: l1), l2. repeat split; [done|]. by constructor.
Qed.

Lemma find_none_existsb (f : UtxoEntry -> bool) (l : list UtxoEntry) :
  List.find f l = None <-> existsb f l = false.
Proof.
  induction l as [|x l IH]; [done|]. simpl. destruct (f x); [done|]. exact IH.
Qed.

Lemma existsb_perm (f : UtxoEntry -> bool) (l l' : list UtxoEntry) :
  l ≡ₚ l' -> existsb f l = existsb f l'.
Proof.
  intros Hp. apply eq_true_iff_eq. rewrite !existsb_exists.
  split; intros (x & Hx & Hfx); exists x; split; try done;
    apply list_elem_of_In; apply list_elem_of_In in Hx;
    [by rewrite <- Hp | by rewrite Hp].
Qed.

Lemma u32_of_size_small (n : nat) :
  Z.of_nat n < 2 ^ 32 -> u32_of_size n = N.of_nat n.
Proof.
  intros Hn. unfold u32_of_size. apply N.mod_small.
  change (2 ^ 32)%N with (Z.to_N (2 ^ 32)). lia.
Qed.

Section UtxoSelectionFacts.

Variables minTxFee1 minTxFee2 : N -> N -> spec_float.
Variable sort : (UtxoEntry -> UtxoEntry -> bool) -> list UtxoEntry -> list UtxoEntry.

Abbreviation need' := (need minTxFee1 minTxFee2).
Abbreviation preferred' := (preferred minTxFee1 minTxFee2).

Lemma ideal_preferred addr A u :
  ideal minTxFee1 minTxFee2 addr (need' A) u = preferred' addr A u.
Proof. unfold ideal, preferred. f_equal. apply orb_comm. Qed.

Lemma first_pass_spec addr A a gt lt :
  match List.find (preferred' addr A) a with
  | Some u => (first_pass minTxFee1 minTxFee2 addr (need' A) a gt lt).1.1 = Some u
  | None =>
      first_pass minTxFee1 minTxFee2 addr (need' A) a gt lt =
      (None,
       gt ++ List.filter (fun u => Dbl.leb (need' A) (amount u)) a,
       lt ++ List.filter (fun u => Dbl.ltb (amount u) (need' A)) a)
  end.
Proof.
  revert gt lt. induction a as [|u a IH]; intros gt lt; simpl.
  - by rewrite !app_nil_r.
  - rewrite !ideal_preferred.
    destruct (preferred' addr A u) eqn:Hp; simpl; [done|].
    destruct (Dbl.leb (need' A) (amount u)) eqn:Hge.
    + assert (Dbl.ltb (amount u) (need' A) = false) as ->.
      { destruct (Dbl.ltb (amount u) (need' A)) eqn:Hlt; [|done].
        apply leb_excludes_ltb in Hlt. congruence. }
      specialize (IH (gt ++ [u]) lt).
      destruct (List.find _ a); [done|]. by rewrite IH, <- app_assoc.
    + destruct (Dbl.ltb (amount u) (need' A)) eqn:Hlt.
      * specialize (IH gt (lt ++ [u])).
        destruct (List.find _ a); [done|]. by rewrite IH, <- app_assoc.
      * specialize (IH gt lt). by destruct (List.find _ a).
Qed.

Lemma runningAmount_net_total sel :
  Z.of_nat (length sel) < 2 ^ 32 ->
  runningAmount minTxFee1 minTxFee2 sel = net_total minTxFee1 minTxFee2 sel.
Proof.
  intros Hn. unfold runningAmount, net_total. by rewrite u32_of_size_small.
Qed.

(** The accumulation loop returns the shortest prefix that reaches the
    threshold. *)
Lemma accumulate_spec minAmount (sorted : list UtxoEntry) (n : nat) :
  Z.of_nat (length sorted) < 2 ^ 32 ->
  (n <= length sorted)%nat ->
  accumulate minTxFee1 minTxFee2 minAmount (firstn n sorted) (skipn n sorted) =
  option_map (fun k => firstn k sorted)
    (List.find (fun k => Dbl.leb minAmount
                           (net_total minTxFee1 minTxFee2 (firstn k sorted)))
       (seq (S n) (length sorted - n))).
Proof.
  intros Hlen.
  remember (length sorted - n)%nat as r eqn:Hr. revert n Hr.
  induction r as [|r IH]; intros n Hr Hn.
  - rewrite skipn_all2 by lia. done.
  - destruct (skipn n sorted) as [|u rest] eqn:Hs.
    { apply (f_equal (@length _)) in Hs. rewrite length_skipn in Hs. simpl in Hs. lia. }
    assert (sorted !! n = Some u) as Hu.
    { rewrite <- (Nat.add_0_r n), <- lookup_drop, Hs. done. }
    assert (firstn n sorted ++ [u] = firstn (S n) sorted) as Hfirst.
    { symmetry. by apply take_S_r. }
    assert (rest = skipn (S n) sorted) as Hrest.
    { rewrite (drop_S _ _ _ Hu) in Hs. congruence. }
    cbn [accumulate seq List.find]. rewrite Hfirst, runningAmount_net_total
      by (rewrite length_take; lia).
    destruct (Dbl.leb minAmount _); [done|].
    rewrite Hrest. apply IH; lia.
Qed.

Lemma accumulate_from minAmount (sel lt r : list UtxoEntry) :
  accumulate minTxFee1 minTxFee2 minAmount sel lt = Some r ->
  forall u, u ∈ r -> u ∈ sel \/ u ∈ lt.
Proof.
  revert sel. induction lt as [|x lt IH]; intros sel; [done|]. simpl.
  destruct (Dbl.leb minAmount _).
  - intros [= <-] u Hu. apply elem_of_app in Hu as [Hu|Hu]; [by left|].
    right. apply elem_of_cons. left. by apply list_elem_of_singleton in Hu.
  - intros Hr u Hu. destruct (IH _ Hr u Hu) as [Hin|Hin].
    + apply elem_of_app in Hin as [Hin|Hin]; [by left|].
      right. apply elem_of_cons. left. by apply list_elem_of_singleton in Hin.
    + right. apply elem_of_cons. by right.
Qed.

(** With a sort that returns entries of its range only, the entries
    [selectUtxos] returns are among the outputs it is given. *)
Lemma selectUtxos_from_outputs addr outputs requiredAmount coinDenomination :
  (forall cmp l u, u ∈ sort cmp l -> u ∈ l) ->
  forall u,
    u ∈ outputsForUse (selectUtxos minTxFee1 minTxFee2 sort addr outputs
                         requiredAmount coinDenomination [] 0 0 0) ->
    u ∈ outputs.
Proof.
  intros Hsort u.
  set (A := Dbl.div (Dbl.of_Z requiredAmount) (Dbl.of_Z coinDenomination)).
  assert (outputsForUse (selectUtxos minTxFee1 minTxFee2 sort addr outputs
                           requiredAmount coinDenomination [] 0 0 0)
          = selUtxos minTxFee1 minTxFee2 sort addr (sort amount_desc outputs) [] A)
    as ->.
  { unfold selectUtxos. fold A. by destruct (selUtxos _ _ _ _ _ _ _). }
  intros Hu. apply (Hsort amount_desc). revert Hu.
  set (utxos := sort amount_desc outputs).
  unfold selUtxos. change (feeAmount minTxFee1 minTxFee2 A 1 3) with (need' A).
  pose proof (first_pass_spec addr A utxos [] []) as Hfp.
  destruct (List.find (preferred' addr A) utxos) as [v|] eqn:Hfind.
  - destruct (first_pass _ _ _ _ _ _ _) as [[[u'|] gt] lt]; simpl in Hfp; [|done].
    injection Hfp as ->. simpl. intros Hu. apply list_elem_of_singleton in Hu as ->.
    apply find_some in Hfind as [Hin _]. by apply list_elem_of_In.
  - rewrite Hfp. simpl.
    set (gt := List.filter (fun u => Dbl.leb (need' A) (amount u)) utxos).
    set (lt := List.filter (fun u => Dbl.ltb (amount u) (need' A)) utxos).
    destruct (length gt =? 1)%nat.
    { intros Hu. apply elem_of_take in Hu as (i & Hu & _).
      apply list_elem_of_lookup_2 in Hu. by apply filter_elem in Hu as [Hu _]. }
    destruct (1 <? length gt)%nat.
    { intros Hu. apply elem_of_take in Hu as (i & Hu & _).
      apply list_elem_of_lookup_2, Hsort in Hu. by apply filter_elem in Hu as [Hu _]. }
    destruct (length lt <? 2)%nat; [intros Hu; by apply elem_of_nil in Hu|].
    destruct (accumulate _ _ _ _ _) as [sel|] eqn:Hacc;
      [|intros Hu; by apply elem_of_nil in Hu].
    intros Hu. destruct (accumulate_from _ _ _ _ Hacc u Hu) as [Hin|Hin].
    + by apply elem_of_nil in Hin.
    + apply Hsort in Hin. by apply filter_elem in Hin as [Hin _].
Qed.

Hypothesis sort_sorts : sorts sort.

(** C3. With a [std::sort] that sorts, and candidates whose amounts are
    numbers, [selectUtxos] returns a selection the algorithm of the
    specification allows: with [need = amount + fee1(1,3) + fee2(1,1)], a
    single candidate in the preferred range [[need, need + 1000 *
    (fee1(1,3) + fee2(1,1)))] with a matching address when one was given
    (of the candidates in the range, one of the greatest amount); when
    there is none, the lone candidate of [gt] (amount at least [need]), a
    candidate of [gt] of the smallest amount when [gt] has several, FAIL
    when [gt] is empty and [lt] (amount below [need]) has fewer than two
    candidates, and otherwise the shortest beginning of [lt] in descending
    order of amount whose total, net of the fees for its count, reaches
    [need], FAIL when there is none.  The call returns false exactly on
    FAIL. *)
Theorem selectUtxos_follows_spec (addr : string) (outputs : list UtxoEntry)
    (requiredAmount coinDenomination : Z) :
  no_nan outputs ->
  Z.of_nat (length outputs) < 2 ^ 32 ->
  let A := Dbl.div (Dbl.of_Z requiredAmount) (Dbl.of_Z coinDenomination) in
  let r := selectUtxos minTxFee1 minTxFee2 sort addr outputs
             requiredAmount coinDenomination [] 0 0 0 in
  selects minTxFee1 minTxFee2 addr outputs A (outputsForUse r) /\
  sel_ok r = negb (Nat.eqb (length (outputsForUse r)) 0).
Proof.
  intros Hnan Hlen A r.
  assert (outputsForUse r
          = selUtxos minTxFee1 minTxFee2 sort addr (sort amount_desc outputs) [] A
          /\ sel_ok r = negb (Nat.eqb (length (outputsForUse r)) 0)) as [Hout Hok].
  { subst r. unfold selectUtxos. fold A. by destruct (selUtxos _ _ _ _ _ _ _). }
  split; [|exact Hok]. rewrite Hout. clear r Hout Hok.
  (* the candidates, sorted *)
  destruct (sort_sorts amount_desc outputs (amount_desc_strict_weak outputs Hnan))
    as [Hperm Hsorted].
  set (utxos := sort amount_desc outputs) in *.
  assert (forall u, u ∈ utxos -> amount u <> S754_nan) as Hnan'.
  { intros u Hu. rewrite Hperm in Hu. unfold no_nan in Hnan.
    rewrite Forall_forall in Hnan. by apply Hnan. }
  assert (descending utxos) as Hdesc.
  { apply Sorted_StronglySorted_on; [|exact Hsorted].
    intros a b c Ha Hb Hc. unfold amount_desc. intros Hab Hbc.
    apply (not_less_trans c b a); auto. }
  unfold selects, selUtxos.
  change (feeAmount minTxFee1 minTxFee2 A 1 3) with (need' A).
  pose proof (first_pass_spec addr A utxos [] []) as Hfp.
  rewrite <- (existsb_perm (preferred' addr A) utxos outputs Hperm).
  destruct (List.find (preferred' addr A) utxos) as [u|] eqn:Hfind.
  - (* a preferred candidate *)
    destruct (existsb (preferred' addr A) utxos) eqn:Hex.
    2: { apply find_none_existsb in Hex. congruence. }
    destruct (first_pass _ _ _ _ _ _ _) as [[[u'|] gt] lt]; simpl in Hfp; [|done].
    injection Hfp as ->. destruct (find_split _ _ _ Hfind) as (l1 & l2 & Hl & Hu & Hl1).
    exists u. split; [done|]. split; [|split; [done|]].
    + rewrite <- Hperm, Hl. apply elem_of_app. right. apply elem_of_cons. by left.
    + intros v Hv Hpv. rewrite <- Hperm, Hl in Hv.
      unfold descending in Hdesc. rewrite Hl in Hdesc.
      apply elem_of_app in Hv as [Hv|Hv].
      { rewrite Forall_forall in Hl1. specialize (Hl1 v Hv). simpl in Hl1. congruence. }
      apply elem_of_cons in Hv as [->|Hv].
      { assert (u ∈ utxos) as Hin
          by (rewrite Hl; apply elem_of_app; right; apply elem_of_cons; by left).
        destruct (amount_asc_strict_weak utxos) as (Hirr & _).
        { unfold no_nan. by apply Forall_forall. }
        by apply Hirr. }
      apply StronglySorted_app in Hdesc as (_ & _ & Hdesc).
      apply StronglySorted_inv in Hdesc as [_ Hall].
      rewrite Forall_forall in Hall. by apply Hall.
  - (* no preferred candidate *)
    apply find_none_existsb in Hfind as Hex. rewrite Hex, Hfp. simpl.
    set (gt := List.filter (fun u => Dbl.leb (need' A) (amount u)) utxos).
    set (lt := List.filter (fun u => Dbl.ltb (amount u) (need' A)) utxos).
    assert (gt ≡ₚ List.filter (fun u => Dbl.leb (need' A) (amount u)) outputs) as Hgt
      by (by apply filter_perm).
    assert (lt ≡ₚ List.filter (fun u => Dbl.ltb (amount u) (need' A)) outputs) as Hlt
      by (by apply filter_perm).
    assert (no_nan gt) as Hgn.
    { apply Forall_forall. intros u Hu. apply filter_elem in Hu as [Hu _]. by apply Hnan'. }
    assert (no_nan lt) as Hln.
    { apply Forall_forall. intros u Hu. apply filter_elem in Hu as [Hu _]. by apply Hnan'. }
    destruct (List.filter (fun u => Dbl.leb (need' A) (amount u)) outputs)
      as [|g [|g' gts]] eqn:Hgs.
    + (* gt is empty *)
      apply Permutation_nil_r in Hgt. rewrite Hgt. simpl.
      rewrite <- (Permutation_length Hlt).
      destruct (length lt <? 2)%nat; [done|].
      destruct (sort_sorts amount_desc lt (amount_desc_strict_weak lt Hln))
        as [Hp Hs].
      set (sorted := sort amount_desc lt) in *.
      assert (Z.of_nat (length sorted) < 2 ^ 32) as Hsl.
      { rewrite (Permutation_length Hp). unfold lt.
        pose proof (filter_length_le (fun u => Dbl.ltb (amount u) (need' A)) utxos).
        rewrite (Permutation_length Hperm) in H. lia. }
      exists sorted. split; [by rewrite Hp|]. split.
      * apply Sorted_StronglySorted_on; [|exact Hs].
        intros a b c Ha Hb Hc. unfold amount_desc. intros Hab Hbc.
        unfold no_nan in Hln. rewrite Forall_forall in Hln.
        rewrite Hp in Ha, Hb, Hc.
        apply (not_less_trans c b a); auto.
      * pose proof (accumulate_spec (need' A) sorted 0 Hsl) as Hacc.
        rewrite Nat.sub_0_r, take_0, drop_0 in Hacc.
        rewrite Hacc by lia. by destruct (List.find _ (seq 1 _)).
    + (* gt has one candidate *)
      apply Permutation_singleton_r in Hgt. by rewrite Hgt.
    + (* gt has several candidates *)
      assert (length gt = S (S (length gts))) as Hgl by (by rewrite Hgt).
      rewrite Hgl. simpl.
      destruct (sort_sorts amount_asc gt (amount_asc_strict_weak gt Hgn)) as [Hp Hs].
      set (sorted := sort amount_asc gt) in *.
      assert (StronglySorted (fun a b => amount_asc b a = false) sorted) as Hss.
      { apply Sorted_StronglySorted_on; [|exact Hs].
        intros a b c Ha Hb Hc. unfold amount_asc. intros Hab Hbc.
        unfold no_nan in Hgn. rewrite Forall_forall in Hgn.
        rewrite Hp in Ha, Hb, Hc.
        apply (not_less_trans a b c); auto. }
      destruct sorted as [|u rest] eqn:Hsorted'.
      { apply Permutation_length in Hp. simpl in Hp. lia. }
      exists u. split; [done|]. split.
      * rewrite <- Hgt, <- Hp. apply elem_of_cons. by left.
      * intros v Hv. rewrite <- Hgt, <- Hp in Hv.
        apply elem_of_cons in Hv as [->|Hv].
        -- destruct (amount_asc_strict_weak gt Hgn) as (Hirr & _).
           apply Hirr. rewrite <- Hp. apply elem_of_cons. by left.
        -- apply StronglySorted_inv in Hss as [_ Hall].
           rewrite Forall_forall in Hall. by apply Hall.
Qed.

End UtxoSelectionFacts.

(** ** A run of the selection *)

Module SelectRun.

(** Insertion sort, a sort that meets the contract of [std::sort]. *)
Fixpoint insert (cmp : UtxoEntry -> UtxoEntry -> bool) (x : UtxoEntry)
    (l : list UtxoEntry) : list UtxoEntry :=
  match l with
  | [] => [x]
  | y :: l' => if cmp x y then x :: l else y :: insert cmp x l'
  end.

Definition sort (cmp : UtxoEntry -> UtxoEntry -> bool) (l : list UtxoEntry)
    : list UtxoEntry :=
  fold_right (insert cmp) [] l.

Lemma insert_perm cmp x l : insert cmp x l ≡ₚ x :: l.
Proof.
  induction l as [|y l IH]; [done|]. simpl. destruct (cmp x y); [done|].
  rewrite IH. apply Permutation_swap.
Qed.

Lemma sort_perm cmp l : sort cmp l ≡ₚ l.
Proof.
  induction l as [|x l IH]; [done|]. simpl. by rewrite insert_perm, IH.
Qed.

Lemma insert_Sorted cmp x l :
  (forall y, y ∈ l -> cmp x y = true -> cmp y x = false) ->
  Sorted (fun a b => cmp b a = false) l ->
  Sorted (fun a b => cmp b a = false) (insert cmp x l).
Proof.
  intros Hasym Hs. induction Hs as [|y l Hs IH Hd]; simpl.
  - by repeat constructor.
  - destruct (cmp x y) eqn:Hxy.
    + constructor; [by constructor|]. constructor. apply Hasym; [|done].
      apply elem_of_cons. by left.
    + constructor.
      * apply IH. intros z Hz. apply Hasym. apply elem_of_cons. by right.
      * destruct Hd as [|z l Hyz]; simpl; [by constructor|].
        destruct (cmp x z); by constructor.
Qed.

Lemma sort_sorts : sorts sort.
Proof.
  intros cmp l (Hirr & Htrans & _). split; [apply sort_perm|].
  assert (forall a b, a ∈ l -> b ∈ l -> cmp a b = true -> cmp b a = false) as Hasym.
  { intros a b Ha Hb Hab. destruct (cmp b a) eqn:Hba; [|done].
    rewrite <- (Hirr a Ha). symmetry. by apply (Htrans a b a). }
  clear Hirr Htrans. induction l as [|x l IH]; simpl; [constructor|].
  apply insert_Sorted.
  - intros y Hy. rewrite sort_perm in Hy. apply Hasym; apply elem_of_cons; auto.
  - apply IH. intros a b Ha Hb. apply Hasym; apply elem_of_cons; auto.
Qed.

(** The fees of the run: 100 units for an input and 30 for an output of
    the first transaction, 200 units for the second, a million units to
    the coin. *)
Definition minTxFee1 (inputs outputs : N) : spec_float :=
  Dbl.div (Dbl.of_Z (Z.of_N (100 * inputs + 30 * outputs))) (Dbl.of_Z 1000000).

Definition minTxFee2 (inputs outputs : N) : spec_float :=
  Dbl.div (Dbl.of_Z 200) (Dbl.of_Z 1000000).

(** An output of [tenths] tenths of a coin. *)
Definition utxo (t : string) (tenths : Z) : UtxoEntry :=
  {| txId := t; vout := 0; address := "wallet";
     amount := Dbl.div (Dbl.of_Z tenths) (Dbl.of_Z 10);
     signature := []; rawAddress := [] |}.

Definition candidates : list UtxoEntry :=
  [utxo "a" 3; utxo "b" 7; utxo "c" 2; utxo "d" 5].

(** 0.9 coins, from any address: no candidate is large enough, and the two
    largest together are. *)
Definition large : Selection :=
  selectUtxos minTxFee1 minTxFee2 sort "" candidates 900000 1000000 [] 0 0 0.

(** 0.25 coins, from an address that no candidate has: three candidates
    are large enough. *)
Definition small : Selection :=
  selectUtxos minTxFee1 minTxFee2 sort "other" candidates 250000 1000000 [] 0 0 0.

Lemma candidates_no_nan : no_nan candidates.
Proof. repeat constructor; vm_compute; discriminate. Qed.

End SelectRun.

(** C3, two runs with insertion sort. *)
Lemma selectUtxos_follows_spec_witness :
  no_nan SelectRun.candidates /\
  Z.of_nat (length SelectRun.candidates) < 2 ^ 32 /\
  selects SelectRun.minTxFee1 SelectRun.minTxFee2 "" SelectRun.candidates
    (Dbl.div (Dbl.of_Z 900000) (Dbl.of_Z 1000000))
    [SelectRun.utxo "b" 7; SelectRun.utxo "d" 5] /\
  outputsForUse SelectRun.large = [SelectRun.utxo "b" 7; SelectRun.utxo "d" 5] /\
  selects SelectRun.minTxFee1 SelectRun.minTxFee2 "other" SelectRun.candidates
    (Dbl.div (Dbl.of_Z 250000) (Dbl.of_Z 1000000))
    [SelectRun.utxo "a" 3] /\
  outputsForUse SelectRun.small = [SelectRun.utxo "a" 3].
Proof.
  assert (Z.of_nat (length SelectRun.candidates) < 2 ^ 32) as Hlen
    by (vm_compute; reflexivity).
  assert (outputsForUse SelectRun.large = [SelectRun.utxo "b" 7; SelectRun.utxo "d" 5])
    as Hlarge by (vm_compute; reflexivity).
  assert (outputsForUse SelectRun.small = [SelectRun.utxo "a" 3])
    as Hsmall by (vm_compute; reflexivity).
  split; [exact SelectRun.candidates_no_nan|]. split; [exact Hlen|].
  split; [|split; [exact Hlarge|split; [|exact Hsmall]]].
  - rewrite <- Hlarge.
    apply (selectUtxos_follows_spec SelectRun.minTxFee1 SelectRun.minTxFee2
             SelectRun.sort SelectRun.sort_sorts "" SelectRun.candidates
             900000 1000000 SelectRun.candidates_no_nan Hlen).
  - rewrite <- Hsmall.
    apply (selectUtxos_follows_spec SelectRun.minTxFee1 SelectRun.minTxFee2
             SelectRun.sort SelectRun.sort_sorts "other" SelectRun.candidates
             250000 1000000 SelectRun.candidates_no_nan Hlen).
Defined.

(** ** Accepting an order *)

(** [xbridge::Error], the codes [acceptXBridgeTransaction] returns. *)
Inductive Error :=
  | SUCCESS | TRANSACTION_NOT_FOUND | BAD_REQUEST | NO_SESSION | DUST
  | INSIFFICIENT_FUNDS_DX | NO_SERVICE_NODE | INVALID_ONCHAIN_HISTORY
  | INSIFFICIENT_FUNDS | FUNDS_NOT_SIGNED | INVALID_SIGNATURE | INVALID_ADDRESS.

#[global] Instance Error_eq_dec : EqDecision Error.
Proof. solve_decision. Defined.

(** What the function uses of a [WalletConnector]: the answers of the
    wallet's RPC interface are the environment's. *)
Record WalletConnector := {
  conn_currency : string;
  conn_isDustAmount : spec_float -> bool;
  conn_minTxFee1 : N -> N -> spec_float;
  conn_minTxFee2 : N -> N -> spec_float;
  conn_getUnspent : UtxoSet -> list UtxoEntry;
  conn_signMessage : string -> string -> bool * string;
  conn_toXAddr : string -> list Z;
  conn_getBlockCount : option N;
  conn_getBlockHash : N -> option string;
  conn_newKeyPair : list Z * list Z
}.

(** The collaborators outside the sources. *)
Record AcceptEnv := {
  (** [connectorByCurrency] *)
  env_connector : string -> option WalletConnector;
  (** [TransactionDescr::COIN] *)
  env_COIN : Z;
  (** [availableBalance() < connTo->serviceNodeFee] *)
  env_balance_below_fee : WalletConnector -> bool;
  (** the service node is found in the registry, directly or after
      [Decompress] *)
  env_snode_known : list Z -> bool;
  (** the JSON payload with the (possibly truncated) order id is larger
      than [nMaxDatacarrierBytes - 3] *)
  env_info_too_large : TransactionDescr -> bool;
  (** [rpc::unspentP2PKH] *)
  env_unspentP2PKH : option (list UtxoEntry);
  (** [rpc::createFeeTransaction] on the available fee outputs: the fee
      inputs it chose and the raw transaction *)
  env_createFeeTransaction : TransactionDescr -> list UtxoEntry -> option (UtxoSet * string);
  (** [UtxoEntry::toString] *)
  env_toString : UtxoEntry -> string;
  (** [DecodeBase64]: the bytes and the invalid flag *)
  env_DecodeBase64 : string -> list Z * bool;
  (** [std::sort] *)
  env_sort : (UtxoEntry -> UtxoEntry -> bool) -> list UtxoEntry -> list UtxoEntry
}.

(** The per-input part of the "sign used coins" loop: the entry as the loop
    leaves it, and the error it ends with. *)
Definition sign_entry (env : AcceptEnv) (connFrom : WalletConnector) (entry : UtxoEntry)
    : UtxoEntry * Error :=
  let '(signed, sigtext) := conn_signMessage connFrom (address entry) (env_toString env entry) in
  let err1 := if signed then SUCCESS else FUNDS_NOT_SIGNED in
  let '(sigbytes, isInvalid) := env_DecodeBase64 env sigtext in
  let err2 := if isInvalid then FUNDS_NOT_SIGNED else err1 in
  let raw := conn_toXAddr connFrom (address entry) in
  let err3 := if Nat.eqb (length sigbytes) 65 then err2 else INVALID_SIGNATURE in
  let err4 := if Nat.eqb (length raw) 20 then err3 else INVALID_ADDRESS in
  ({| txId := txId entry; vout := vout entry; address := address entry;
      amount := amount entry; signature := sigbytes; rawAddress := raw |}, err4).

(** The loop over [outputsForUse]: the signed entries, or the first error. *)
Fixpoint sign_coins (env : AcceptEnv) (connFrom : WalletConnector)
    (entries : list UtxoEntry) : Error + list UtxoEntry :=
  match entries with
  | [] => inr []
  | entry :: rest =>
      let '(entry', err) := sign_entry env connFrom entry in
      if bool_decide (err = SUCCESS) then
        match sign_coins env connFrom rest with
        | inr rest' => inr (entry' :: rest')
        | inl e => inl e
        end
      else inl err
  end.

(** The fields the successful end of the function writes. *)
Definition set_accepted (fromA : string) (fromX : list Z) (toA : string) (toX : list Z)
    (keys : list Z * list Z) (t : TransactionDescr) : TransactionDescr :=
  {| id := id t; state := state t; role := "B"%char; hubAddress := hubAddress t;
     sPubKey := sPubKey t; created := created t; txtime := txtime t;
     fromAddr := fromA; from := fromX; fromCurrency := fromCurrency t;
     fromAmount := fromAmount t; toAddr := toA; to := toX;
     toCurrency := toCurrency t; toAmount := toAmount t;
     usedCoins := usedCoins t; feeUtxos := feeUtxos t; rawFeeTx := rawFeeTx t;
     mPubKey := keys.1; mPrivKey := keys.2;
     excludedSnodes := excludedSnodes t |}.

(** An update of the order [i] through its shared pointer. *)
Definition update_order (i : N) (f : TransactionDescr -> TransactionDescr) (a : App) : App :=
  with_transactions (alter f i (m_transactions a)) a.

(** [entries] without those the set [excluded] counts. *)
Definition remove_excluded (excluded : UtxoSet) (entries : list UtxoEntry) : list UtxoEntry :=
  List.filter (fun u => negb (set_count excluded u)) entries.

(** Modelled from the spec: [TransactionDescr::clearUsedCoins] (header
    method) empties [usedCoins]. *)
Definition clearUsedCoins (t : TransactionDescr) : TransactionDescr := set_usedCoins [] t.

(** [getBlockCount] and [getBlockHash] answer for both wallets. *)
Definition blocks_known (connFrom connTo : WalletConnector) : bool :=
  match conn_getBlockCount connFrom with
  | Some fromBlockHeight =>
      match conn_getBlockHash connFrom fromBlockHeight with
      | Some _ =>
          match conn_getBlockCount connTo with
          | Some toBlockHeight =>
              match conn_getBlockHash connTo toBlockHeight with
              | Some _ => true
              | None => false
              end
          | None => false
          end
      | None => false
      end
  | None => false
  end.

Section Accept.

Variable env : AcceptEnv.

(** The numeric value of a [State] enumerator (the header is not among
    the sources). *)
Variable state_rank : State -> Z.

(** The block of [acceptXBridgeTransaction] under [m_utxosOrderLock],
    after the fee transaction was created and [ptr->feeUtxos] set. *)
Definition accept_select_and_lock (i : N) (from : string) (priorState : State)
    (ptr : TransactionDescr) (connFrom : WalletConnector) (a : App) : Error * App :=
  (* Lock the fee utxos *)
  let a := with_locks (lockFeeUtxos (feeUtxos ptr) (m_locks a)) a in
  (* Exclude the used utxos *)
  let '(excludedUtxos, l) := getAllLockedUtxos (conn_currency connFrom) (m_locks a) in
  let a := with_locks l a in
  (* Available utxos from the from-wallet *)
  let outputs := conn_getUnspent connFrom excludedUtxos in
  let sel := selectUtxos (conn_minTxFee1 connFrom) (conn_minTxFee2 connFrom)
               (env_sort env) from outputs (fromAmount ptr) (env_COIN env) [] 0 0 0 in
  if negb (sel_ok sel) then
    let a := update_order i (set_state priorState) a in
    let a := with_locks (unlockFeeUtxos (feeUtxos ptr) (m_locks a)) a in
    (INSIFFICIENT_FUNDS, a)
  else
    match sign_coins env connFrom (outputsForUse sel) with
    | inl err =>
        let a := update_order i (set_state priorState) a in
        (* unlock fee utxos on error *)
        let a := with_locks (unlockFeeUtxos (feeUtxos ptr) (m_locks a)) a in
        (err, a)
    | inr signed =>
        let a := update_order i (set_usedCoins signed) a in
        (* lock used coins *)
        let '(ok, d) := lockCoins (conn_currency connFrom) signed
                          (m_utxosDict (m_locks a)) in
        if negb ok then
          let a := update_order i (set_state priorState) a in
          (INSIFFICIENT_FUNDS, a)
        else (SUCCESS, with_utxosDict d a)
    end.

(** [App::acceptXBridgeTransaction]. *)
Definition acceptXBridgeTransaction (i : N) (from to : string) (a : App) : Error * App :=
  match m_transactions a !! i with
  | None => (TRANSACTION_NOT_FOUND, a)
  | Some ptr0 =>
      if state_rank trAccepting <=? state_rank (state ptr0) then (BAD_REQUEST, a)
      else
        let priorState := state ptr0 in
        let a := update_order i (set_state trAccepting) a in
        let restore (e : Error) (a : App) := (e, update_order i (set_state priorState) a) in
        match env_connector env (fromCurrency ptr0), env_connector env (toCurrency ptr0) with
        | Some connFrom, Some connTo =>
            (* check dust *)
            if conn_isDustAmount connFrom
                 (Dbl.div (Dbl.of_Z (fromAmount ptr0)) (Dbl.of_Z (env_COIN env)))
            then restore DUST a
            else if conn_isDustAmount connTo
                      (Dbl.div (Dbl.of_Z (toAmount ptr0)) (Dbl.of_Z (env_COIN env)))
            then restore DUST a
            else if env_balance_below_fee env connTo then restore INSIFFICIENT_FUNDS_DX a
            (* service node pub key *)
            else if negb (Nat.eqb (length (sPubKey ptr0)) 33) then restore NO_SERVICE_NODE a
            else if negb (env_snode_known env (sPubKey ptr0)) then restore NO_SERVICE_NODE a
            (* transaction info *)
            else if env_info_too_large env ptr0 then restore INVALID_ONCHAIN_HISTORY a
            else
              (* Utxo selection *)
              match env_unspentP2PKH env with
              | None => restore INSIFFICIENT_FUNDS a
              | Some feeOutputs =>
                  let '(excludedUtxos, l) :=
                    getAllLockedUtxos (conn_currency connFrom) (m_locks a) in
                  let a := with_locks l a in
                  let feeOutputs := remove_excluded excludedUtxos feeOutputs in
                  match env_createFeeTransaction env ptr0 feeOutputs with
                  | None => restore INSIFFICIENT_FUNDS a
                  | Some (fu, raw) =>
                      let a := update_order i (set_fee fu raw) a in
                      let ptr := set_fee fu raw (set_state trAccepting ptr0) in
                      match accept_select_and_lock i from priorState ptr connFrom a with
                      | (SUCCESS, a) =>
                          (* block heights and hashes of both tokens *)
                          if blocks_known connFrom connTo then
                            (SUCCESS,
                             update_order i
                               (set_accepted from (conn_toXAddr connFrom from)
                                  to (conn_toXAddr connTo to)
                                  (conn_newKeyPair connTo)) a)
                          else
                            let ptr := default ptr (m_transactions a !! i) in
                            let a := update_order i (set_state priorState) a in
                            let a := with_utxosDict
                                       (unlockCoins (conn_currency connFrom) (usedCoins ptr)
                                          (m_utxosDict (m_locks a))) a in
                            let a := with_locks (unlockFeeUtxos (feeUtxos ptr) (m_locks a)) a in
                            let a := update_order i clearUsedCoins a in
                            (NO_SESSION, a)
                      | (err, a) => (err, a)
                      end
                  end
              end
        | _, _ => restore NO_SESSION a
        end
  end.

End Accept.

(** ** Failures of [acceptXBridgeTransaction] *)

(** Each entry of the set sits under its own key, as in a [std::set]. *)
Definition set_wf (s : UtxoSet) : Prop :=
  forall k u, s !! k = Some u -> key u = k.

(** [getUnspent] returns no output that the exclusion set it is given
    counts. *)
Definition honours_exclusions (conn : WalletConnector) : Prop :=
  forall excluded u, u ∈ conn_getUnspent conn excluded -> excluded !! key u = None.

Lemma remove_excluded_free (excluded : UtxoSet) (entries : list UtxoEntry) (u : UtxoEntry) :
  u ∈ remove_excluded excluded entries -> excluded !! key u = None.
Proof.
  unfold remove_excluded. intros Hu.
  apply list_elem_of_In, filter_In in Hu as [_ Hu]. apply negb_true_iff in Hu.
  destruct (excluded !! key u) eqn:E; [|done].
  assert (set_count excluded u = true) by (apply set_count_true; by rewrite E).
  congruence.
Qed.

Lemma values_keys (s : UtxoSet) (k : string * N) :
  set_wf s -> is_Some (s !! k) -> k ∈ map key (map snd (map_to_list s)).
Proof.
  intros Hwf [u Hu]. apply list_elem_of_fmap. exists u.
  split; [symmetry; by apply Hwf|].
  apply list_elem_of_fmap. exists (k, u). split; [done|].
  by apply elem_of_map_to_list.
Qed.

Lemma lockFeeUtxos_lookup (fu : UtxoSet) (l : Locks) (k : string * N) :
  is_Some (m_feeUtxos (lockFeeUtxos fu l) !! k)
  <-> is_Some (m_feeUtxos l !! k) \/ k ∈ map key (map snd (map_to_list fu)).
Proof. unfold lockFeeUtxos. cbn [m_feeUtxos]. apply set_insert_range_lookup. Qed.

Lemma unlockFeeUtxos_lookup (fu : UtxoSet) (l : Locks) (k : string * N) :
  is_Some (m_feeUtxos (unlockFeeUtxos fu l) !! k)
  <-> is_Some (m_feeUtxos l !! k) /\ k ∉ map key (map snd (map_to_list fu)).
Proof. unfold unlockFeeUtxos. cbn [m_feeUtxos]. apply erase_fold_lookup. Qed.

(** [getAllLockedUtxos] leaves the locks as they are, makes sure the token
    has a set, and returns every key of that set. *)
Lemma getAllLockedUtxos_spec (token : string) (l l' : Locks) (excluded : UtxoSet) :
  (forall o, m_utxosDict l !! token = Some o -> set_wf o) ->
  getAllLockedUtxos token l = (excluded, l') ->
  m_feeUtxos l' = m_feeUtxos l /\
  (forall t k, locked (m_utxosDict l') t k <-> locked (m_utxosDict l) t k) /\
  (forall t, t <> token -> m_utxosDict l' !! t = m_utxosDict l !! t) /\
  exists o, m_utxosDict l' !! token = Some o /\ set_wf o /\
            forall k, is_Some (o !! k) -> is_Some (excluded !! k).
Proof.
  intros Hwf. unfold getAllLockedUtxos, getLockedUtxos.
  destruct (m_utxosDict l !! token) as [o|] eqn:Ho; intros [= <- <-].
  - repeat split; try done. exists o. repeat split; [done | by apply Hwf |].
    intros k Hk. apply set_insert_range_lookup. right. by apply values_keys; [apply Hwf|].
  - cbn [m_utxosDict m_feeUtxos]. split; [done|]. split; [|split].
    + intros t k. unfold locked. destruct (decide (t = token)) as [->|Hne].
      * rewrite lookup_insert_eq, Ho. split.
        -- intros (o & [= <-] & Hk). rewrite lookup_empty in Hk. by destruct Hk.
        -- intros (o & ? & _). done.
      * by rewrite lookup_insert_ne.
    + intros t Hne. by rewrite lookup_insert_ne.
    + exists ∅. rewrite lookup_insert_eq. repeat split; [done|].
      intros k Hk. rewrite lookup_empty in Hk. by destruct Hk.
Qed.

Lemma sign_entry_key (env : AcceptEnv) (conn : WalletConnector) (entry : UtxoEntry) :
  key (sign_entry env conn entry).1 = key entry.
Proof.
  unfold sign_entry. destruct (conn_signMessage _ _ _) as [signed sigtext].
  by destruct (env_DecodeBase64 _ _) as [sigbytes isInvalid].
Qed.

(** Signing keeps the outpoints. *)
Lemma sign_coins_keys (env : AcceptEnv) (conn : WalletConnector)
    (entries signed : list UtxoEntry) :
  sign_coins env conn entries = inr signed -> map key signed = map key entries.
Proof.
  revert signed. induction entries as [|entry rest IH]; intros signed; simpl.
  - by intros [= <-].
  - pose proof (sign_entry_key env conn entry) as Hkey.
    destruct (sign_entry env conn entry) as [entry' err]. simpl in Hkey.
    case_bool_decide; [|done].
    destruct (sign_coins env conn rest) as [e|rest']; [done|].
    intros [= <-]. simpl. by rewrite Hkey, (IH rest').
Qed.

(** [lockCoins] accepts a list that shares no key with the token's set. *)
Lemma lockCoins_free (token : string) (utxos : list UtxoEntry)
    (d : gmap string UtxoSet) (o : UtxoSet) :
  d !! token = Some o ->
  (forall k, k ∈ map key utxos -> o !! k = None) ->
  lockCoins token utxos d = (true, <[token := set_insert_range utxos o]> d).
Proof.
  intros Ho Hfree. unfold lockCoins. rewrite Ho.
  assert (existsb (set_count o) utxos = false) as ->; [|done].
  apply not_true_is_false. rewrite existsb_set_count. intros (u & Hu & Hk).
  rewrite (Hfree (key u)) in Hk; [by destruct Hk | by apply elem_of_map_key].
Qed.

(** The lock manager keeps its sets well formed. *)
Lemma set_insert_range_wf (us : list UtxoEntry) (s : UtxoSet) :
  set_wf s -> set_wf (set_insert_range us s).
Proof.
  unfold set_insert_range. revert s. induction us as [|u us IH]; intros s Hs; [done|].
  simpl. apply IH. unfold set_insert. destruct (s !! key u) eqn:E; [done|].
  intros k v Hk. apply lookup_insert_Some in Hk as [[<- <-]|[_ Hk]]; [done | by apply Hs].
Qed.

Lemma lockCoins_wf (token : string) (utxos : list UtxoEntry) (d : gmap string UtxoSet) :
  (forall t o, d !! t = Some o -> set_wf o) ->
  forall t o, (lockCoins token utxos d).2 !! t = Some o -> set_wf o.
Proof.
  intros Hd t o. unfold lockCoins. destruct (d !! token) as [o0|] eqn:Ho.
  - destruct (existsb (set_count o0) utxos); simpl; [apply Hd|].
    intros Ht. apply lookup_insert_Some in Ht as [[_ <-]|[_ Ht]]; [|by eapply Hd].
    apply set_insert_range_wf. by eapply Hd.
  - simpl. intros Ht. apply lookup_insert_Some in Ht as [[_ <-]|[_ Ht]]; [|by eapply Hd].
    apply set_insert_range_wf. intros k v Hk. by rewrite lookup_empty in Hk.
Qed.

Lemma unlockCoins_wf (token : string) (utxos : list UtxoEntry) (d : gmap string UtxoSet) :
  (forall t o, d !! t = Some o -> set_wf o) ->
  forall t o, unlockCoins token utxos d !! t = Some o -> set_wf o.
Proof.
  intros Hd t o. unfold unlockCoins. destruct (d !! token) as [o0|] eqn:Ho; [|apply Hd].
  intros Ht. apply lookup_insert_Some in Ht as [[_ <-]|[_ Ht]]; [|by eapply Hd].
  assert (set_wf o0) as Hwf by (by eapply Hd). clear Ho. revert o0 Hwf.
  induction utxos as [|u us IH]; intros o0 Hwf; [done|].
  simpl. apply IH. destruct (set_count o0 u); [|done].
  intros k v Hk. unfold set_erase in Hk. apply lookup_delete_Some in Hk as [_ Hk].
  by apply Hwf.
Qed.

Lemma lookup_update_order (i : N) (f : TransactionDescr -> TransactionDescr) (a : App) :
  m_transactions (update_order i f a) !! i = f <$> (m_transactions a !! i).
Proof. unfold update_order. cbn [m_transactions with_transactions]. apply lookup_alter_eq. Qed.

Section AcceptFacts.

Variable env : AcceptEnv.
Variable state_rank : State -> Z.

(** [std::sort] rearranges the range it is given. *)
Hypothesis sort_permutes : forall cmp l, env_sort env cmp l ≡ₚ l.

(** The selection block on a store whose order [i] is [ptr]: a failure
    leaves the order in [priorState] and no lock that was not there before;
    a success has locked the fee inputs and the signed coins, which are the
    order's [usedCoins].  The refusal branch of [lockCoins], the one
    failure branch of the block without [unlockFeeUtxos], is not taken: the
    coins come from [getUnspent], and the exclusion set it was given holds
    the set [lockCoins] compares them with. *)
Lemma accept_select_and_lock_spec (i : N) (from : string) (priorState : State)
    (ptr : TransactionDescr) (connFrom : WalletConnector) (a a' : App) (e : Error) :
  honours_exclusions connFrom ->
  (forall o, m_utxosDict (m_locks a) !! conn_currency connFrom = Some o -> set_wf o) ->
  m_transactions a !! i = Some ptr ->
  accept_select_and_lock env i from priorState ptr connFrom a = (e, a') ->
  (e <> SUCCESS /\
   state <$> (m_transactions a' !! i) = Some priorState /\
   (forall k, is_Some (m_feeUtxos (m_locks a') !! k) -> is_Some (m_feeUtxos (m_locks a) !! k)) /\
   (forall t k, locked (m_utxosDict (m_locks a')) t k -> locked (m_utxosDict (m_locks a)) t k))
  \/ (e = SUCCESS /\ exists signed,
        m_transactions a' !! i = Some (set_usedCoins signed ptr) /\
        (forall k, is_Some (m_feeUtxos (m_locks a') !! k) ->
           is_Some (m_feeUtxos (m_locks a) !! k)
           \/ k ∈ map key (map snd (map_to_list (feeUtxos ptr)))) /\
        (forall t k, locked (m_utxosDict (m_locks a')) t k ->
           locked (m_utxosDict (m_locks a)) t k
           \/ (t = conn_currency connFrom /\ k ∈ map key signed))).
Proof.
  intros Hhon Hwf Hptr. unfold accept_select_and_lock.
  destruct (getAllLockedUtxos _ _) as [excludedUtxos l] eqn:Hall.
  apply getAllLockedUtxos_spec in Hall as (Hfee & Hlk & _ & o & Ho & Hwfo & Hex);
    [|exact Hwf].
  cbn [m_locks with_locks m_feeUtxos m_utxosDict lockFeeUtxos] in Hfee, Hlk.
  assert (Hfees : forall k, is_Some (m_feeUtxos l !! k) ->
            is_Some (m_feeUtxos (m_locks a) !! k)
            \/ k ∈ map key (map snd (map_to_list (feeUtxos ptr)))).
  { intros k Hk. rewrite Hfee in Hk. by apply set_insert_range_lookup in Hk. }
  assert (Hrestored : forall (l0 : Locks) (b : App),
            m_transactions b !! i = Some ptr ->
            state <$> (m_transactions
                         (with_locks l0 (update_order i (set_state priorState) b)) !! i)
            = Some priorState).
  { intros l0 b Hb. cbn [m_transactions with_locks].
    by rewrite lookup_update_order, Hb. }
  assert (Hunlocked : forall k,
            is_Some (m_feeUtxos (unlockFeeUtxos (feeUtxos ptr) l) !! k) ->
            is_Some (m_feeUtxos (m_locks a) !! k)).
  { intros k Hk. apply unlockFeeUtxos_lookup in Hk as [Hk Hn].
    by destruct (Hfees k Hk). }
  set (outputs := conn_getUnspent connFrom excludedUtxos).
  set (sel := selectUtxos _ _ _ _ _ _ _ _ _ _ _).
  destruct (negb (sel_ok sel)).
  { intros [= <- <-]. left. split; [done|]. split; [by apply Hrestored|].
    split; [exact Hunlocked | intros t k Hk; by apply Hlk]. }
  destruct (sign_coins env connFrom (outputsForUse sel)) as [err|signed] eqn:Hsign.
  { intros [= <- <-]. left. split.
    - intros ->. clear -Hsign. revert Hsign.
      generalize (outputsForUse sel). intros entries.
      induction entries as [|entry rest IH]; simpl; [done|].
      destruct (sign_entry env connFrom entry) as [entry' err].
      case_bool_decide as Herr; [|by intros [= ->]].
      destruct (sign_coins env connFrom rest); [exact IH | done].
    - split; [by apply Hrestored|].
      split; [exact Hunlocked | intros t k Hk; by apply Hlk]. }
  cbn [m_locks with_locks update_order with_transactions m_utxosDict].
  rewrite (lockCoins_free _ _ _ o Ho).
  2:{ intros k Hk. rewrite (sign_coins_keys _ _ _ _ Hsign) in Hk.
      apply list_elem_of_fmap in Hk as (u & -> & Hu).
      assert (u ∈ outputs) as Hout.
      { apply (selectUtxos_from_outputs (conn_minTxFee1 connFrom) (conn_minTxFee2 connFrom)
                 (env_sort env) from outputs (fromAmount ptr) (env_COIN env)); [|exact Hu].
        intros cmp l0 v Hv. by rewrite <- (sort_permutes cmp l0). }
      apply Hhon in Hout. destruct (o !! key u) eqn:E; [|done].
      assert (is_Some (excludedUtxos !! key u)) as Hs by (apply Hex; by rewrite E).
      rewrite Hout in Hs. by destruct Hs. }
  cbn [negb]. intros [= <- <-]. right. split; [done|]. exists signed.
  change (m_transactions (with_utxosDict ?d ?b)) with (m_transactions b).
  change (m_locks (with_utxosDict ?d ?b))
    with {| m_utxosDict := d; m_feeUtxos := m_feeUtxos (m_locks b) |}.
  cbn [m_utxosDict m_feeUtxos].
  split; [rewrite lookup_update_order; cbn [m_transactions with_locks]; by rewrite Hptr|].
  split; [exact Hfees|].
  intros t k (o' & Ho' & Hk). destruct (decide (t = conn_currency connFrom)) as [->|Hne].
  - rewrite lookup_insert_eq in Ho'. injection Ho' as <-.
    apply set_insert_range_lookup in Hk as [Hk|Hk]; [left | by right].
    apply Hlk. by exists o.
  - rewrite lookup_insert_ne in Ho' by done. left. apply Hlk. by exists o'.
Qed.

(** C1. With wallets whose [getUnspent] honours the exclusion set, a
    [std::sort] that rearranges its range and lock sets that hold every
    entry under its own key, a call that fails after the order's state was
    advanced to Accepting leaves the order in the state it had before the
    call, and leaves no fee lock and no order lock that was not there
    before the call: whatever the call locked is released before the error
    is returned. *)
Theorem acceptXBridgeTransaction_failure_releases (i : N) (from to : string)
    (a a' : App) (ptr0 : TransactionDescr) (e : Error) :
  (forall cur conn, env_connector env cur = Some conn -> honours_exclusions conn) ->
  (forall t o, m_utxosDict (m_locks a) !! t = Some o -> set_wf o) ->
  m_transactions a !! i = Some ptr0 ->
  state_rank (state ptr0) < state_rank trAccepting ->
  acceptXBridgeTransaction env state_rank i from to a = (e, a') ->
  e <> SUCCESS ->
  state <$> (m_transactions a' !! i) = Some (state ptr0) /\
  (forall k, is_Some (m_feeUtxos (m_locks a') !! k) ->
             is_Some (m_feeUtxos (m_locks a) !! k)) /\
  (forall t k, locked (m_utxosDict (m_locks a')) t k ->
               locked (m_utxosDict (m_locks a)) t k).
Proof.
  intros Hhon Hwf Hptr0 Hrank. unfold acceptXBridgeTransaction. rewrite Hptr0.
  assert ((state_rank trAccepting <=? state_rank (state ptr0)) = false) as ->
    by (apply Z.leb_gt; lia).
  set (a1 := update_order i (set_state trAccepting) a).
  assert (Ha1 : m_transactions a1 !! i = Some (set_state trAccepting ptr0)).
  { unfold a1. by rewrite lookup_update_order, Hptr0. }
  assert (Hrestore : forall (l0 : Locks) (f : TransactionDescr -> TransactionDescr),
            state <$> (m_transactions
                         (update_order i (set_state (state ptr0))
                            (update_order i f (with_locks l0 a1))) !! i)
            = Some (state ptr0)).
  { intros l0 f. rewrite !lookup_update_order. cbn [m_transactions with_locks].
    by rewrite Ha1. }
  assert (Hsame : forall e0 b,
            state <$> (m_transactions b !! i) = Some (state ptr0) ->
            m_locks b = m_locks a ->
            (e0, b) = (e, a') -> e <> SUCCESS ->
            state <$> (m_transactions a' !! i) = Some (state ptr0) /\
            (forall k, is_Some (m_feeUtxos (m_locks a') !! k) ->
                       is_Some (m_feeUtxos (m_locks a) !! k)) /\
            (forall t k, locked (m_utxosDict (m_locks a')) t k ->
                         locked (m_utxosDict (m_locks a)) t k)).
  { intros e0 b Hst Hl [= <- <-] _. rewrite Hl. done. }
  assert (Hplain : state <$> (m_transactions (update_order i (set_state (state ptr0)) a1) !! i)
                   = Some (state ptr0)).
  { by rewrite lookup_update_order, Ha1. }
  destruct (env_connector env (fromCurrency ptr0)) as [connFrom|] eqn:HcF;
    [|by apply Hsame].
  destruct (env_connector env (toCurrency ptr0)) as [connTo|] eqn:HcT;
    [|by apply Hsame].
  destruct (conn_isDustAmount connFrom _); [by apply Hsame|].
  destruct (conn_isDustAmount connTo _); [by apply Hsame|].
  destruct (env_balance_below_fee env connTo); [by apply Hsame|].
  destruct (negb (length (sPubKey ptr0) =? 33)%nat); [by apply Hsame|].
  destruct (negb (env_snode_known env (sPubKey ptr0))); [by apply Hsame|].
  destruct (env_info_too_large env ptr0); [by apply Hsame|].
  destruct (env_unspentP2PKH env) as [feeOutputs|]; [|by apply Hsame].
  destruct (getAllLockedUtxos _ _) as [excludedUtxos l] eqn:Hall.
  apply getAllLockedUtxos_spec in Hall as (Hfee & Hlk & Hother & o & Ho & Hwfo & _);
    [|apply Hwf].
  change (m_locks a1) with (m_locks a) in Hfee, Hlk, Hother.
  assert (Hlocks : forall (b : App) (e0 : Error),
            m_locks b = l ->
            state <$> (m_transactions b !! i) = Some (state ptr0) ->
            (e0, b) = (e, a') -> e <> SUCCESS ->
            state <$> (m_transactions a' !! i) = Some (state ptr0) /\
            (forall k, is_Some (m_feeUtxos (m_locks a') !! k) ->
                       is_Some (m_feeUtxos (m_locks a) !! k)) /\
            (forall t k, locked (m_utxosDict (m_locks a')) t k ->
                         locked (m_utxosDict (m_locks a)) t k)).
  { intros b e0 Hl Hst [= <- <-] _. rewrite Hl, Hfee. split; [done|].
    split; [done | intros t k; by apply Hlk]. }
  destruct (env_createFeeTransaction env ptr0 _) as [[fu raw]|].
  2:{ apply Hlocks; [done|]. rewrite lookup_update_order. cbn [m_transactions with_locks].
      by rewrite Ha1. }
  set (ptr := set_fee fu raw (set_state trAccepting ptr0)).
  set (a2 := update_order i (set_fee fu raw) (with_locks l a1)).
  assert (Ha2 : m_transactions a2 !! i = Some ptr).
  { unfold a2. rewrite lookup_update_order. cbn [m_transactions with_locks].
    by rewrite Ha1. }
  destruct (accept_select_and_lock env i from (state ptr0) ptr connFrom a2)
    as [e1 a3] eqn:Hblock.
  apply accept_select_and_lock_spec in Hblock; [|by eapply Hhon| |exact Ha2].
  2:{ intros o0 Ho0. change (m_locks a2) with l in Ho0. rewrite Ho in Ho0.
      by injection Ho0 as <-. }
  change (m_locks a2) with l in Hblock.
  destruct Hblock as [(He1 & Hst & Hf & Hd) | (-> & signed & Ha3 & Hf & Hd)].
  - assert ((e1, a3) = (e, a') ->
            e <> SUCCESS ->
            state <$> (m_transactions a' !! i) = Some (state ptr0) /\
            (forall k, is_Some (m_feeUtxos (m_locks a') !! k) ->
                       is_Some (m_feeUtxos (m_locks a) !! k)) /\
            (forall t k, locked (m_utxosDict (m_locks a')) t k ->
                         locked (m_utxosDict (m_locks a)) t k)) as Hend.
    { intros [= <- <-] _. split; [done|]. split.
      - intros k Hk. rewrite <- Hfee. by apply Hf.
      - intros t k Hk. by apply Hlk, Hd. }
    by destruct e1.
  - destruct (blocks_known connFrom connTo); [by intros [= <- _] He|].
    intros [= <- <-] _. rewrite Ha3. cbn [default].
    split.
    { rewrite lookup_update_order.
      cbn [m_transactions with_locks with_utxosDict].
      by rewrite lookup_update_order, Ha3. }
    cbn [m_locks update_order with_transactions with_locks with_utxosDict
         m_feeUtxos m_utxosDict unlockFeeUtxos usedCoins feeUtxos set_usedCoins].
    split.
    + intros k Hk. apply erase_fold_lookup in Hk as [Hk Hn].
      apply Hf in Hk as [Hk|Hk]; [by rewrite <- Hfee | done].
    + intros t k Hk. apply unlockCoins_locked in Hk as [Hk Hn].
      apply Hd in Hk as [Hk|Hk]; [by apply Hlk | by destruct Hn].
Qed.

End AcceptFacts.

(** ** A run of [acceptXBridgeTransaction] that fails after its locks were taken *)

Module AcceptRun.

(** Ranks in the order of the state list. *)
Definition state_rank (s : State) : Z :=
  match s with
  | trNew => 0 | trPending => 1 | trAccepting => 2 | trHold => 3
  | trInitializedWait => 4 | trInitialized => 5 | trCreatedWait => 6
  | trCreated => 7 | trSignedWait => 8 | trSigned => 9 | trCommittedWait => 10
  | trCommitted => 11 | trFinished => 12 | trCancelled => 13 | trRolledBack => 14
  | trOffline => 15 | trExpired => 16 | trInvalid => 17 | trDroppedByUser => 18
  end.

(** A BTC output of 2 coins that another order has locked. *)
Definition coin : UtxoEntry :=
  {| txId := "aa"; vout := 0; address := "addr1"; amount := Dbl.of_Z 2;
     signature := []; rawAddress := [] |}.

(** A BTC output of 3 coins that no order has locked. *)
Definition spare : UtxoEntry :=
  {| txId := "bb"; vout := 1; address := "addr1"; amount := Dbl.of_Z 3;
     signature := []; rawAddress := [] |}.

(** A BLOCK output for the service node fee. *)
Definition fee_coin : UtxoEntry :=
  {| txId := "ff"; vout := 1; address := "blockaddr"; amount := Dbl.of_Z 1;
     signature := []; rawAddress := [] |}.

(** A wallet that holds [coin] and [spare]; its [getUnspent] leaves out the
    outputs of the exclusion set. [blocks] is the answer of
    [getBlockCount]. *)
Definition connector (cur : string) (blocks : option N) : WalletConnector :=
  {| conn_currency := cur;
     conn_isDustAmount := fun _ => false;
     conn_minTxFee1 := fun _ _ => Dbl.div (Dbl.of_Z 1) (Dbl.of_Z 10000);
     conn_minTxFee2 := fun _ _ => Dbl.div (Dbl.of_Z 1) (Dbl.of_Z 10000);
     conn_getUnspent := fun excluded => remove_excluded excluded [coin; spare];
     conn_signMessage := fun _ _ => (true, "c2ln");
     conn_toXAddr := fun _ => repeat 0 20;
     conn_getBlockCount := blocks;
     conn_getBlockHash := fun _ => Some "00";
     conn_newKeyPair := (repeat 2 33, repeat 1 32) |}.

(** The BTC wallet answers every request; the LTC wallet answers
    [getBlockCount] as [ltc_blocks] says. *)
Definition env (ltc_blocks : option N) : AcceptEnv :=
  {| env_connector := fun cur =>
       if String.eqb cur "BTC" then Some (connector "BTC" (Some 100%N))
       else if String.eqb cur "LTC" then Some (connector "LTC" ltc_blocks)
       else None;
     env_COIN := 1000000;
     env_balance_below_fee := fun _ => false;
     env_snode_known := fun _ => true;
     env_info_too_large := fun _ => false;
     env_unspentP2PKH := Some [fee_coin];
     env_createFeeTransaction := fun _ avail =>
       match avail with
       | u :: _ => Some ({[key u := u]}, "rawfeetx")
       | [] => None
       end;
     env_toString := fun u => txId u;
     env_DecodeBase64 := fun _ => (repeat 0 65, false);
     env_sort := SelectRun.sort |}.

(** A new order selling 1 BTC for LTC, with a 33-byte service node key. *)
Definition order : TransactionDescr :=
  {| id := 7; state := trNew; role := "A"%char; hubAddress := repeat 0 20;
     sPubKey := repeat 2 33; created := 0; txtime := 0; fromAddr := "";
     from := []; fromCurrency := "BTC"; fromAmount := 1000000; toAddr := "";
     to := []; toCurrency := "LTC"; toAmount := 5000000; usedCoins := [];
     feeUtxos := ∅; rawFeeTx := ""; mPubKey := []; mPrivKey := [];
     excludedSnodes := ∅ |}.

(** The order is live, [coin] is locked for BTC, no fee output is locked. *)
Definition app : App :=
  {| m_transactions := {[7%N := order]};
     m_historicTransactions := ∅;
     m_pendingPackets := ∅;
     m_locks := {| m_utxosDict := {["BTC" := {[key coin := coin]}]};
                   m_feeUtxos := ∅ |} |}.

(** The call with an LTC wallet that answers: the order is accepted. *)
Definition accepted : Error * App :=
  acceptXBridgeTransaction (env (Some 200%N)) state_rank 7 "addr1" "addr2" app.

(** The call with an LTC wallet that does not answer [getBlockCount]. *)
Definition result : Error * App :=
  acceptXBridgeTransaction (env None) state_rank 7 "addr1" "addr2" app.

Lemma wallets_honour ltc_blocks cur conn :
  env_connector (env ltc_blocks) cur = Some conn -> honours_exclusions conn.
Proof.
  cbn [env_connector env].
  destruct (String.eqb cur "BTC"); [|destruct (String.eqb cur "LTC")];
    intros Hconn; [| |discriminate Hconn];
    injection Hconn as <-; intros excluded u Hu;
    exact (remove_excluded_free _ _ _ Hu).
Qed.

Lemma app_sets : forall t o, m_utxosDict (m_locks app) !! t = Some o -> set_wf o.
Proof.
  intros t o Ho. cbn [app m_locks m_utxosDict] in Ho.
  apply lookup_singleton_Some in Ho as [_ <-].
  intros k u Hk. by apply lookup_singleton_Some in Hk as [<- <-].
Qed.

(** The accepted order holds the lock of [spare] and of the fee output. *)
Lemma accepted_locks :
  accepted.1 = SUCCESS /\
  ((fun t => map key (usedCoins t)) <$> (m_transactions accepted.2 !! 7%N))
    = Some [key spare] /\
  locked (m_utxosDict (m_locks accepted.2)) "BTC" (key spare) /\
  m_feeUtxos (m_locks accepted.2) !! key fee_coin = Some fee_coin.
Proof.
  split; [by vm_compute|]. split; [by vm_compute|]. split; [|by vm_compute].
  exists (default ∅ (m_utxosDict (m_locks accepted.2) !! "BTC")).
  split; [vm_compute; reflexivity|]. vm_compute. eexists. reflexivity.
Qed.

End AcceptRun.

(** C1, a run: the order is selected for, signed and locked, the LTC
    wallet does not answer [getBlockCount], and the call ends with
    NO_SESSION, the order in state New and no lock that was not there
    before the call. *)
Lemma acceptXBridgeTransaction_failure_releases_witness :
  AcceptRun.result.1 = NO_SESSION /\
  state <$> (m_transactions AcceptRun.result.2 !! 7%N) = Some trNew /\
  (forall k, is_Some (m_feeUtxos (m_locks AcceptRun.result.2) !! k) ->
             is_Some (m_feeUtxos (m_locks AcceptRun.app) !! k)) /\
  (forall t k, locked (m_utxosDict (m_locks AcceptRun.result.2)) t k ->
               locked (m_utxosDict (m_locks AcceptRun.app)) t k).
Proof.
  split; [vm_compute; reflexivity|].
  apply (acceptXBridgeTransaction_failure_releases (AcceptRun.env None)
           AcceptRun.state_rank SelectRun.sort_perm 7 "addr1" "addr2"
           AcceptRun.app AcceptRun.result.2 AcceptRun.order NO_SESSION).
  - apply AcceptRun.wallets_honour.
  - apply AcceptRun.app_sets.
  - vm_compute; reflexivity.
  - vm_compute; reflexivity.
  - vm_compute; reflexivity.
  - intros He; discriminate He.
Defined.

(** ** Service nodes *)

(** What the sources read of an [sn::ServiceNode]. *)
Record ServiceNode := {
  getSnodePubKey : CPubKey;
  getXBridgeVersion : N;
  running : bool;
  serviceList : list string
}.

(** The registry [sn::ServiceNodeMgr]: the nodes [list()] enumerates, the
    lookup [getSn] and, for the retry, [CPubKey::Decompress] ([None] when
    it fails). *)
Record ServiceNodeMgr := {
  sn_list : list ServiceNode;
  getSn : CPubKey -> option ServiceNode;
  Decompress : CPubKey -> option CPubKey
}.

(** The entry is found by [getSn], with the key as it is or decompressed. *)
Definition resolves (reg : ServiceNodeMgr) (k : CPubKey) : bool :=
  match getSn reg k with
  | Some _ => true
  | None =>
      match Decompress reg k with
      | Some k' => bool_decide (is_Some (getSn reg k'))
      | None => false
      end
  end.

(** The loop over [requested_services] (in the order of the set): the key
    is pushed when the counter reaches zero, and the loop stops at the
    first service the wallet does not list. *)
Fixpoint service_loop (wallet_services : gset string) (key : CPubKey)
    (requested : list string) (searchCounter : nat) (nodes : list CPubKey)
    : list CPubKey :=
  match requested with
  | [] => nodes
  | serv :: rest =>
      if bool_decide (serv ∈ wallet_services) then
        let searchCounter := pred searchCounter in
        let nodes := if Nat.eqb searchCounter 0 then nodes ++ [key] else nodes in
        service_loop wallet_services key rest searchCounter nodes
      else nodes
  end.

(** The loop over the registry in [findShuffledNodesWithService]. *)
Fixpoint collect_nodes (reg : ServiceNodeMgr) (requested_services : gset string)
    (version : N) (notIn : gset CPubKey) (snodes : list ServiceNode)
    (nodes : list CPubKey) : list CPubKey :=
  match snodes with
  | [] => nodes
  | x :: rest =>
      if negb (N.eqb (getXBridgeVersion x) version)
         || bool_decide (getSnodePubKey x ∈ notIn)
         || negb (running x)
      then collect_nodes reg requested_services version notIn rest nodes
      else if negb (resolves reg (getSnodePubKey x))
      then collect_nodes reg requested_services version notIn rest nodes
      else
        let wallet_services : gset string := list_to_set (serviceList x) in
        let nodes := service_loop wallet_services (getSnodePubKey x)
                       (elements requested_services) (size requested_services) nodes in
        collect_nodes reg requested_services version notIn rest nodes
  end.

(** Modelled from the spec: [ServiceNode::hasService] (outside the
    sources): the node advertises the service. *)
Definition hasService (x : ServiceNode) (service : string) : bool :=
  bool_decide (service ∈ serviceList x).

(** [App::Impl::hasNodeService]. *)
Definition hasNodeService (reg : ServiceNodeMgr) (nodePubKey : CPubKey)
    (service : string) : bool :=
  match getSn reg nodePubKey with
  | None => false
  | Some snode => hasService snode service
  end.

(** The announcement [sendPendingTransaction] hands to the transport: the
    hub address it is sent to and the order whose fields fill the
    [xbcTransaction] packet. *)
Record Broadcast := { bc_hub : list Z; bc_order : TransactionDescr }.

(** [App::Impl::sendPendingTransaction]: nothing is sent for an order
    without hub address or without raw addresses. *)
Definition sendPendingTransaction (ptr : TransactionDescr) : option Broadcast :=
  if Nat.eqb (length (hubAddress ptr)) 0 then None
  else if Nat.eqb (length (from ptr)) 0 || Nat.eqb (length (to ptr)) 0 then None
  else Some {| bc_hub := hubAddress ptr; bc_order := ptr |}.

(** The order in which [std::map<uint256, ...>] is walked. *)
Definition id_le (a b : N * TransactionDescr) : Prop := (a.1 <= b.1)%N.

#[global] Instance id_le_dec : RelDecision id_le.
Proof. intros a b. unfold id_le. apply _. Defined.

Section Selector.

(** The state of the function-local [static std::default_random_engine]
    and [std::shuffle] on it: the library's. *)
Variable Engine : Type.
Variable shuffle : list CPubKey -> Engine -> list CPubKey * Engine.

(** [App::Impl::findShuffledNodesWithService]: the engine is static, so
    the call starts from the state the previous call left. *)
Definition findShuffledNodesWithService (reg : ServiceNodeMgr)
    (requested_services : gset string) (version : N) (notIn : gset CPubKey)
    (rng : Engine) : list CPubKey * Engine :=
  shuffle (collect_nodes reg requested_services version notIn (sn_list reg) []) rng.

(** [App::findNodeWithService]. *)
Definition findNodeWithService (reg : ServiceNodeMgr) (version : N)
    (services : gset string) (notIn : gset CPubKey) (rng : Engine)
    : option CPubKey * Engine :=
  let '(nodes, rng) := findShuffledNodesWithService reg services version notIn rng in
  match nodes with
  | [] => (None, rng)
  | node :: _ => (Some node, rng)
  end.

(** [CPubKey::GetID], the 20-byte key id. *)
Variable GetID : CPubKey -> list Z.

(** [TransactionDescr::isLocal], a header method. *)
Variable isLocal : TransactionDescr -> bool.

(** Both branches of the relay pass pick a node the same way: exclude the
    old node, look for another one, and on success record the exclusion
    and assign the new node. *)
Definition reselect (reg : ServiceNodeMgr) (version : N) (order : TransactionDescr)
    (rng : Engine) : TransactionDescr * Engine :=
  let oldsnode := sPubKey order in
  let currencies : gset string := {[fromCurrency order; toCurrency order]} in
  let notIn := {[oldsnode]} ∪ excludedSnodes order in
  match findNodeWithService reg version currencies notIn rng with
  | (None, rng) => (order, rng)
  | (Some snode, rng) =>
      (assignServicenode snode (GetID snode) (excludeNode oldsnode order), rng)
  end.

(** The body of the loop of [checkAndRelayPendingOrders] for one order:
    the order as the body leaves it, what it sends, and the engine. *)
Definition relay_order (reg : ServiceNodeMgr) (version : N) (currentTime : Z)
    (order : TransactionDescr) (rng : Engine)
    : TransactionDescr * option Broadcast * Engine :=
  if negb (isLocal order) then (order, None, rng)
  else
    let age := total_seconds (currentTime - txtime order) in
    let pendingOrderShouldRebroadcast := 240 <=? age in
    let newOrderShouldRebroadcast := 15 <=? age in
    if newOrderShouldRebroadcast && is_state trNew order then
      let '(order, rng) := reselect reg version order rng in
      let order := updateTimestamp currentTime order in
      (order, sendPendingTransaction order, rng)
    else if pendingOrderShouldRebroadcast && is_state trPending order then
      let order := updateTimestamp currentTime order in
      let oldsnode := sPubKey order in
      let '(order, rng) :=
        if negb (hasNodeService reg oldsnode (fromCurrency order))
           || negb (hasNodeService reg oldsnode (toCurrency order))
        then reselect reg version order rng
        else (order, rng) in
      (order, sendPendingTransaction order, rng)
    else (order, None, rng).

(** The loop of [checkAndRelayPendingOrders] over the snapshot: updates
    through the shared pointers show in the live map. *)
Definition relay_loop (reg : ServiceNodeMgr) (version : N) (currentTime : Z)
    (txs : list (N * TransactionDescr))
    (acc : gmap N TransactionDescr * list Broadcast * Engine)
    : gmap N TransactionDescr * list Broadcast * Engine :=
  fold_left
    (fun '(live, sent, rng) '(i, order) =>
       let '(order', out, rng') := relay_order reg version currentTime order rng in
       (<[i := order']> live,
        match out with Some b => sent ++ [b] | None => sent end,
        rng'))
    txs acc.

(** [App::Impl::checkAndRelayPendingOrders]: the snapshot is walked in
    the order of the ids. *)
Definition checkAndRelayPendingOrders (reg : ServiceNodeMgr) (version : N)
    (currentTime : Z) (live : gmap N TransactionDescr) (rng : Engine)
    : gmap N TransactionDescr * list Broadcast * Engine :=
  let txs := merge_sort id_le (map_to_list live) in
  relay_loop reg version currentTime txs (live, [], rng).

End Selector.

(** ** Properties of the selector *)

(** The nodes the registry loop keeps. *)
Definition qualifies (reg : ServiceNodeMgr) (requested_services : gset string)
    (version : N) (notIn : gset CPubKey) (x : ServiceNode) : bool :=
  N.eqb (getXBridgeVersion x) version
  && negb (bool_decide (getSnodePubKey x ∈ notIn))
  && running x
  && resolves reg (getSnodePubKey x)
  && negb (bool_decide (requested_services = ∅))
  && bool_decide (requested_services ⊆ list_to_set (serviceList x)).

Lemma service_loop_spec (ws : gset string) (key : CPubKey) (requested : list string)
    (nodes : list CPubKey) :
  service_loop ws key requested (length requested) nodes =
  if negb (Nat.eqb (length requested) 0)
     && forallb (fun s => bool_decide (s ∈ ws)) requested
  then nodes ++ [key] else nodes.
Proof.
  revert nodes. induction requested as [|s rest IH]; intros nodes; [done|].
  cbn [service_loop length pred forallb]. destruct (bool_decide (s ∈ ws)); [|done].
  destruct rest as [|s' rest']; [done|].
  rewrite IH. done.
Qed.

Lemma forallb_elements_subseteq (requested ws : gset string) :
  forallb (fun s => bool_decide (s ∈ ws)) (elements requested)
  = bool_decide (requested ⊆ ws).
Proof.
  apply eq_true_iff_eq. rewrite forallb_forall, bool_decide_eq_true. split.
  - intros H s Hs. apply elem_of_elements, list_elem_of_In in Hs.
    by apply H, bool_decide_eq_true in Hs.
  - intros H s Hs. apply bool_decide_eq_true, H, elem_of_elements, list_elem_of_In, Hs.
Qed.

Lemma size_zero_empty (requested : gset string) :
  Nat.eqb (size requested) 0 = bool_decide (requested = ∅).
Proof.
  apply eq_true_iff_eq. rewrite Nat.eqb_eq, bool_decide_eq_true.
  split; [intros H; by apply leibniz_equiv, size_empty_inv | intros ->; apply size_empty].
Qed.

Lemma collect_nodes_spec reg requested version notIn snodes nodes :
  collect_nodes reg requested version notIn snodes nodes =
  nodes ++ map getSnodePubKey (List.filter (qualifies reg requested version notIn) snodes).
Proof.
  revert nodes. induction snodes as [|x rest IH]; intros nodes; simpl.
  - by rewrite app_nil_r.
  - assert (qualifies reg requested version notIn x =
            N.eqb (getXBridgeVersion x) version
            && negb (bool_decide (getSnodePubKey x ∈ notIn))
            && running x
            && resolves reg (getSnodePubKey x)
            && (negb (bool_decide (requested = ∅))
                && bool_decide (requested ⊆ list_to_set (serviceList x)))) as Hq.
    { unfold qualifies. by rewrite <- !andb_assoc. }
    destruct (N.eqb (getXBridgeVersion x) version); simpl in *;
      [|rewrite Hq; apply IH].
    destruct (bool_decide (getSnodePubKey x ∈ notIn)); simpl in *;
      [rewrite Hq; apply IH|].
    destruct (running x); simpl in *; [|rewrite Hq; apply IH].
    destruct (resolves reg (getSnodePubKey x)); simpl in *; [|rewrite Hq; apply IH].
    rewrite IH. change (size requested) with (length (elements requested)).
    rewrite service_loop_spec.
    change (length (elements requested)) with (size requested).
    rewrite size_zero_empty, forallb_elements_subseteq, Hq.
    destruct (negb (bool_decide (requested = ∅)) && _); simpl; [|done].
    by rewrite <- app_assoc.
Qed.

Lemma qualifies_true reg requested version notIn x :
  qualifies reg requested version notIn x = true <->
  getXBridgeVersion x = version /\ (getSnodePubKey x ∉ notIn) /\ running x = true /\
  resolves reg (getSnodePubKey x) = true /\ requested ≠ ∅ /\
  requested ⊆ list_to_set (serviceList x).
Proof.
  unfold qualifies.
  rewrite !andb_true_iff, !negb_true_iff, !bool_decide_eq_true, !bool_decide_eq_false,
    N.eqb_eq.
  tauto.
Qed.

Section SelectorFacts.

Variable Engine : Type.
Variable shuffle : list CPubKey -> Engine -> list CPubKey * Engine.

(** [std::shuffle] permutes its range. *)
Hypothesis shuffle_permutes : forall l rng, (shuffle l rng).1 ≡ₚ l.

(** C9, amended. For a request that is not empty the call returns the
    keys of exactly the registry nodes that have the requested protocol
    version, are not excluded, are running, are found by [getSn] (with the
    key as it is or decompressed) and list every requested service; for an
    empty request it returns nothing.  The list is the shuffle of these
    keys, taken in registry order, on the function-local static engine:
    the call starts from the engine state the previous call left, so a
    second call with the same registry and arguments returns the shuffle
    from the state the first call left. *)
Theorem findShuffledNodesWithService_spec (reg : ServiceNodeMgr)
    (requested_services : gset string) (version : N) (notIn : gset CPubKey)
    (rng : Engine) :
  let keys := map getSnodePubKey
                (List.filter (qualifies reg requested_services version notIn)
                   (sn_list reg)) in
  let r := findShuffledNodesWithService Engine shuffle reg requested_services
             version notIn rng in
  r = shuffle keys rng /\
  (forall k : CPubKey,
     k ∈ r.1
     <-> exists x, x ∈ sn_list reg /\ getSnodePubKey x = k /\
           getXBridgeVersion x = version /\ (k ∉ notIn) /\ running x = true /\
           resolves reg k = true /\ requested_services ≠ ∅ /\
           requested_services ⊆ list_to_set (serviceList x)) /\
  (requested_services = ∅ -> r.1 = []) /\
  (findShuffledNodesWithService Engine shuffle reg requested_services
     version notIn r.2).1
  = (shuffle keys (shuffle keys rng).2).1.
Proof.
  intros keys r. subst keys r.
  unfold findShuffledNodesWithService. rewrite collect_nodes_spec. simpl.
  split; [done|]. split; [|split; [|done]].
  - intros k. rewrite shuffle_permutes, list_elem_of_fmap. split.
    + intros (x & -> & Hx). apply list_elem_of_In, filter_In in Hx as [Hin Hq].
      apply qualifies_true in Hq. exists x. split; [by apply list_elem_of_In | tauto].
    + intros (x & Hin & <- & Hq). exists x. split; [done|].
      apply list_elem_of_In, filter_In. split; [by apply list_elem_of_In|].
      apply qualifies_true. tauto.
  - intros ->. apply Permutation_nil_r. rewrite shuffle_permutes.
    assert (forall l, List.filter (qualifies reg ∅ version notIn) l = []) as ->; [|done].
    induction l as [|x l IH]; [done|]. simpl.
    assert (qualifies reg ∅ version notIn x = false) as ->; [|done].
    unfold qualifies. rewrite (bool_decide_eq_true_2 (∅ = ∅)) by done.
    by rewrite !andb_false_r.
Qed.

End SelectorFacts.

(** ** The engine and the shuffle of the library *)

(** The library part as libstdc++ has it.  [std::default_random_engine] is
    [std::minstd_rand0], the linear congruential engine with multiplier
    16807, increment 0 and modulus [2^31 - 1]; [std::shuffle] draws one
    number for every two positions through
    [std::uniform_int_distribution]. *)
Module MinStd.

Definition Engine := Z.

(** [seed]: with increment 0 a seed that is 0 modulo the modulus gives the
    state 1. *)
Definition seeded (seed : Z) : Engine :=
  if seed mod 2147483647 =? 0 then 1 else seed mod 2147483647.

(** [operator()]: the new state, which is the number returned. *)
Definition next (s : Engine) : Engine := (16807 * s) mod 2147483647.

(** [min()], [max()] and their distance. *)
Definition urngmin : Z := 1.
Definition urngmax : Z := 2147483646.
Definition urngrange : Z := urngmax - urngmin.

(** The loop [do ret = urng() - urngmin; while (ret >= past)] of the
    distribution.  The loop of the library has no bound; the model gives
    up after [2^(levels+1)] draws ([None]), more than the period
    [2^31 - 2] of the engine for the 31 levels it is used with. *)
Fixpoint redraw (levels : nat) (past : Z) (s : Engine) : option Z * Engine :=
  match levels with
  | O =>
      let s' := next s in
      let ret := s' - urngmin in
      if ret <? past then (Some ret, s') else (None, s')
  | S n =>
      match redraw n past s with
      | (Some ret, s') => (Some ret, s')
      | (None, s') => redraw n past s'
      end
  end.

(** [std::uniform_int_distribution<size_t>{0, b}(g)] for [b] below
    [urngrange], the branch that scales the engine's range down (a range
    as long as the engine's needs a list of [2^31 - 2] keys). *)
Definition uniform (b : Z) (s : Engine) : Z * Engine :=
  let uerange := b + 1 in
  let scaling := urngrange / uerange in
  let past := uerange * scaling in
  match redraw 31 past s with
  | (Some ret, s') => (ret / scaling, s')
  | (None, s') => (0, s')
  end.

(** [std::iter_swap] on the positions [i] and [j]. *)
Definition swap {A} (i j : nat) (l : list A) : list A :=
  match l !! i, l !! j with
  | Some x, Some y => <[i := y]> (<[j := x]> l)
  | _, _ => l
  end.

(** The loop of [std::shuffle] that treats two positions with one draw
    ([__gen_two_uniform_ints]). *)
Fixpoint shuffle_pairs {A} (pairs i : nat) (l : list A) (s : Engine) : list A * Engine :=
  match pairs with
  | O => (l, s)
  | S pairs' =>
      let swap_range := Z.of_nat i + 1 in
      let '(x, s) := uniform (swap_range * (swap_range + 1) - 1) s in
      let l := swap i (Z.to_nat (x / (swap_range + 1))) l in
      let l := swap (S i) (Z.to_nat (x mod (swap_range + 1))) l in
      shuffle_pairs pairs' (S (S i)) l s
  end.

(** The loop of [std::shuffle] for a range too long for pairs. *)
Fixpoint shuffle_each {A} (steps i : nat) (l : list A) (s : Engine) : list A * Engine :=
  match steps with
  | O => (l, s)
  | S steps' =>
      let '(j, s) := uniform (Z.of_nat i) s in
      shuffle_each steps' (S i) (swap i (Z.to_nat j) l) s
  end.

(** [std::shuffle(first, last, g)]. *)
Definition shuffle {A} (l : list A) (s : Engine) : list A * Engine :=
  match l with
  | [] => (l, s)
  | _ :: _ =>
      let urange := Z.of_nat (length l) in
      if urange <=? urngrange / urange then
        if urange mod 2 =? 0 then
          let '(j, s) := uniform 1 s in
          shuffle_pairs ((length l - 2) / 2) 2 (swap 1 (Z.to_nat j) l) s
        else shuffle_pairs ((length l - 1) / 2) 1 l s
      else shuffle_each (length l - 1) 1 l s
  end.

Lemma insert_head_perm {A} (l : list A) (j : nat) (x y : A) :
  l !! j = Some y -> y :: <[j := x]> l ≡ₚ x :: l.
Proof.
  revert j. induction l as [|z l IH]; intros [|j] Hj; simplify_eq/=.
  - apply Permutation_swap.
  - rewrite Permutation_swap, (IH j Hj). apply Permutation_swap.
Qed.

Lemma swap_perm {A} (i j : nat) (l : list A) : swap i j l ≡ₚ l.
Proof.
  unfold swap. destruct (l !! i) as [x|] eqn:Hi; [|done].
  destruct (l !! j) as [y|] eqn:Hj; [|done].
  revert i j Hi Hj. induction l as [|z l IH]; intros [|i] [|j] Hi Hj; simplify_eq/=.
  - done.
  - by apply insert_head_perm.
  - by apply insert_head_perm.
  - f_equiv. by apply IH.
Qed.

Lemma shuffle_pairs_perm {A} (pairs i : nat) (l : list A) (s : Engine) :
  (shuffle_pairs pairs i l s).1 ≡ₚ l.
Proof.
  revert i l s. induction pairs as [|pairs IH]; intros i l s; [done|].
  cbn [shuffle_pairs]. destruct (uniform _ s) as [x s'].
  by rewrite IH, !swap_perm.
Qed.

Lemma shuffle_each_perm {A} (steps i : nat) (l : list A) (s : Engine) :
  (shuffle_each steps i l s).1 ≡ₚ l.
Proof.
  revert i l s. induction steps as [|steps IH]; intros i l s; [done|].
  cbn [shuffle_each]. destruct (uniform _ s) as [j s'].
  by rewrite IH, swap_perm.
Qed.

(** The shuffle permutes its range. *)
Lemma shuffle_perm {A} (l : list A) (s : Engine) : (shuffle l s).1 ≡ₚ l.
Proof.
  unfold shuffle. destruct l as [|a l]; [done|].
  destruct (_ <=? _); [|apply shuffle_each_perm].
  destruct (_ =? 0); [|apply shuffle_pairs_perm].
  destruct (uniform 1 s) as [j s']. by rewrite shuffle_pairs_perm, swap_perm.
Qed.

End MinStd.

(** A registry of three running nodes of version 50 that list BTC and LTC. *)
Module SelectorRun.

Definition node (b : Z) : ServiceNode :=
  {| getSnodePubKey := repeat b 33; getXBridgeVersion := 50; running := true;
     serviceList := ["BTC"; "LTC"] |}.

Definition registry : ServiceNodeMgr :=
  {| sn_list := [node 2; node 3; node 4];
     getSn := fun k => List.find (fun x => bool_decide (getSnodePubKey x = k))
                         [node 2; node 3; node 4];
     Decompress := fun _ => None |}.

Definition call (requested : gset string) (rng : MinStd.Engine) :=
  findShuffledNodesWithService MinStd.Engine MinStd.shuffle registry requested 50 ∅ rng.

(** Three calls in a row, the first one on the engine as it is seeded. *)
Definition first_call := call {["BTC"; "LTC"]} (MinStd.seeded 0).
Definition second_call := call {["BTC"; "LTC"]} first_call.2.
Definition third_call := call {["BTC"; "LTC"]} second_call.2.

End SelectorRun.

(** C9, the claim as stated fails. The first and the third call in a
    process, on the same registry and with the same arguments, return the
    three keys in different orders, because a call starts from the engine
    state the call before it left; and for an empty request no node is
    returned although every service list is a superset of it. *)
Lemma findShuffledNodesWithService_not_repeatable :
  SelectorRun.first_call.1 = [repeat 4 33; repeat 2 33; repeat 3 33] /\
  SelectorRun.third_call.1 = [repeat 2 33; repeat 4 33; repeat 3 33] /\
  SelectorRun.first_call.1 <> SelectorRun.third_call.1 /\
  (SelectorRun.call ∅ (MinStd.seeded 0)).1 = [].
Proof. vm_compute. repeat split. discriminate. Qed.

(** ** Properties of the relay pass *)

(** The registry node [x] can take [order] over: it has the protocol
    version, is running, is found by [getSn], is neither the node of the
    order nor one of its excluded nodes, and lists both currencies. *)
Definition serves (reg : ServiceNodeMgr) (version : N) (order : TransactionDescr)
    (x : ServiceNode) : Prop :=
  x ∈ sn_list reg /\ getXBridgeVersion x = version /\ running x = true /\
  resolves reg (getSnodePubKey x) = true /\
  getSnodePubKey x <> sPubKey order /\ (getSnodePubKey x ∉ excludedSnodes order) /\
  fromCurrency order ∈ serviceList x /\ toCurrency order ∈ serviceList x.

(** What the re-selection leaves in the order: when no registry node can
    take the order over, the node and the exclusion set stay; otherwise a
    node that can is assigned and the old node is excluded. *)
Definition reselected (GetID : CPubKey -> list Z) (reg : ServiceNodeMgr) (version : N)
    (order order' : TransactionDescr) : Prop :=
  ((forall x, ~ serves reg version order x) /\
   sPubKey order' = sPubKey order /\ hubAddress order' = hubAddress order /\
   excludedSnodes order' = excludedSnodes order)
  \/ (exists x, serves reg version order x /\
        sPubKey order' = getSnodePubKey x /\
        hubAddress order' = GetID (getSnodePubKey x) /\
        excludedSnodes order' = {[sPubKey order]} ∪ excludedSnodes order).

(** The order keeps what the pass does not write. *)
Definition same_trade (order order' : TransactionDescr) : Prop :=
  id order' = id order /\ state order' = state order /\
  from order' = from order /\ to order' = to order /\
  fromCurrency order' = fromCurrency order /\ toCurrency order' = toCurrency order /\
  fromAmount order' = fromAmount order /\ toAmount order' = toAmount order /\
  usedCoins order' = usedCoins order /\ created order' = created order.

Lemma qualifies_serves reg version order x :
  x ∈ sn_list reg ->
  qualifies reg {[fromCurrency order; toCurrency order]} version
    ({[sPubKey order]} ∪ excludedSnodes order) x = true
  <-> serves reg version order x.
Proof.
  intros Hx. rewrite qualifies_true. unfold serves. split.
  - intros (Hv & Hn & Hr & Hs & _ & Hsub). repeat split; try done.
    + set_solver.
    + set_solver.
    + apply (elem_of_list_to_set (C := gset string)). set_solver.
    + apply (elem_of_list_to_set (C := gset string)). set_solver.
  - intros (_ & Hv & Hr & Hs & Hne & Hex & Hf & Ht). repeat split; try done.
    + set_solver.
    + set_solver.
    + intros s Hs'. apply elem_of_list_to_set. set_solver.
Qed.

Section RelayFacts.

Variable Engine : Type.
Variable shuffle : list CPubKey -> Engine -> list CPubKey * Engine.
Hypothesis shuffle_permutes : forall l rng, (shuffle l rng).1 ≡ₚ l.
Variable GetID : CPubKey -> list Z.
Variable isLocal : TransactionDescr -> bool.

Abbreviation findNode := (findNodeWithService Engine shuffle).
Abbreviation relay := (relay_order Engine shuffle GetID isLocal).

(** [findNodeWithService] for the two currencies of [order], without its
    node and its excluded nodes: the answer is a node that can take the
    order over, and there is an answer when the registry has such a node. *)
Lemma findNodeWithService_serves reg version order rng :
  match (findNode reg version {[fromCurrency order; toCurrency order]}
           ({[sPubKey order]} ∪ excludedSnodes order) rng).1 with
  | Some snode => exists x, serves reg version order x /\ getSnodePubKey x = snode
  | None => forall x, ~ serves reg version order x
  end.
Proof.
  unfold findNodeWithService, findShuffledNodesWithService.
  rewrite collect_nodes_spec. simpl.
  set (keys := map getSnodePubKey _).
  pose proof (shuffle_permutes keys rng) as Hperm.
  destruct (shuffle keys rng) as [nodes rng']. simpl in *.
  destruct nodes as [|snode rest]; simpl.
  - intros x Hx.
    assert (getSnodePubKey x ∈ keys) as Hin;
      [|rewrite <- Hperm in Hin; by apply elem_of_nil in Hin].
    apply list_elem_of_fmap. exists x. split; [done|].
    apply list_elem_of_In, filter_In.
    pose proof Hx as (Hl & _). split; [by apply list_elem_of_In|].
    by apply qualifies_serves.
  - assert (snode ∈ keys) as Hin by (rewrite <- Hperm; apply elem_of_cons; by left).
    apply list_elem_of_fmap in Hin as (x & -> & Hx).
    apply list_elem_of_In, filter_In in Hx as [Hl Hq]. apply list_elem_of_In in Hl.
    exists x. split; [|done]. by apply qualifies_serves.
Qed.

Lemma reselect_reselected reg version rng order :
  let order' := (reselect Engine shuffle GetID reg version order rng).1 in
  reselected GetID reg version order order' /\ same_trade order order' /\
  txtime order' = txtime order.
Proof.
  unfold reselect.
  pose proof (findNodeWithService_serves reg version order rng) as Hf.
  destruct (findNode _ _ _ _ rng) as [[snode|] rng']; simpl in *.
  - destruct Hf as (x & Hx & <-). split; [|by repeat split].
    right. exists x. split; [exact Hx|]. by repeat split.
  - split; [|by repeat split]. left. split; [exact Hf|]. by repeat split.
Qed.

Lemma relay_loop_spec reg version now txs live sent rng live' sent' rng' :
  NoDup (map fst txs) ->
  relay_loop Engine shuffle GetID isLocal reg version now txs (live, sent, rng)
  = (live', sent', rng') ->
  (forall i, i ∉ map fst txs -> live' !! i = live !! i) /\
  (forall b, b ∈ sent -> b ∈ sent') /\
  (forall i order, (i, order) ∈ txs ->
     exists rng_i,
       live' !! i = Some (relay reg version now order rng_i).1.1 /\
       forall b, (relay reg version now order rng_i).1.2 = Some b -> b ∈ sent') /\
  (forall b, b ∈ sent' ->
     b ∈ sent \/
     exists i order rng_i,
       (i, order) ∈ txs /\
       live' !! i = Some (relay reg version now order rng_i).1.1 /\
       (relay reg version now order rng_i).1.2 = Some b).
Proof.
  unfold relay_loop. revert live sent rng.
  induction txs as [|[j o] txs IH]; intros live sent rng Hnd Heq; simpl in *.
  - injection Heq as <- <- <-. repeat split; try done; [|by left].
    intros i order H. by apply elem_of_nil in H.
  - apply NoDup_cons in Hnd as [Hj Hnd].
    destruct (relay_order _ _ _ _ reg version now o rng) as [[o' out] rng1] eqn:Hr.
    destruct (IH _ _ _ Hnd Heq) as (IH1 & IH2 & IH3 & IH4).
    assert (live' !! j = Some o') as Hlj.
    { rewrite IH1 by done. apply lookup_insert_eq. }
    repeat split.
    + intros i Hi. apply not_elem_of_cons in Hi as [Hij Hi].
      rewrite IH1 by done. by apply lookup_insert_ne.
    + intros b Hb. apply IH2. destruct out; [apply elem_of_app; by left | done].
    + intros i order Hin. apply elem_of_cons in Hin as [[= -> ->] | Hin].
      * exists rng. rewrite Hr. simpl. split; [done|].
        intros b ->. apply IH2, elem_of_app. right. apply elem_of_cons. by left.
      * by apply IH3.
    + intros b Hb. destruct (IH4 b Hb) as [Hold | (i & order & rng_i & Hin & Hl & Hs)].
      * destruct out as [b0|]; [|by left].
        apply elem_of_app in Hold as [Hold|Hnew]; [by left|].
        apply elem_of_cons in Hnew as [->|Hnil]; [|by apply elem_of_nil in Hnil].
        right. exists j, o, rng. rewrite Hr. simpl.
        split; [apply elem_of_cons; by left | done].
      * right. exists i, order, rng_i. split; [apply elem_of_cons; by right | done].
Qed.

(** The pass treats every order of the live map by [relay_order], from
    the engine state the orders before it left, and sends nothing else. *)
Lemma checkAndRelayPendingOrders_lookup reg version now live rng :
  let r := checkAndRelayPendingOrders Engine shuffle GetID isLocal reg version now live rng in
  (forall i order, live !! i = Some order ->
     exists rng_i,
       r.1.1 !! i = Some (relay reg version now order rng_i).1.1 /\
       forall b, (relay reg version now order rng_i).1.2 = Some b -> b ∈ r.1.2) /\
  (forall b, b ∈ r.1.2 ->
     exists i order rng_i,
       live !! i = Some order /\
       r.1.1 !! i = Some (relay reg version now order rng_i).1.1 /\
       (relay reg version now order rng_i).1.2 = Some b).
Proof.
  unfold checkAndRelayPendingOrders.
  destruct (relay_loop _ _ _ _ _ _ _ _ _) as [[live' sent'] rng'] eqn:Hl.
  apply relay_loop_spec in Hl as (_ & _ & H3 & H4).
  - simpl. split.
    + intros i order Hi. apply H3. rewrite merge_sort_Permutation.
      by apply elem_of_map_to_list.
    + intros b Hb. destruct (H4 b Hb) as [Hnil | (i & order & rng_i & Hin & Hrest)].
      { by apply elem_of_nil in Hnil. }
      exists i, order, rng_i. split; [|done].
      rewrite merge_sort_Permutation in Hin. by apply elem_of_map_to_list.
  - rewrite merge_sort_Permutation. apply NoDup_fst_map_to_list.
Qed.

(** What [relay_order] does to one order. *)
Lemma relay_order_spec reg version now order rng :
  let age := total_seconds (now - txtime order) in
  let order' := (relay reg version now order rng).1.1 in
  let out := (relay reg version now order rng).1.2 in
  let still_served :=
    hasNodeService reg (sPubKey order) (fromCurrency order) = true /\
    hasNodeService reg (sPubKey order) (toCurrency order) = true in
  let due :=
    isLocal order = true /\
    (state order = trNew /\ 15 <= age \/ state order = trPending /\ 240 <= age) in
  same_trade order order' /\
  (due -> txtime order' = now /\ out = sendPendingTransaction order') /\
  (~ due -> order' = order /\ out = None) /\
  (isLocal order = true -> state order = trNew -> 15 <= age ->
     reselected GetID reg version order order') /\
  (isLocal order = true -> state order = trPending -> 240 <= age ->
     (still_served ->
        sPubKey order' = sPubKey order /\ hubAddress order' = hubAddress order /\
        excludedSnodes order' = excludedSnodes order) /\
     (~ still_served -> reselected GetID reg version order order')).
Proof.
  intros age order' out still_served due. subst order' out due.
  unfold relay_order. fold age.
  destruct (isLocal order); simpl.
  2: { repeat split; try done; intros; intuition congruence. }
  destruct (Z.leb_spec 15 age) as [H15|H15]; simpl.
  2: { replace (240 <=? age) with false by (symmetry; apply Z.leb_gt; lia).
       simpl. repeat split; try done; intros; try lia;
         exfalso; intuition lia. }
  destruct (is_state trNew order) eqn:Hnew; simpl.
  - apply is_state_true in Hnew.
    destruct (reselect_reselected reg version rng order) as (Hre & Hsame & Htx).
    destruct (reselect _ _ _ _ _ _ _) as [o1 rng1]; simpl in *.
    repeat split; try (apply Hsame); try done; intros; try congruence;
      exfalso; intuition (congruence || lia).
  - apply is_state_false in Hnew.
    destruct (Z.leb_spec 240 age) as [H240|H240]; simpl.
    2: { repeat split; try done; intros; try congruence; try lia;
           exfalso; intuition (congruence || lia). }
    destruct (is_state trPending order) eqn:Hpen; simpl.
    2: { apply is_state_false in Hpen.
         repeat split; try done; intros; try congruence;
           exfalso; intuition (congruence || lia). }
    apply is_state_true in Hpen.
    change (is_state trPending (updateTimestamp now order))
      with (is_state trPending order).
    subst still_served.
    change (sPubKey (updateTimestamp now order)) with (sPubKey order).
    change (fromCurrency (updateTimestamp now order)) with (fromCurrency order).
    change (toCurrency (updateTimestamp now order)) with (toCurrency order).
    destruct (reselect_reselected reg version rng (updateTimestamp now order))
      as (Hre & Hsame & Htx).
    destruct (hasNodeService reg (sPubKey order) (fromCurrency order)) eqn:Hf;
      destruct (hasNodeService reg (sPubKey order) (toCurrency order)) eqn:Ht;
      simpl;
      [ repeat split; try done; intros; try congruence;
          exfalso; intuition (congruence || lia) | ..];
      destruct (reselect _ _ _ _ _ _ _) as [o1 rng1]; simpl in *;
      (repeat split; try (apply Hsame); try done; intros; try congruence;
        try (exfalso; intuition (congruence || lia))).
Qed.

End RelayFacts.

Section RelayPass.

Variable Engine : Type.
Variable shuffle : list CPubKey -> Engine -> list CPubKey * Engine.
Hypothesis shuffle_permutes : forall l rng, (shuffle l rng).1 ≡ₚ l.
Variable GetID : CPubKey -> list Z.
Variable isLocal : TransactionDescr -> bool.

(** C6, amended. In a relay pass every order of the live map keeps its
    trade data and its state and is handled as follows.  A local order in
    state New whose txtime is at least 15 seconds old, and a local order
    in state Pending whose txtime is at least 240 seconds old, get the
    current time as txtime and are announced again: the announcement goes
    to the hub address of the order when the order has a hub address and
    both raw addresses, and is not sent otherwise.  For the New order the
    service node is re-selected: when a registry node with the protocol
    version, running, found by [getSn], other than the current node, not
    excluded by the order and listing both currencies exists, such a node
    is assigned and the old one excluded; when none exists the current
    node is kept.  For the Pending order the node is kept when it still
    lists both currencies and re-selected in the same way when not.  Every
    other order is left as it is, and the pass sends nothing but these
    announcements. *)
Theorem checkAndRelayPendingOrders_spec (reg : ServiceNodeMgr) (version : N)
    (currentTime : Z) (live : gmap N TransactionDescr) (rng : Engine)
    (i : N) (order : TransactionDescr) :
  live !! i = Some order ->
  let r := checkAndRelayPendingOrders Engine shuffle GetID isLocal reg version
             currentTime live rng in
  let age := total_seconds (currentTime - txtime order) in
  let still_served :=
    hasNodeService reg (sPubKey order) (fromCurrency order) = true /\
    hasNodeService reg (sPubKey order) (toCurrency order) = true in
  let due (o : TransactionDescr) :=
    isLocal o = true /\
    (state o = trNew /\ 15 <= total_seconds (currentTime - txtime o)
     \/ state o = trPending /\ 240 <= total_seconds (currentTime - txtime o)) in
  (exists order',
     r.1.1 !! i = Some order' /\
     same_trade order order' /\
     (due order ->
        txtime order' = currentTime /\
        (hubAddress order' <> [] -> from order <> [] -> to order <> [] ->
           {| bc_hub := hubAddress order'; bc_order := order' |} ∈ r.1.2)) /\
     (isLocal order = true -> state order = trNew -> 15 <= age ->
        reselected GetID reg version order order') /\
     (isLocal order = true -> state order = trPending -> 240 <= age ->
        (still_served ->
           sPubKey order' = sPubKey order /\ hubAddress order' = hubAddress order /\
           excludedSnodes order' = excludedSnodes order) /\
        (~ still_served -> reselected GetID reg version order order')) /\
     (~ due order -> order' = order)) /\
  (forall b, b ∈ r.1.2 ->
     exists j o o',
       live !! j = Some o /\ r.1.1 !! j = Some o' /\ due o /\
       b = {| bc_hub := hubAddress o'; bc_order := o' |} /\
       hubAddress o' <> [] /\ from o' <> [] /\ to o' <> []).
Proof.
  intros Hi r age still_served due.
  destruct (checkAndRelayPendingOrders_lookup Engine shuffle GetID isLocal reg version
              currentTime live rng) as [Hall Hsent].
  fold r in Hall, Hsent.
  assert (forall o b, sendPendingTransaction o = Some b ->
            b = {| bc_hub := hubAddress o; bc_order := o |} /\
            hubAddress o <> [] /\ from o <> [] /\ to o <> []) as Hsend.
  { intros o b. unfold sendPendingTransaction.
    destruct (hubAddress o) as [|h hub]; [done|].
    destruct (from o) as [|f fr]; [done|]. destruct (to o) as [|t tt]; [done|].
    simpl. by intros [= <-]. }
  split.
  - destruct (Hall i order Hi) as (rng_i & H1 & H2).
    pose proof (relay_order_spec Engine shuffle shuffle_permutes GetID isLocal
                  reg version currentTime order rng_i)
      as (Hsame & Hdue & Hnot & Hnew & Hpen).
    set (order' := (relay_order Engine shuffle GetID isLocal reg version currentTime
                      order rng_i).1.1) in *.
    exists order'. split; [done|]. split; [done|]. split; [|split; [|split]].
    + intros Hd. destruct (Hdue Hd) as [Htx Hout]. split; [done|].
      intros Hhub Hfrom Hto. apply H2. rewrite Hout.
      unfold sendPendingTransaction.
      destruct Hsame as (_ & _ & Hf & Ht & _). rewrite Hf, Ht.
      destruct (hubAddress order') as [|h hub]; [done|].
      destruct (from order) as [|f fr]; [done|].
      by destruct (to order) as [|t tt].
    + exact Hnew.
    + exact Hpen.
    + intros Hd. by apply Hnot.
  - intros b Hb. destruct (Hsent b Hb) as (j & o & rng_j & Hj & Hlj & Hout).
    pose proof (relay_order_spec Engine shuffle shuffle_permutes GetID isLocal
                  reg version currentTime o rng_j)
      as (_ & Hdue & Hnot & _).
    exists j, o,
      (relay_order Engine shuffle GetID isLocal reg version currentTime o rng_j).1.1.
    split; [done|]. split; [exact Hlj|].
    assert (Decision (due o)) as [Hd|Hn] by (unfold due; apply _).
    2: { destruct (Hnot Hn) as [_ Hnone]. congruence. }
    split; [exact Hd|].
    destruct (Hdue Hd) as [_ Hout']. rewrite Hout' in Hout.
    by apply Hsend.
Qed.

End RelayPass.

(** ** Runs of the relay pass and of the order store *)

Module RelayRun.

(** The only node of the registry is the one the order is assigned to. *)
Definition registry : ServiceNodeMgr :=
  {| sn_list := [SelectorRun.node 2];
     getSn := fun k => List.find (fun x => bool_decide (getSnodePubKey x = k))
                         [SelectorRun.node 2];
     Decompress := fun _ => None |}.

Definition GetID (k : CPubKey) : list Z := firstn 20 k.

(** The run's reading of the header method [isLocal]: both raw addresses
    of the order are set. *)
Definition isLocal (t : TransactionDescr) : bool :=
  negb (Nat.eqb (length (from t)) 0) && negb (Nat.eqb (length (to t)) 0).

(** A local order in state New, created and last sent at time 0 and
    assigned to the node [repeat 2 33]. *)
Definition order : TransactionDescr :=
  {| id := 7; state := trNew; role := "A"%char; hubAddress := repeat 2 20;
     sPubKey := repeat 2 33; created := 0; txtime := 0; fromAddr := "a";
     from := repeat 1 20; fromCurrency := "BTC"; fromAmount := 1000000;
     toAddr := "b"; to := repeat 3 20; toCurrency := "LTC"; toAmount := 5000000;
     usedCoins := [AcceptRun.coin]; feeUtxos := ∅; rawFeeTx := ""; mPubKey := [];
     mPrivKey := []; excludedSnodes := ∅ |}.

(** The pass 20 seconds later. *)
Definition pass :=
  checkAndRelayPendingOrders MinStd.Engine MinStd.shuffle GetID isLocal registry 50
    20000000 {[7%N := order]} (MinStd.seeded 0).

(** The same pass in the registry of three nodes, of which two can take
    the order over. *)
Definition takeover :=
  checkAndRelayPendingOrders MinStd.Engine MinStd.shuffle GetID isLocal
    SelectorRun.registry 50 20000000 {[7%N := order]} (MinStd.seeded 0).

Definition updateTimestampFrom (cur d : TransactionDescr) : TransactionDescr :=
  updateTimestamp (txtime d) cur.

(** A store in which [order] is live and its coin is locked. *)
Definition store : App :=
  with_locks {| m_utxosDict := {["BTC" := {[key AcceptRun.coin := AcceptRun.coin]}]};
                m_feeUtxos := ∅ |}
    (appendTransaction updateTimestampFrom order (initial)).

Lemma store_reachable : reachable updateTimestampFrom store.
Proof.
  eapply reach_step; [eapply reach_step; [apply reach_init | apply step_append]|].
  apply step_locks.
Qed.

End RelayRun.

(** C6, the claim as stated fails. The order [RelayRun.order] is local, in
    state New, and its txtime is 20 seconds old; the registry has no node
    but the one it is assigned to.  The pass advances the txtime and sends
    the announcement, but the order keeps its service node. *)
Lemma relay_keeps_node_without_alternative :
  RelayRun.isLocal RelayRun.order = true /\
  state RelayRun.order = trNew /\
  total_seconds (20000000 - txtime RelayRun.order) = 20 /\
  RelayRun.pass.1.1 !! 7%N = Some (updateTimestamp 20000000 RelayRun.order) /\
  sPubKey <$> (RelayRun.pass.1.1 !! 7%N) = Some (sPubKey RelayRun.order) /\
  RelayRun.pass.1.2 = [{| bc_hub := repeat 2 20;
                          bc_order := updateTimestamp 20000000 RelayRun.order |}].
Proof. vm_compute. repeat split. Qed.

(** C6, a run of the amended statement: the same order in the registry
    of three nodes.  The pass advances the txtime, assigns another node
    (the node [repeat 4 33], the first of the shuffled alternatives),
    excludes the old one and sends the announcement to the new hub. *)
Lemma checkAndRelayPendingOrders_spec_witness :
  ({[7%N := RelayRun.order]} : gmap N TransactionDescr) !! 7%N = Some RelayRun.order /\
  (exists order',
     RelayRun.takeover.1.1 !! 7%N = Some order' /\
     txtime order' = 20000000 /\
     sPubKey order' <> sPubKey RelayRun.order /\
     excludedSnodes order' = {[sPubKey RelayRun.order]} ∪ ∅ /\
     {| bc_hub := hubAddress order'; bc_order := order' |} ∈ RelayRun.takeover.1.2) /\
  sPubKey <$> (RelayRun.takeover.1.1 !! 7%N) = Some (repeat 4 33) /\
  bc_hub <$> RelayRun.takeover.1.2 = [repeat 4 20].
Proof.
  assert (({[7%N := RelayRun.order]} : gmap N TransactionDescr) !! 7%N
          = Some RelayRun.order) as Hlive by (vm_compute; reflexivity).
  split; [exact Hlive|]. split; [|split; vm_compute; reflexivity].
  destruct (checkAndRelayPendingOrders_spec MinStd.Engine MinStd.shuffle
              (@MinStd.shuffle_perm CPubKey)
              RelayRun.GetID RelayRun.isLocal SelectorRun.registry 50 20000000
              {[7%N := RelayRun.order]} (MinStd.seeded 0) 7%N RelayRun.order Hlive)
    as [(order' & Hl & Hsame & Hdue & Hnew & _) _].
  assert (15 <= total_seconds (20000000 - txtime RelayRun.order)) as Hage
    by (vm_compute; discriminate).
  destruct Hdue as [Htx Hsent].
  { split; [reflexivity|]. left. split; [reflexivity | exact Hage]. }
  unfold RelayRun.takeover.
  exists order'. split; [exact Hl|]. split; [exact Htx|].
  destruct (Hnew eq_refl eq_refl Hage)
    as [(Hnone & _) | (x & Hx & Hs & Hh & He)].
  { exfalso. apply (Hnone (SelectorRun.node 3)).
    repeat split; try reflexivity.
    - apply elem_of_cons. right. apply elem_of_cons. by left.
    - discriminate.
    - apply not_elem_of_empty.
    - apply elem_of_cons. by left.
    - apply elem_of_cons. right. apply elem_of_cons. by left. }
  destruct Hx as (Hin & _ & _ & _ & Hne & _).
  split; [by rewrite Hs|]. split; [exact He|].
  apply Hsent; [|intros Hnil; discriminate Hnil..].
  rewrite Hh. clear -Hin.
  apply elem_of_cons in Hin as [->|Hin]; [intros Hnil; discriminate Hnil|].
  apply elem_of_cons in Hin as [->|Hin]; [intros Hnil; discriminate Hnil|].
  apply elem_of_cons in Hin as [->|Hin]; [intros Hnil; discriminate Hnil|].
  by apply elem_of_nil in Hin.
Defined.

(** C9, a run: the first call of a process on the registry of three
    nodes. *)
Lemma findShuffledNodesWithService_spec_witness :
  (repeat 3 33 : CPubKey) ∈ SelectorRun.first_call.1 /\
  SelectorRun.first_call.1 = [repeat 4 33; repeat 2 33; repeat 3 33] /\
  SelectorRun.second_call.1 = [repeat 4 33; repeat 2 33; repeat 3 33].
Proof.
  split; [|split; vm_compute; reflexivity].
  destruct (findShuffledNodesWithService_spec MinStd.Engine MinStd.shuffle
              (@MinStd.shuffle_perm CPubKey) SelectorRun.registry
              {["BTC"; "LTC"]} 50 ∅ (MinStd.seeded 0)) as (_ & Hiff & _).
  apply Hiff. exists (SelectorRun.node 3).
  repeat split; try reflexivity; set_solver.
Defined.

(** C8, a run: the store after [order] was appended and moved to the
    history. *)
Lemma live_and_history_disjoint_witness :
  reachable RelayRun.updateTimestampFrom
    (moveTransactionToHistory 7 RelayRun.store) /\
  live_xor_historic (moveTransactionToHistory 7 RelayRun.store).
Proof.
  assert (reachable RelayRun.updateTimestampFrom
            (moveTransactionToHistory 7 RelayRun.store)) as Hr.
  { eapply reach_step; [apply RelayRun.store_reachable | apply step_move]. }
  split; [exact Hr|].
  exact (proj1 (live_and_history_disjoint RelayRun.updateTimestampFrom _ Hr)).
Defined.

(** C10, a run: moving [order] to the history unlocks its coin. *)
Lemma moveTransactionToHistory_releases_witness :
  reachable RelayRun.updateTimestampFrom RelayRun.store /\
  m_transactions RelayRun.store !! 7%N = Some RelayRun.order /\
  locked (m_utxosDict (m_locks RelayRun.store)) "BTC" (key AcceptRun.coin) /\
  ~ locked (m_utxosDict (m_locks (moveTransactionToHistory 7 RelayRun.store)))
      "BTC" (key AcceptRun.coin).
Proof.
  assert (m_transactions RelayRun.store !! 7%N = Some RelayRun.order) as Hlive
    by (vm_compute; reflexivity).
  split; [apply RelayRun.store_reachable|]. split; [exact Hlive|]. split.
  - eexists. split; [vm_compute; reflexivity|]. by eexists.
  - destruct (moveTransactionToHistory_releases RelayRun.updateTimestampFrom
                RelayRun.store 7 RelayRun.order RelayRun.store_reachable Hlive)
      as (Hrel & _).
    apply (Hrel AcceptRun.coin). apply elem_of_cons. by left.
Defined.

(** ** The Bitcoin Cash signature hash *)

Module BCH.

(** [uint32_t] values are integers below [2^32]. *)
Definition u32 (z : Z) : Z := z mod 2 ^ 32.


Definition SIGHASH_ALL : Z := 1.
Definition SIGHASH_NONE : Z := 2.
Definition SIGHASH_SINGLE : Z := 3.
Definition SIGHASH_ANYONECANPAY : Z := 128.

(** [enum class BaseSigHashType : uint8_t]. *)
Inductive BaseSigHashType := UNSUPPORTED | ALL | NONE | SINGLE | Other (v : Z).


Definition BaseSigHashType_value (b : BaseSigHashType) : Z :=
  match b with
  | UNSUPPORTED => 0
  | ALL => SIGHASH_ALL
  | NONE => SIGHASH_NONE
  | SINGLE => SIGHASH_SINGLE
  | Other v => v
  end.

(** [class SigHashType], a wrapper of the [uint32_t sigHash]. *)
Record SigHashType := { sigHash : Z }.

Definition SigHashType_default : SigHashType := {| sigHash := SIGHASH_ALL |}.

Definition withBaseType (t : SigHashType) (b : BaseSigHashType) : SigHashType :=
  {| sigHash := Z.lor (Z.land (sigHash t) (u32 (Z.lnot 31))) (BaseSigHashType_value b) |}.



Definition withAnyoneCanPay (t : SigHashType) (anyoneCanPay : bool) : SigHashType :=
  {| sigHash := Z.lor (Z.land (sigHash t) (u32 (Z.lnot SIGHASH_ANYONECANPAY)))
                  (if anyoneCanPay then SIGHASH_ANYONECANPAY else 0) |}.






(** Transactions, as far as the hash reads them. *)
Record COutPoint := { hash : list Z; n : Z }.
Record CTxIn := { prevout : COutPoint; scriptSig : list Z; nSequence : Z }.
Record CTxOut := { nValue : Z; scriptPubKey : list Z }.
Record CTransaction := {
  nVersion : Z;
  vin : list CTxIn;
  vout : list CTxOut;
  nLockTime : Z
}.








Section Hashing.

(** [CHashWriter::GetHash] on the bytes written so far: the double
    SHA-256 of the hash writer (outside the sources). *)
Variable Hash : list Z -> list Z.









End Hashing.

End BCH.

(** ** SHA-256, to run the hash on the vector recorded in the sources *)

Module SHA256.

Definition w32 (z : Z) : Z := z mod 2 ^ 32.



(** The first primes, by trial division. *)
Definition is_prime (k : nat) : bool :=
  (1 <? k)%nat && forallb (fun j => negb (Nat.eqb (k mod j) 0)) (seq 2 (k - 2)).

Definition primes (count : nat) : list Z :=
  map Z.of_nat (firstn count (List.filter is_prime (seq 2 310))).



(** The initial hash value: the first 32 bits of the fractional parts of
    the square roots of the first 8 primes. *)
Definition H0 : list Z :=
  Eval vm_compute in map (fun q => w32 (Z.sqrt (q * 2 ^ 64))) (primes 8).










End SHA256.

(** ** Properties of the signature hash *)

(** Hexadecimal text to bytes. *)
Module Hex.

Definition digit (c : ascii) : Z :=
  let k := Z.of_nat (nat_of_ascii c) in
  if (48 <=? k) && (k <=? 57) then k - 48
  else if (97 <=? k) && (k <=? 102) then k - 87
  else if (65 <=? k) && (k <=? 70) then k - 55
  else 0.

Fixpoint decode (s : string) : list Z :=
  match s with
  | String a (String b rest) => (16 * digit a + digit b) :: decode rest
  | _ => []
  end.

End Hex.


Section SignatureHashFacts.

Variable Hash : list Z -> list Z.
Variable sign : list Z -> list Z -> option (list Z).


End SignatureHashFacts.

(** The vector recorded at the end of [BchWalletConnector::echo]. *)
Module Fixture.



Definition txin : BCH.CTxIn :=
  {| BCH.prevout := {| BCH.hash := repeat 0 32; BCH.n := 0 |};
     BCH.scriptSig := [];
     BCH.nSequence := 4294967295 |}.

Definition tx : BCH.CTransaction :=
  {| BCH.nVersion := 2;
     BCH.vin := [txin];
     BCH.vout := [{| BCH.nValue := 12000;
                     BCH.scriptPubKey :=
                       Hex.decode "76a914fbb69b118d36d0f94fac283ad8073041bdc64f3b88ac" |}];
     BCH.nLockTime := 0 |}.


End Fixture.


(** ** Amounts *)

Section Amounts.

(** [xbridge::TransactionDescr::COIN] (its header is not among the
    sources). *)
Variable COIN : Z.

(** [xBridgeValueFromAmount]. *)
Definition xBridgeValueFromAmount (amount : Z) : spec_float :=
  Dbl.div (Dbl.of_Z amount) (Dbl.of_Z COIN).

(** [xBridgeAmountFromReal]. *)
Definition xBridgeAmountFromReal (val : spec_float) : Z :=
  let d := Dbl.mul val (Dbl.of_Z COIN) in
  let r := Dbl.to_int64 (if Dbl.ltb Dbl.zero d then Dbl.add d Dbl.half
                         else Dbl.sub d Dbl.half) in
  Dbl.int64_to_uint64 r.

End Amounts.

(** ** Rounding to nearest even, from the definitions of [SpecFloat] *)

Module Rounding.

(** The number of binary digits of a positive number. *)
Lemma digits2_pos_bounds (p : positive) :
  2 ^ (Zpos (digits2_pos p) - 1) <= Zpos p < 2 ^ Zpos (digits2_pos p).
Proof.
  induction p as [p IH|p IH|]; cbn [digits2_pos].
  - rewrite Pos2Z.inj_succ, Z.pow_succ_r by lia.
    replace (Z.succ (Zpos (digits2_pos p)) - 1) with (Z.succ (Zpos (digits2_pos p) - 1)) by lia.
    rewrite Z.pow_succ_r by lia. lia.
  - rewrite Pos2Z.inj_succ, Z.pow_succ_r by lia.
    replace (Z.succ (Zpos (digits2_pos p)) - 1) with (Z.succ (Zpos (digits2_pos p) - 1)) by lia.
    rewrite Z.pow_succ_r by lia. lia.
  - simpl. lia.
Qed.

(** The digits are fixed by the bounds. *)
Lemma digits2_pos_unique (p : positive) (d : Z) :
  2 ^ (d - 1) <= Zpos p < 2 ^ d -> Zpos (digits2_pos p) = d.
Proof.
  intros [Hl Hu]. pose proof (digits2_pos_bounds p) as [Hl' Hu'].
  assert (0 < d).
  { destruct (Z.lt_trichotomy d 0) as [Hd|[->|Hd]]; [|simpl in Hu; lia|done].
    rewrite Z.pow_neg_r in Hu by done. lia. }
  destruct (Z.lt_trichotomy (Zpos (digits2_pos p)) d) as [Hlt|[Heq|Hgt]]; [|done|].
  - assert (2 ^ Zpos (digits2_pos p) <= 2 ^ (d - 1)) by (apply Z.pow_le_mono_r; lia). lia.
  - assert (2 ^ d <= 2 ^ (Zpos (digits2_pos p) - 1)) by (apply Z.pow_le_mono_r; lia). lia.
Qed.

(** A shift record [(m, r, s)] stands for the rational [P / Q]: [m] is its
    integer part, [r] tells whether the fraction reaches one half, [s]
    whether something is left beyond. *)
Definition represents (mrs : shr_record) (P Q : Z) : Prop :=
  0 < Q /\ 0 <= P /\ shr_m mrs = P / Q /\
  shr_r mrs = (Q <=? 2 * (P mod Q)) /\
  shr_s mrs = negb (P mod Q =? 0) && negb (2 * (P mod Q) =? Q).

Lemma shr_1_represents (mrs : shr_record) (P Q : Z) :
  represents mrs P Q -> represents (shr_1 mrs) P (2 * Q).
Proof.
  destruct mrs as [m r s]. intros (HQ & HP & Hm & Hr & Hs). simpl in *.
  assert (0 <= m) by (subst m; apply Z.div_pos; lia).
  pose proof (Z.mod_pos_bound P Q HQ) as HF.
  pose proof (Z.div_mod P Q ltac:(lia)) as HPQ. rewrite <- Hm in HPQ.
  assert (P / (2 * Q) = m / 2) as Hdiv.
  { rewrite Z.mul_comm, <- Z.div_div by lia. by rewrite <- Hm. }
  assert (P mod (2 * Q) = (m mod 2) * Q + P mod Q) as Hmod.
  { pose proof (Z.div_mod P (2 * Q) ltac:(lia)) as H2. rewrite Hdiv in H2.
    pose proof (Z.div_mod m 2 ltac:(lia)). nia. }
  pose proof (Z.mod_pos_bound m 2 ltac:(lia)) as Hm2.
  assert (r || s = negb (P mod Q =? 0)) as Hrs.
  { subst r s. destruct (Z.leb_spec Q (2 * (P mod Q))); destruct (Z.eqb_spec (P mod Q) 0);
      destruct (Z.eqb_spec (2 * (P mod Q)) Q); simpl; try done; lia. }
  destruct m as [|[p|p|]|p]; try lia; simpl;
    (split; [lia|]); (split; [done|]); rewrite Hdiv, Hmod, Hrs.
  - change (0 mod 2) with 0. change (0 / 2) with 0. split; [done|].
    destruct (Z.leb_spec (2 * Q) (2 * (0 * Q + P mod Q)));
      destruct (Z.eqb_spec (P mod Q) 0);
      destruct (Z.eqb_spec (0 * Q + P mod Q) 0);
      destruct (Z.eqb_spec (2 * (0 * Q + P mod Q)) (2 * Q)); simpl; try done; lia.
  - assert (Zpos p~1 mod 2 = 1) as -> by (rewrite Pos2Z.inj_xI, Z.add_comm, Z.mul_comm, Z.mod_add by lia; done).
    assert (Zpos p~1 / 2 = Zpos p) as -> by (rewrite Pos2Z.inj_xI, Z.add_comm, Z.mul_comm, Z.div_add by lia; done).
    split; [done|].
    destruct (Z.leb_spec (2 * Q) (2 * (1 * Q + P mod Q)));
      destruct (Z.eqb_spec (P mod Q) 0);
      destruct (Z.eqb_spec (1 * Q + P mod Q) 0);
      destruct (Z.eqb_spec (2 * (1 * Q + P mod Q)) (2 * Q)); simpl; try done; lia.
  - assert (Zpos p~0 mod 2 = 0) as -> by (rewrite Pos2Z.inj_xO, Z.mul_comm, Z.mod_mul by lia; done).
    assert (Zpos p~0 / 2 = Zpos p) as -> by (rewrite Pos2Z.inj_xO, Z.mul_comm, Z.div_mul by lia; done).
    split; [done|].
    destruct (Z.leb_spec (2 * Q) (2 * (0 * Q + P mod Q)));
      destruct (Z.eqb_spec (P mod Q) 0);
      destruct (Z.eqb_spec (0 * Q + P mod Q) 0);
      destruct (Z.eqb_spec (2 * (0 * Q + P mod Q)) (2 * Q)); simpl; try done; lia.
  - change (1 mod 2) with 1. change (1 / 2) with 0. split; [done|].
    destruct (Z.leb_spec (2 * Q) (2 * (1 * Q + P mod Q)));
      destruct (Z.eqb_spec (P mod Q) 0);
      destruct (Z.eqb_spec (1 * Q + P mod Q) 0);
      destruct (Z.eqb_spec (2 * (1 * Q + P mod Q)) (2 * Q)); simpl; try done; lia.
Qed.

Lemma iter_shr_1_represents (p : positive) (mrs : shr_record) (P Q : Z) :
  represents mrs P Q -> represents (SpecFloat.iter_pos shr_1 p mrs) P (2 ^ Zpos p * Q).
Proof.
  revert mrs Q. induction p as [p IH|p IH|]; intros mrs Q H; cbn [SpecFloat.iter_pos].
  - apply shr_1_represents, IH, IH in H.
    replace (2 ^ Zpos p~1 * Q) with (2 ^ Zpos p * (2 ^ Zpos p * (2 * Q))); [done|].
    rewrite (Pos2Z.inj_xI p). replace (2 * Zpos p + 1) with (Zpos p + Zpos p + 1) by lia.
    rewrite !Z.pow_add_r, Z.pow_1_r by lia. ring.
  - apply IH, IH in H.
    replace (2 ^ Zpos p~0 * Q) with (2 ^ Zpos p * (2 ^ Zpos p * Q)); [done|].
    rewrite (Pos2Z.inj_xO p). replace (2 * Zpos p) with (Zpos p + Zpos p) by lia.
    rewrite Z.pow_add_r by lia. ring.
  - apply shr_1_represents in H. by rewrite Z.pow_1_r.
Qed.


Lemma exact_represents (m : Z) :
  0 <= m -> represents (shr_record_of_loc m loc_Exact) m 1.
Proof.
  intros Hm. unfold represents. simpl. rewrite Z.div_1_r, Z.mod_1_r. simpl. lia.
Qed.

(** The location [SFdiv_core_binary] computes from the remainder. *)
Lemma new_location_represents (P Q : Z) :
  0 < Q -> 0 <= P ->
  represents (shr_record_of_loc (P / Q) (new_location Q (P mod Q))) P Q.
Proof.
  intros HQ HP. pose proof (Z.mod_pos_bound P Q HQ) as HF.
  unfold represents, new_location, new_location_even, new_location_odd.
  split; [done|]. split; [done|].
  destruct (Z.even Q) eqn:Heven.
  - destruct (Z.eqb_spec (P mod Q) 0) as [H0|H0].
    + cbn. rewrite H0, Z.mul_0_r. cbn. destruct (Z.leb_spec Q 0); [lia|done].
    + destruct (Z.compare_spec (2 * (P mod Q)) Q); cbn;
        destruct (Z.leb_spec Q (2 * (P mod Q)));
        destruct (Z.eqb_spec (2 * (P mod Q)) Q); cbn; try done; lia.
  - assert (2 * (P mod Q) <> Q) as Hodd.
    { intros Heq. rewrite <- Heq, Z.even_mul in Heven. done. }
    destruct (Z.eqb_spec (P mod Q) 0) as [H0|H0].
    + cbn. rewrite H0, Z.mul_0_r. cbn. destruct (Z.leb_spec Q 0); [lia|done].
    + destruct (Z.compare_spec (2 * (P mod Q) + 1) Q); cbn;
        destruct (Z.leb_spec Q (2 * (P mod Q)));
        destruct (Z.eqb_spec (2 * (P mod Q)) Q); cbn; try done; lia.
Qed.

(** Rounding a represented rational to nearest, ties to even: the result
    is within one half of it. *)
Lemma round_nearest_even_represents (mrs : shr_record) (P Q : Z) :
  represents mrs P Q ->
  let M := round_nearest_even (shr_m mrs) (loc_of_shr_record mrs) in
  shr_m mrs <= M <= shr_m mrs + 1 /\
  2 * M * Q <= 2 * P + Q /\ 2 * P <= 2 * M * Q + Q.
Proof.
  destruct mrs as [m r s]. intros (HQ & HP & Hm & Hr & Hs) M. simpl in *.
  pose proof (Z.mod_pos_bound P Q HQ) as HF.
  pose proof (Z.div_mod P Q ltac:(lia)) as HPQ. rewrite <- Hm in HPQ.
  subst M.
  destruct (Z.leb_spec Q (2 * (P mod Q))); destruct (Z.eqb_spec (P mod Q) 0);
    destruct (Z.eqb_spec (2 * (P mod Q)) Q); simpl in *; subst r s; simpl;
    try destruct (Z.even m); nia.
Qed.

(** [shr] by a non-negative amount. *)
Lemma shr_represents (mrs : shr_record) (e k : Z) (P Q : Z) :
  0 <= k -> represents mrs P Q ->
  represents (fst (shr mrs e k)) P (2 ^ k * Q) /\ snd (shr mrs e k) = e + k.
Proof.
  intros Hk H. destruct k as [|p|p]; simpl; try lia.
  - split; [|lia]. by replace (2 ^ 0 * Q) with Q by (rewrite Z.pow_0_r; lia).
  - split; [|done]. by apply iter_shr_1_represents.
Qed.


Lemma fexp_normal (x : Z) : -1074 <= x - 53 -> fexp 53 1024 x = x - 53.
Proof. intros H. unfold fexp, emin. lia. Qed.

(** The rounding of [SpecFloat] on a positive number of at least 53
    digits, in the range of the normal doubles: the result is a normal
    double within half a unit in the last place of the number that
    [(P / Q) * 2^e] stands for. *)
Lemma binary_round_aux_spec (m : positive) (e : Z) (l : location) (P Q : Z) :
  represents (shr_record_of_loc (Zpos m) l) P Q ->
  let d := Zpos (digits2_pos m) in
  53 <= d -> -1074 <= d + e - 53 -> d + e <= 1023 ->
  exists m' e',
    binary_round_aux 53 1024 false (Zpos m) e l = S754_finite false m' e' /\
    2 ^ 52 <= Zpos m' < 2 ^ 53 /\
    d + e - 53 <= e' <= d + e - 52 /\
    2 * (Zpos m' * 2 ^ (e' - e)) * Q <= 2 * P + 2 ^ (e' - e) * Q /\
    2 * P <= 2 * (Zpos m' * 2 ^ (e' - e)) * Q + 2 ^ (e' - e) * Q.
Proof.
  intros Hrep d Hd Hlo Hhi.
  pose proof (digits2_pos_bounds m) as Hdig. fold d in Hdig.
  set (k := d - 53).
  assert (0 <= k) as Hk by lia.
  assert (0 < 2 ^ k) as Hpk by (apply Z.pow_pos_nonneg; lia).
  assert (2 ^ (d - 1) = 2 ^ 52 * 2 ^ k) as Hd1.
  { rewrite <- Z.pow_add_r by lia. f_equal. lia. }
  assert (2 ^ d = 2 ^ 53 * 2 ^ k) as Hd2.
  { rewrite <- Z.pow_add_r by lia. f_equal. lia. }
  unfold binary_round_aux, shr_fexp.
  change (Zdigits2 (Zpos m)) with d.
  rewrite (fexp_normal (d + e)) by lia.
  replace (d + e - 53 - e) with k by lia.
  destruct (shr_represents (shr_record_of_loc (Zpos m) l) e k P Q Hk Hrep) as [Hrep1 He1].
  destruct (shr (shr_record_of_loc (Zpos m) l) e k) as [mrs1 e1]. simpl in Hrep1, He1.
  subst e1.
  pose proof (round_nearest_even_represents mrs1 P (2 ^ k * Q) Hrep1) as (HM & HM1 & HM2).
  simpl in HM, HM1, HM2.
  set (M := round_nearest_even (shr_m mrs1) (loc_of_shr_record mrs1)) in *.
  assert (shr_m mrs1 = Zpos m / 2 ^ k) as Hm1.
  { destruct Hrep1 as (_ & _ & -> & _). destruct Hrep as (HQ & _ & Hm & _).
    rewrite Z.mul_comm, <- Z.div_div by lia. f_equal.
    destruct l as [|[]]; simpl in Hm; by rewrite Hm. }
  assert (2 ^ 52 <= shr_m mrs1 < 2 ^ 53) as Hb1.
  { rewrite Hm1. split.
    - apply Z.div_le_lower_bound; lia.
    - apply Z.div_lt_upper_bound; lia. }
  assert (0 < Q) as HQ by apply Hrep.
  destruct (Z.eq_dec M (2 ^ 53)) as [HMeq|HMne].
  - (* the mantissa overflows to 2^53: one more shift *)
    rewrite HMeq.
    change (Zdigits2 (2 ^ 53)) with 54.
    rewrite (fexp_normal (54 + (e + k))) by lia.
    replace (54 + (e + k) - 53 - (e + k)) with 1 by lia.
    cbn [shr shr_record_of_loc SpecFloat.iter_pos shr_1 shr_m fst snd].
    change (2 ^ 53) with (Zpos (4503599627370496~0)).
    cbn [shr shr_record_of_loc SpecFloat.iter_pos shr_1 shr_m fst snd].
    replace (e + k + 1 <=? 1024 - 53) with true by (symmetry; apply Z.leb_le; lia).
    exists 4503599627370496%positive, (e + k + 1).
    split; [done|]. split; [lia|]. split; [lia|].
    replace (e + k + 1 - e) with (k + 1) by lia.
    rewrite Z.pow_add_r, Z.pow_1_r by lia.
    rewrite HMeq in HM1, HM2. change (2 ^ 53) with 9007199254740992 in HM1, HM2.
    nia.
  - assert (2 ^ 52 <= M < 2 ^ 53) as HMb by lia.
    destruct M as [|pM|pM] eqn:HMp; try lia.
    assert (Zdigits2 (Zpos pM) = 53) as ->.
    { cbn [Zdigits2]. apply digits2_pos_unique. lia. }
    rewrite (fexp_normal (53 + (e + k))) by lia.
    replace (53 + (e + k) - 53 - (e + k)) with 0 by lia.
    cbn [shr shr_record_of_loc shr_m fst snd].
    replace (e + k <=? 1024 - 53) with true by (symmetry; apply Z.leb_le; lia).
    exists pM, (e + k).
    split; [done|]. split; [lia|]. split; [lia|].
    replace (e + k - e) with k by lia. nia.
Qed.


(** On 53 digits in the normal range nothing is rounded. *)
Lemma binary_round_aux_exact (m : positive) (e : Z) :
  2 ^ 52 <= Zpos m < 2 ^ 53 -> -1074 <= e <= 970 ->
  binary_round_aux 53 1024 false (Zpos m) e loc_Exact = S754_finite false m e.
Proof.
  intros Hm He. unfold binary_round_aux, shr_fexp.
  assert (Zdigits2 (Zpos m) = 53) as Hd.
  { cbn [Zdigits2]. apply digits2_pos_unique. lia. }
  rewrite Hd, (fexp_normal (53 + e)) by lia.
  replace (53 + e - 53 - e) with 0 by lia.
  cbn [shr shr_record_of_loc shr_m fst snd loc_of_shr_record round_nearest_even].
  rewrite Hd, (fexp_normal (53 + e)) by lia.
  replace (53 + e - 53 - e) with 0 by lia.
  cbn [shr shr_record_of_loc shr_m fst snd].
  by replace (e <=? 1024 - 53) with true by (symmetry; apply Z.leb_le; lia).
Qed.

(** *** Values *)

(** The value of the positive double [(m, e)]. *)
Definition F2R (m : positive) (e : Z) : R := (IZR (Zpos m) * powerRZ 2 e)%R.

(** The unit roundoff [2^-53]. *)
Definition u : R := (/ 9007199254740992)%R.

(** [r] approximates [x] with a relative error of at most [u]. *)
Definition near (r x : R) : Prop := (r * (1 - u) <= x <= r * (1 + u))%R.

Lemma powerRZ_2_pos (z : Z) : (0 < powerRZ 2 z)%R.
Proof. apply powerRZ_lt. lra. Qed.

Lemma IZR_pow2 (z : Z) : 0 <= z -> IZR (2 ^ z) = powerRZ 2 z.
Proof.
  intros Hz. destruct z as [|p|p]; [done| |lia].
  change (2 ^ Zpos p) with (Z.pow_pos 2 p). apply Zpower_pos_powerRZ.
Qed.

Lemma powerRZ_2_add (a b : Z) : (powerRZ 2 (a + b) = powerRZ 2 a * powerRZ 2 b)%R.
Proof. apply powerRZ_add. lra. Qed.

Lemma F2R_pos (m : positive) (e : Z) : (0 < F2R m e)%R.
Proof.
  unfold F2R. apply Rmult_lt_0_compat; [|apply powerRZ_2_pos].
  apply IZR_lt. lia.
Qed.

(** The rounding lemma over the reals. *)
Lemma binary_round_aux_near (m : positive) (e : Z) (l : location) (P Q : Z) :
  represents (shr_record_of_loc (Zpos m) l) P Q ->
  let d := Zpos (digits2_pos m) in
  53 <= d -> -1074 <= d + e - 53 -> d + e <= 1023 ->
  exists m' e',
    binary_round_aux 53 1024 false (Zpos m) e l = S754_finite false m' e' /\
    2 ^ 52 <= Zpos m' < 2 ^ 53 /\
    d + e - 53 <= e' <= d + e - 52 /\
    near (F2R m' e') (IZR P / IZR Q * powerRZ 2 e)%R.
Proof.
  intros Hrep d Hd Hlo Hhi.
  destruct (binary_round_aux_spec m e l P Q Hrep Hd Hlo Hhi)
    as (m' & e' & Heq & Hm' & He' & H1 & H2).
  exists m', e'. split; [done|]. split; [done|]. split; [done|].
  assert (0 < Q) as HQ by apply Hrep.
  assert (0 < IZR Q)%R as HQR by (by apply IZR_lt).
  set (a := e' - e) in *. fold d in He'.
  assert (0 <= a) as Ha by lia.
  apply IZR_le in H1, H2.
  rewrite !mult_IZR, !plus_IZR, !mult_IZR, IZR_pow2 in H1, H2 by done.
  pose proof (powerRZ_2_pos a) as HA. pose proof (powerRZ_2_pos e) as HE.
  unfold near, F2R, u.
  replace e' with (a + e) by lia. rewrite powerRZ_2_add.
  set (A := powerRZ 2 a) in *. set (E := powerRZ 2 e) in *.
  set (q := IZR Q) in *. set (p := IZR P) in *. set (x := IZR (Zpos m')) in *.
  assert (4503599627370496 <= x)%R as Hx.
  { subst x. apply IZR_le. lia. }
  assert (p = p / q * q)%R as Hp by (field; lra).
  set (y := (p / q)%R) in *. rewrite Hp in H1, H2.
  assert (2 * (x * A) <= 2 * y + A)%R as H1'.
  { apply Rmult_le_reg_r with q; [done|]. lra. }
  assert (2 * y <= 2 * (x * A) + A)%R as H2'.
  { apply Rmult_le_reg_r with q; [done|]. lra. }
  assert (0 < A * E)%R as HAE by (by apply Rmult_lt_0_compat).
  split.
  - apply Rle_trans with ((x * A - A / 2) * E)%R.
    + apply Rmult_le_reg_l with 9007199254740992%R; [lra|].
      assert (0 <= (x - 4503599627370496) * (A * E))%R
        by (apply Rmult_le_pos; lra).
      field_simplify. lra.
    + apply Rmult_le_compat_r; lra.
  - apply Rle_trans with ((x * A + A / 2) * E)%R.
    + apply Rmult_le_compat_r; lra.
    + apply Rmult_le_reg_l with 9007199254740992%R; [lra|].
      assert (0 <= (x - 4503599627370496) * (A * E))%R
        by (apply Rmult_le_pos; lra).
      field_simplify. lra.
Qed.


(** *** The operations on positive normal doubles *)

(** A mantissa of exactly 53 digits. *)
Definition normal (m : positive) : Prop := 2 ^ 52 <= Zpos m < 2 ^ 53.

Lemma normal_digits (m : positive) : normal m -> Zpos (digits2_pos m) = 53.
Proof. intros H. apply digits2_pos_unique. unfold normal in H. lia. Qed.

(** An integer below [2^53] converts without rounding. *)
Lemma of_Z_exact (z : Z) :
  0 < z < 2 ^ 53 ->
  exists m e, Dbl.of_Z z = S754_finite false m e /\ normal m /\ -52 <= e <= 0 /\
              F2R m e = IZR z.
Proof.
  intros Hz. destruct z as [|p|p]; try lia.
  unfold Dbl.of_Z, binary_normalize, binary_round, Dbl.prec, Dbl.emax.
  pose proof (digits2_pos_bounds p) as Hdig.
  set (dp := Zpos (digits2_pos p)) in *.
  assert (1 <= dp <= 53) as Hdp.
  { split; [subst dp; lia|].
    destruct (Z.le_gt_cases dp 53) as [|Hgt]; [done|].
    assert (2 ^ 53 <= 2 ^ (dp - 1)) by (apply Z.pow_le_mono_r; lia). lia. }
  rewrite (fexp_normal (dp + 0)) by lia.
  unfold shl_align. replace (dp + 0 - 53 - 0) with (dp - 53) by lia.
  destruct (dp - 53) as [|d|d] eqn:Hd; try lia.
  - assert (dp = 53) as Hdp53 by lia. rewrite Hdp53 in Hdig.
    exists p, 0. rewrite binary_round_aux_exact by (unfold normal; lia).
    split; [done|]. split; [unfold normal; lia|]. split; [lia|].
    unfold F2R. rewrite powerRZ_O. lra.
  - set (mz := Pos.iter xO p d).
    assert (Zpos mz = 2 ^ Zpos d * Zpos p) as Hmz.
    { subst mz. change (Pos.iter xO p d) with (shift_pos d p).
      by rewrite shift_pos_correct. }
    assert (2 ^ (dp - 1) * 2 ^ Zpos d = 2 ^ 52) as Hlow.
    { rewrite <- Z.pow_add_r by lia. f_equal. lia. }
    assert (2 ^ dp * 2 ^ Zpos d = 2 ^ 53) as Hupp.
    { rewrite <- Z.pow_add_r by lia. f_equal. lia. }
    assert (0 < 2 ^ Zpos d) by (apply Z.pow_pos_nonneg; lia).
    assert (normal mz) as Hn by (unfold normal; nia).
    exists mz, (dp + 0 - 53).
    rewrite binary_round_aux_exact by (unfold normal in Hn; lia).
    split; [done|]. split; [done|]. split; [lia|].
    unfold F2R. rewrite Hmz, mult_IZR, IZR_pow2 by lia.
    replace (dp + 0 - 53) with (- Zpos d) by lia.
    rewrite Rmult_comm, <- Rmult_assoc, <- powerRZ_2_add.
    replace (- Zpos d + Zpos d) with 0 by lia. rewrite powerRZ_O. lra.
Qed.


(** Division of positive normal doubles. *)
Lemma div_near (ma mb : positive) (ea eb : Z) :
  normal ma -> normal mb -> -500 <= ea - eb <= 500 ->
  exists m e,
    Dbl.div (S754_finite false ma ea) (S754_finite false mb eb) = S754_finite false m e /\
    normal m /\ ea - eb - 53 <= e <= ea - eb - 51 /\
    near (F2R m e) (F2R ma ea / F2R mb eb)%R.
Proof.
  intros Ha Hb He. unfold Dbl.div, SFdiv, SFdiv_core_binary, Dbl.prec, Dbl.emax.
  cbn [Zdigits2 xorb]. rewrite (normal_digits ma Ha), (normal_digits mb Hb).
  replace (53 + ea - (53 + eb)) with (ea - eb) by lia.
  rewrite (fexp_normal (ea - eb)) by lia.
  rewrite Z.min_l by lia.
  replace (ea - eb - (ea - eb - 53)) with 53 by lia.
  rewrite Z.shiftl_mul_pow2 by lia.
  set (P := Zpos ma * 2 ^ 53). set (Q := Zpos mb).
  unfold normal in Ha, Hb.
  assert (0 < Q) as HQ by (subst Q; lia).
  assert (0 <= P) as HP by (subst P; lia).
  pose proof (Z.div_mod P Q ltac:(lia)) as Hdm.
  pose proof (Z.mod_pos_bound P Q HQ) as Hmod.
  unfold Z.div, Z.modulo in Hdm, Hmod.
  pose proof (new_location_represents P Q HQ HP) as Hrep.
  unfold Z.div, Z.modulo in Hrep.
  destruct (Z.div_eucl P Q) as [q r]. simpl in Hdm, Hmod, Hrep.
  change (2 ^ 53) with 9007199254740992 in *. change (2 ^ 52) with 4503599627370496 in *.
  assert (4503599627370496 <= q < 18014398509481984) as Hq by (subst P Q; nia).
  destruct q as [|pq|pq]; try lia.
  pose proof (digits2_pos_bounds pq) as Hdig.
  assert (53 <= Zpos (digits2_pos pq) <= 54) as Hd.
  { split.
    - destruct (Z.le_gt_cases 53 (Zpos (digits2_pos pq))) as [|Hlt]; [done|].
      assert (2 ^ Zpos (digits2_pos pq) <= 2 ^ 52) by (apply Z.pow_le_mono_r; lia).
      change (2 ^ 52) with 4503599627370496 in *. lia.
    - destruct (Z.le_gt_cases (Zpos (digits2_pos pq)) 54) as [|Hgt]; [done|].
      assert (2 ^ 54 <= 2 ^ (Zpos (digits2_pos pq) - 1)) by (apply Z.pow_le_mono_r; lia).
      change (2 ^ 54) with 18014398509481984 in *. lia. }
  destruct (binary_round_aux_near pq (ea - eb - 53) (new_location Q r) P Q Hrep)
    as (m & e & Heq & Hm & Hee & Hnear); try lia.
  exists m, e. split; [done|]. split; [done|]. split; [lia|].
  replace (F2R ma ea / F2R mb eb)%R with (IZR P / IZR Q * powerRZ 2 (ea - eb - 53))%R;
    [done|].
  unfold F2R. subst P Q. rewrite mult_IZR.
  change 9007199254740992 with (2 ^ 53). rewrite IZR_pow2 by lia.
  replace (ea - eb - 53) with (ea + (- eb + - (53))) by lia.
  rewrite !powerRZ_2_add, !powerRZ_neg'.
  pose proof (powerRZ_2_pos eb). pose proof (powerRZ_2_pos 53).
  assert (0 < IZR (Zpos mb))%R by (apply IZR_lt; lia).
  field. lra.
Qed.

(** Multiplication of positive normal doubles. *)
Lemma mul_near (ma mb : positive) (ea eb : Z) :
  normal ma -> normal mb -> -500 <= ea + eb <= 500 ->
  exists m e,
    Dbl.mul (S754_finite false ma ea) (S754_finite false mb eb) = S754_finite false m e /\
    normal m /\ ea + eb + 52 <= e <= ea + eb + 54 /\
    near (F2R m e) (F2R ma ea * F2R mb eb)%R.
Proof.
  intros Ha Hb He. unfold Dbl.mul, SFmul, Dbl.prec, Dbl.emax. cbn [xorb].
  unfold normal in Ha, Hb.
  change (2 ^ 53) with 9007199254740992 in *. change (2 ^ 52) with 4503599627370496 in *.
  pose proof (digits2_pos_bounds (ma * mb)) as Hdig.
  rewrite Pos2Z.inj_mul in Hdig.
  assert (20282409603651670423947251286016 <= Zpos ma * Zpos mb
          < 81129638414606681695789005144064) as Hprod by nia.
  assert (105 <= Zpos (digits2_pos (ma * mb)) <= 106) as Hd.
  { split.
    - destruct (Z.le_gt_cases 105 (Zpos (digits2_pos (ma * mb)))) as [|Hlt]; [done|].
      assert (2 ^ Zpos (digits2_pos (ma * mb)) <= 2 ^ 104)
        by (apply Z.pow_le_mono_r; lia).
      change (2 ^ 104) with 20282409603651670423947251286016 in *. lia.
    - destruct (Z.le_gt_cases (Zpos (digits2_pos (ma * mb))) 106) as [|Hgt]; [done|].
      assert (2 ^ 106 <= 2 ^ (Zpos (digits2_pos (ma * mb)) - 1))
        by (apply Z.pow_le_mono_r; lia).
      change (2 ^ 106) with 81129638414606681695789005144064 in *. lia. }
  destruct (binary_round_aux_near (ma * mb) (ea + eb) loc_Exact (Zpos (ma * mb)) 1
              (exact_represents (Zpos (ma * mb)) ltac:(lia)))
    as (m & e & Heq & Hm & Hee & Hnear); try lia.
  exists m, e. split; [done|]. split; [done|]. split; [lia|].
  replace (F2R ma ea * F2R mb eb)%R
    with (IZR (Zpos (ma * mb)) / IZR 1 * powerRZ 2 (ea + eb))%R; [done|].
  unfold F2R. rewrite Pos2Z.inj_mul, mult_IZR, powerRZ_2_add. field.
Qed.

(** Adding one half to a positive normal double that is at least one
    half. *)
Lemma add_half_near (md : positive) (ed : Z) :
  normal md -> -53 <= ed <= 500 ->
  exists m e,
    Dbl.add (S754_finite false md ed) Dbl.half = S754_finite false m e /\
    normal m /\ near (F2R m e) (F2R md ed + / 2)%R.
Proof.
  intros Hd He. unfold Dbl.add, Dbl.half, SFadd, Dbl.prec, Dbl.emax.
  rewrite Z.min_r by lia.
  assert (exists pa, fst (shl_align md ed (-53)) = pa /\
                     Zpos pa = Zpos md * 2 ^ (ed + 53)) as (pa & -> & Hpa).
  { unfold shl_align. destruct (-53 - ed) as [|d|d] eqn:Hdiff; try lia.
    - exists md. split; [done|]. replace (ed + 53) with 0 by lia. lia.
    - exists (Pos.iter xO md d). split; [done|].
      change (Pos.iter xO md d) with (shift_pos d md).
      rewrite shift_pos_correct. change (Z.pow_pos 2 d) with (2 ^ Zpos d).
      replace (ed + 53) with (Zpos d) by lia. lia. }
  change (fst (shl_align 4503599627370496 (-53) (-53))) with 4503599627370496%positive.
  cbn [cond_Zopp].
  unfold normal in Hd.
  change (2 ^ 53) with 9007199254740992 in *. change (2 ^ 52) with 4503599627370496 in *.
  assert (1 <= 2 ^ (ed + 53) <= 2 ^ 553) as Hpow.
  { split; [apply (Z.pow_le_mono_r 2 0); lia | apply Z.pow_le_mono_r; lia]. }
  set (M := Zpos pa + 4503599627370496) in *.
  assert (9007199254740992 <= M < 2 ^ 700) as HM.
  { split; [subst M; nia|].
    apply Z.lt_le_trans with (9007199254740992 * 2 ^ 553 + 4503599627370496);
      [subst M; nia|]. vm_compute. discriminate. }
  destruct M as [|pM|pM] eqn:HMp; try lia.
  unfold binary_normalize, binary_round.
  pose proof (digits2_pos_bounds pM) as Hdig.
  assert (54 <= Zpos (digits2_pos pM) <= 700) as HdM.
  { split.
    - destruct (Z.le_gt_cases 54 (Zpos (digits2_pos pM))) as [|Hlt]; [done|].
      assert (2 ^ Zpos (digits2_pos pM) <= 2 ^ 53) by (apply Z.pow_le_mono_r; lia).
      change (2 ^ 53) with 9007199254740992 in *. lia.
    - destruct (Z.le_gt_cases (Zpos (digits2_pos pM)) 700) as [|Hgt]; [done|].
      assert (2 ^ 700 <= 2 ^ (Zpos (digits2_pos pM) - 1)) by (apply Z.pow_le_mono_r; lia).
      lia. }
  rewrite (fexp_normal (Zpos (digits2_pos pM) + -53)) by lia.
  unfold shl_align.
  destruct (Zpos (digits2_pos pM) + -53 - 53 - -53) as [|d|d] eqn:Hdiff; try lia.
  destruct (binary_round_aux_near pM (-53) loc_Exact (Zpos pM) 1
              (exact_represents (Zpos pM) ltac:(lia)))
    as (m & e & Heq & Hm & Hee & Hnear); try lia.
  exists m, e. split; [done|]. split; [done|].
  replace (F2R md ed + / 2)%R with (IZR (Zpos pM) / IZR 1 * powerRZ 2 (-53))%R; [done|].
  unfold F2R. rewrite <- HMp. unfold M. rewrite plus_IZR, Hpa, mult_IZR, IZR_pow2 by lia.
  replace (ed + 53) with (ed + - (-53)) by lia.
  rewrite powerRZ_2_add, powerRZ_neg'.
  pose proof (powerRZ_2_pos (-53)) as Hp.
  assert (powerRZ 2 (-53) = / 9007199254740992)%R as H53.
  { change (powerRZ 2 (-53)) with (/ powerRZ 2 53)%R.
    by rewrite <- (IZR_pow2 53) by lia. }
  rewrite H53. field.
Qed.


(** The conversion to an integer drops the fraction. *)
Lemma trunc_floor (m : positive) (e n : Z) :
  (IZR n <= F2R m e < IZR n + 1)%R ->
  Dbl.trunc (S754_finite false m e) = Some n.
Proof.
  unfold F2R, Dbl.trunc. intros [Hl Hu]. f_equal.
  destruct e as [|p|p].
  - rewrite powerRZ_O, Rmult_1_r in Hl, Hu.
    apply le_IZR in Hl. rewrite <- plus_IZR in Hu. apply lt_IZR in Hu. lia.
  - rewrite <- IZR_pow2, <- mult_IZR in Hl, Hu by lia.
    apply le_IZR in Hl. rewrite <- plus_IZR in Hu. apply lt_IZR in Hu. lia.
  - change (powerRZ 2 (Zneg p)) with (/ powerRZ 2 (Zpos p))%R in Hl, Hu.
    rewrite <- IZR_pow2 in Hl, Hu by lia.
    assert (0 < 2 ^ Zpos p) as Hpos by (apply Z.pow_pos_nonneg; lia).
    assert (0 < IZR (2 ^ Zpos p))%R as HposR by (by apply IZR_lt).
    assert (n * 2 ^ Zpos p <= Zpos m) as H1.
    { apply le_IZR. rewrite mult_IZR.
      apply Rmult_le_reg_r with (/ IZR (2 ^ Zpos p))%R; [by apply Rinv_0_lt_compat|].
      rewrite Rmult_assoc, Rinv_r by lra. lra. }
    assert (Zpos m < (n + 1) * 2 ^ Zpos p) as H2.
    { apply lt_IZR. rewrite mult_IZR, plus_IZR.
      apply Rmult_lt_reg_r with (/ IZR (2 ^ Zpos p))%R; [by apply Rinv_0_lt_compat|].
      rewrite (Rmult_assoc (IZR n + 1)), Rinv_r by lra. lra. }
    symmetry. apply Z.div_unique with (Zpos m - n * 2 ^ Zpos p); lia.
Qed.

End Rounding.

(** ** The round trip of an amount *)

Section RoundTrip.

Import Rounding.

Variable COIN : Z.

Lemma round_trip_zero :
  16 <= COIN < 2 ^ 53 ->
  xBridgeAmountFromReal COIN (xBridgeValueFromAmount COIN 0) = 0.
Proof.
  intros Hc. destruct (of_Z_exact COIN ltac:(lia)) as (mc & ec & Hcf & _).
  unfold xBridgeAmountFromReal, xBridgeValueFromAmount. rewrite Hcf. reflexivity.
Qed.

(** C7. With a COIN scale between 16 and [2^53], every amount [n] with
    [n * COIN <= 2^53] comes back from [xBridgeValueFromAmount] through
    [xBridgeAmountFromReal]: the quotient and the product are rounded to
    nearest, one half is added to the positive product, and the truncation
    gives [n]. *)
Theorem amount_round_trip (n : Z) :
  16 <= COIN < 2 ^ 53 ->
  0 <= n ->
  n * COIN <= 2 ^ 53 ->
  xBridgeAmountFromReal COIN (xBridgeValueFromAmount COIN n) = n.
Proof.
  intros Hc Hn Hnc.
  destruct (Z.eq_dec n 0) as [->|Hn0]; [by apply round_trip_zero|].
  change (2 ^ 53) with 9007199254740992 in *.
  assert (1 <= n <= 562949953421312) as Hn49 by nia.
  destruct (of_Z_exact n ltac:(change (2 ^ 53) with 9007199254740992; lia))
    as (mn & en & Hnf & Hmn & Hen & HN).
  destruct (of_Z_exact COIN ltac:(change (2 ^ 53) with 9007199254740992; lia))
    as (mc & ec & Hcf & Hmc & Hec & HC).
  unfold xBridgeAmountFromReal, xBridgeValueFromAmount. rewrite Hnf, Hcf.
  destruct (div_near mn mc en ec Hmn Hmc ltac:(lia)) as (m1 & e1 & Hv & Hm1 & He1 & Hnv).
  rewrite Hv.
  destruct (mul_near m1 mc e1 ec Hm1 Hmc ltac:(lia)) as (m2 & e2 & Hd & Hm2 & He2 & Hnd).
  rewrite Hd.
  change (Dbl.ltb Dbl.zero (S754_finite false m2 e2)) with true. cbv iota.
  (* the error of the product *)
  rewrite HN, HC in Hnv. rewrite HC in Hnd.
  assert (1 <= IZR n <= 562949953421312)%R as HNR by (split; apply IZR_le; lia).
  assert (16 <= IZR COIN)%R as HCR by (apply IZR_le; lia).
  set (N := IZR n) in *. set (C := IZR COIN) in *.
  set (V := F2R m1 e1) in *. set (D := F2R m2 e2) in *.
  pose proof (F2R_pos m1 e1) as HV. fold V in HV.
  unfold near, u in Hnv, Hnd.
  assert (V * C * (1 - / 9007199254740992) <= N <= V * C * (1 + / 9007199254740992))%R
    as HW.
  { destruct Hnv as [H1 H2]. assert (N / C * C = N)%R as HX by (field; lra).
    split.
    - rewrite <- HX. replace (V * C * (1 - / 9007199254740992))%R
        with (V * (1 - / 9007199254740992) * C)%R by ring.
      apply Rmult_le_compat_r; lra.
    - rewrite <- HX at 1. replace (V * C * (1 + / 9007199254740992))%R
        with (V * (1 + / 9007199254740992) * C)%R by ring.
      apply Rmult_le_compat_r; lra. }
  set (W := (V * C)%R) in *.
  assert (N - 3 / 16 <= D <= N + 3 / 16)%R as HD by lra.
  (* the product is at least one half, so its exponent is at least -53 *)
  assert (-53 <= e2) as He2lo.
  { destruct (Z.le_gt_cases (-53) e2) as [|Hlt]; [done|]. exfalso.
    assert (powerRZ 2 e2 <= powerRZ 2 (-54))%R as Hp.
    { replace (-54) with (e2 + (-54 - e2)) by lia.
      rewrite powerRZ_2_add, <- (IZR_pow2 (-54 - e2)) by lia.
      assert (1 <= IZR (2 ^ (-54 - e2)))%R
        by (apply IZR_le; pose proof (Z.pow_pos_nonneg 2 (-54 - e2)); lia).
      pose proof (powerRZ_2_pos e2). nra. }
    change (powerRZ 2 (-54)) with (/ powerRZ 2 54)%R in Hp.
    rewrite <- (IZR_pow2 54) in Hp by lia.
    change (2 ^ 54) with 18014398509481984 in Hp.
    pose proof (powerRZ_2_pos e2) as Hp0.
    assert (IZR (Zpos m2) < 9007199254740992)%R as Hm2R
      by (apply IZR_lt; unfold normal in Hm2;
          change (2 ^ 53) with 9007199254740992 in Hm2; lia).
    assert (D < 9007199254740992 * powerRZ 2 e2)%R
      by (unfold D, F2R; apply Rmult_lt_compat_r; lra).
    lra. }
  destruct (add_half_near m2 e2 Hm2 ltac:(lia)) as (m3 & e3 & Hs & Hm3 & Hns).
  rewrite Hs. fold D in Hns. unfold near, u in Hns.
  set (S := F2R m3 e3) in *.
  assert (N <= S < N + 1)%R as HS by lra.
  unfold Dbl.to_int64. rewrite (trunc_floor m3 e3 n HS).
  replace ((- 2 ^ 63 <=? n) && (n <? 2 ^ 63)) with true.
  - unfold Dbl.int64_to_uint64. apply Z.mod_small.
    change (2 ^ 64) with 18446744073709551616. lia.
  - symmetry. apply andb_true_iff. split; [apply Z.leb_le | apply Z.ltb_lt];
      change (2 ^ 63) with 9223372036854775808; lia.
Qed.

End RoundTrip.

(** The round trip at the scale of one million units per coin. *)
Lemma amount_round_trip_witness :
  (16 <= 1000000 < 2 ^ 53) /\ 0 <= 123456789 /\ 123456789 * 1000000 <= 2 ^ 53 /\
  xBridgeAmountFromReal 1000000 (xBridgeValueFromAmount 1000000 123456789)
  = 123456789.
Proof.
  assert (16 <= 1000000 < 2 ^ 53) as Hc by (split; [lia | reflexivity]).
  assert (123456789 * 1000000 <= 2 ^ 53) as Hn by (vm_compute; discriminate).
  split; [exact Hc|]. split; [lia|]. split; [exact Hn|].
  apply (amount_round_trip 1000000 123456789 Hc); [lia | exact Hn].
Defined.

(** The lower bound on the scale is needed: at scale one the sum with one
    half is a tie above [2^52] and is rounded to the even neighbour. *)
Remark round_trip_needs_scale :
  xBridgeAmountFromReal 1 (xBridgeValueFromAmount 1 (2 ^ 52 + 1)) = 2 ^ 52 + 2.
Proof. vm_compute. reflexivity. Qed.
